(** * Fast_BitFilter_MetaData: the BitSet core, the Entry aggregate and the
      one-hot bit mapper, embedded from the Go sources

    - [boolbits/boolbits/boolbits.go]  : [BitSet] and its operations
    - [boolbits/boolbits/entry.go]     : [Entry] (four BitSets) and its algebra
    - [boolbits/bitmapper]             : [GenerateBitMaps] and [NewEntry]

    Conventions of the embedding.
    - Go's [int] is a [Z]; [/] and [%] are Go's truncated division, [Z.quot]
      and [Z.rem]. Every [int] the code computes is bounded by a slice length
      or by its argument, so no [int] operation wraps.
    - [uint64] and [byte] are [Z]s, with the wrap-around of every operation
      that can leave the range written out ([wrap64], [byte_of]).
    - A slice is a [list]; reading or writing outside it panics, as in Go.
    - A [*BitSet] or [*Entry] that the code may find nil is an [option].
      Pointers are followed to the value they hold: two pointers to one
      BitSet are two equal values here.
    - A call returns [Ok v], an [error] value ([Err]) or panics ([Panic]).
      A method that writes through its receiver returns the receiver's new
      contents beside its result. *)

From Stdlib Require Import ZArith Lia List Ascii String Bool.
From stdpp Require Import base option list strings gmap.

Local Open Scope Z_scope.

(** ** Results of a call *)

(** The bit-level methods that check an index. *)
Inductive bitop := OpSetBit | OpClearBit | OpTestBit.

(** The binary operations of [Entry], as their error messages spell them. *)
Inductive binop := AND | OR | XOR.

(** The four slots of an [Entry]. *)
Inductive field := FDomain | FGroup | FName | FValue.

(** One constructor per [fmt.Errorf] / [errors.New] site, holding the values
    the message is formatted with. *)
Inductive error :=
  (* "error: numBits must be a positive multiple of 64 (got %d)" *)
  | ErrNumBits (numBits : Z)
  (* "error: hex string must be exactly %d characters long (got %d)" *)
  | ErrHexLen (expectedHexLen got : Z)
  (* encoding/hex: InvalidByteError *)
  | ErrHexInvalidByte (c : ascii)
  (* encoding/hex: ErrLength *)
  | ErrHexOddLength
  (* "internal error: hex decoding mismatch, expected %d bytes, got %d" *)
  | ErrHexDecodeMismatch (expectedBytes got : Z)
  (* "SetBit: index %d out of valid range [0, %d)", and ClearBit, TestBit *)
  | ErrBitIndex (m : bitop) (i numBits : Z)
  (* "bitset sizes differ" *)
  | ErrSizesDiffer
  (* "domain BitSet is nil", ... *)
  | ErrNilBitSet (f : field)
  (* "cannot AND nil Entry", ... *)
  | ErrNilEntry (o : binop)
  (* "mismatched Domain bit lengths: %d vs %d", ... *)
  | ErrMismatched (f : field) (n1 n2 : Z)
  (* "Domain AND error: %v", ... *)
  | ErrFieldOp (f : field) (o : binop) (cause : error)
  (* "failed to create BitSet of length %d: %v" *)
  | ErrCreateBitSet (bitlen : Z) (cause : error)
  (* "failed to set bit %d for value '%s': %v" *)
  | ErrSetBitFor (idx : Z) (val : string) (cause : error)
  (* "domain key '%s' not found", ... *)
  | ErrKeyNotFound (f : field) (key : string).

(** Run-time panics of the Go runtime the modelled code can reach. *)
Inductive panic :=
  | PanicIndex (i length : Z)   (* index out of range [i] with length *)
  | PanicMakeLen (n : Z)        (* makeslice: len out of range *)
  | PanicNil.                   (* nil pointer dereference *)

Inductive result (A : Type) : Type :=
  | Ok (a : A)
  | Err (e : error)
  | Panic (p : panic).
Arguments Ok {A} a.
Arguments Err {A} e.
Arguments Panic {A} p.

#[global] Instance result_ret : MRet result := fun A a => Ok a.
#[global] Instance result_bind : MBind result := fun A B f r =>
  match r with
  | Ok a => f a
  | Err e => Err e
  | Panic p => Panic p
  end.

(** ** Machine integers and slices *)

Definition wrap64 (z : Z) : Z := z mod 2 ^ 64.
Definition byte_of (z : Z) : Z := z mod 2 ^ 8.

(** [x << k] and [^x] on uint64. *)
Definition shl64 (x k : Z) : Z := wrap64 (Z.shiftl x k).
Definition not64 (x : Z) : Z := wrap64 (Z.lnot x).

Definition len {A} (s : list A) : Z := Z.of_nat (length s).

(** [s[i]] as a value. *)
Definition index {A} (s : list A) (i : Z) : result A :=
  match (if 0 <=? i then s !! Z.to_nat i else None) with
  | Some x => Ok x
  | None => Panic (PanicIndex i (len s))
  end.

(** [s[i] = v]. *)
Definition store {A} (s : list A) (i : Z) (v : A) : result (list A) :=
  if (0 <=? i) && (i <? len s) then Ok (<[Z.to_nat i := v]> s)
  else Panic (PanicIndex i (len s)).

(** [make([]uint64, n)] and [make([]byte, n)]: n zeros. The limit of the
    runtime on the size of one allocation is not modelled. *)
Definition make (n : Z) : result (list Z) :=
  if n <? 0 then Panic (PanicMakeLen n) else Ok (replicate (Z.to_nat n) 0).

(** That limit, [runtime.maxAlloc], in bytes: 2^48 on the 64-bit platforms
    with 48-bit heap addresses. The runtime's [makeslice] panics ("makeslice:
    len out of range") on a slice of more bytes, which [make] above does not:
    [make] is the runtime's up to this size. A slice that the code sizes by
    one it already holds is within the limit; where the length comes from an
    argument of the code, a statement that the call succeeds is made for the
    lengths whose slice is within the limit. *)
Definition maxAlloc : Z := 2 ^ 48.

(** [for i := i0; i < i0 + k; i++ { s = body i s }] *)
Fixpoint for_loop {S} (k : nat) (i : Z) (body : Z -> S -> result S) (s : S)
  : result S :=
  match k with
  | O => Ok s
  | S k' => s' ← body i s; for_loop k' (i + 1) body s'
  end.

(** [for i := 0; i < n; i++ { ... }] *)
Definition for_range {S} (n : Z) (body : Z -> S -> result S) (s : S) : result S :=
  for_loop (Z.to_nat n) 0 body s.

(** ** Go standard library: math/bits and encoding/hex *)

(** Modelled from the Go standard library's documentation (the package is not
    part of this repository): [bits.OnesCount64(x)] is the number of one bits
    of the 64-bit x. *)
Definition OnesCount64 (x : Z) : Z :=
  fold_right (fun i acc => Z.b2z (Z.testbit x (Z.of_nat i)) + acc) 0 (seq 0 64).

Definition ascii_code (c : ascii) : Z := Z.of_N (N_of_ascii c).

(** encoding/hex's [reverseHexTable]: the value of a hex digit of either case,
    [None] where the table holds 0xff. *)
Definition fromHexChar (c : ascii) : option Z :=
  let n := ascii_code c in
  if (48 <=? n) && (n <=? 57) then Some (n - 48)
  else if (97 <=? n) && (n <=? 102) then Some (n - 97 + 10)
  else if (65 <=? n) && (n <=? 70) then Some (n - 65 + 10)
  else None.

(** [hex.DecodeString]: the bytes decoded before the first error, and the
    error. Two characters make a byte; a bad character is reported before an
    odd length. *)
Fixpoint hex_DecodeString (s : string) : list Z * option error :=
  match s with
  | EmptyString => ([], None)
  | String p EmptyString =>
      match fromHexChar p with
      | None => ([], Some (ErrHexInvalidByte p))
      | Some _ => ([], Some ErrHexOddLength)
      end
  | String p (String q rest) =>
      match fromHexChar p with
      | None => ([], Some (ErrHexInvalidByte p))
      | Some a =>
          match fromHexChar q with
          | None => ([], Some (ErrHexInvalidByte q))
          | Some b =>
              let '(bytes, err) := hex_DecodeString rest in
              (Z.lor (Z.shiftl a 4) b :: bytes, err)
          end
      end
  end.

Definition hextable : string := "0123456789abcdef".

(** [hextable[v]] *)
Definition hexdigit (v : Z) : ascii :=
  match String.get (Z.to_nat v) hextable with
  | Some c => c
  | None => "000"%char
  end.

(** [hex.EncodeToString]: two lowercase digits per byte, high nibble first. *)
Fixpoint hex_EncodeToString (src : list Z) : string :=
  match src with
  | [] => EmptyString
  | v :: rest =>
      String (hexdigit (Z.shiftr v 4))
        (String (hexdigit (Z.land v 15)) (hex_EncodeToString rest))
  end.

Definition slen (s : string) : Z := Z.of_nat (String.length s).

(** ** Package boolbits: boolbits.go *)

Module boolbits.

Record BitSet := mkBitSet {
  Words : list Z;   (* underlying words, 1 word = 64 bits *)
  NumBits : Z;      (* total number of bits *)
  numWords : Z;     (* NumBits / 64 *)
}.

(** The receiver after a write to [b.Words]. *)
Definition with_Words (b : BitSet) (ws : list Z) : BitSet :=
  {| Words := ws; NumBits := NumBits b; numWords := numWords b |}.

(** The guard [numBits <= 0 || numBits%64 != 0] of both constructors. *)
Definition bad_numBits (numBits : Z) : bool :=
  (numBits <=? 0) || negb (Z.rem numBits 64 =? 0).

Definition NewBitSet (numBits : Z) : result BitSet :=
  if bad_numBits numBits then Err (ErrNumBits numBits)
  else
    let numWords := Z.quot numBits 64 in
    words ← make numWords;
    Ok {| Words := words; NumBits := numBits; numWords := numWords |}.

Definition NewBitSetFromHex (numBits : Z) (hexStr : string) : result BitSet :=
  if bad_numBits numBits then Err (ErrNumBits numBits)
  else
    let expectedHexLen := Z.quot numBits 4 in
    if negb (slen hexStr =? expectedHexLen)
    then Err (ErrHexLen expectedHexLen (slen hexStr))
    else
      match hex_DecodeString hexStr with
      | (_, Some err) => Err err
      | (data, None) =>
          let expectedBytes := Z.quot numBits 8 in
          if negb (len data =? expectedBytes)
          then Err (ErrHexDecodeMismatch expectedBytes (len data))
          else
            let numWords := Z.quot numBits 64 in
            words ← make numWords;
            words ← for_range numWords (fun i words =>
              let offset := i * 8 in
              w ← for_range 8 (fun j w =>
                     d ← index data (offset + j);
                     Ok (Z.lor w (shl64 d ((7 - j) * 8)))) 0;
              store words i w) words;
            Ok {| Words := words; NumBits := numBits; numWords := numWords |}
      end.

Definition ToHex (b : BitSet) : result string :=
  buf ← make (numWords b * 8);
  buf ← for_range (numWords b) (fun i buf =>
    w ← index (Words b) i;
    let offset := i * 8 in
    buf ← store buf offset (byte_of (Z.shiftr w 56));
    buf ← store buf (offset + 1) (byte_of (Z.shiftr w 48));
    buf ← store buf (offset + 2) (byte_of (Z.shiftr w 40));
    buf ← store buf (offset + 3) (byte_of (Z.shiftr w 32));
    buf ← store buf (offset + 4) (byte_of (Z.shiftr w 24));
    buf ← store buf (offset + 5) (byte_of (Z.shiftr w 16));
    buf ← store buf (offset + 6) (byte_of (Z.shiftr w 8));
    store buf (offset + 7) (byte_of w)) buf;
  Ok (hex_EncodeToString buf).

(** The guard [i < 0 || i >= b.NumBits] of the three bit methods. *)
Definition bad_index (b : BitSet) (i : Z) : bool :=
  (i <? 0) || (i >=? NumBits b).

(** [b.Words[wordIdx] = f(b.Words[wordIdx])] through the receiver: the
    receiver's contents afterwards, and what the call returns. *)
Definition update_word (b : BitSet) (wordIdx : Z) (f : Z -> Z)
  : BitSet * result unit :=
  match (w ← index (Words b) wordIdx; store (Words b) wordIdx (f w)) with
  | Ok ws => (with_Words b ws, Ok tt)
  | Err e => (b, Err e)
  | Panic p => (b, Panic p)
  end.

Definition SetBit (b : BitSet) (i : Z) : BitSet * result unit :=
  if bad_index b i then (b, Err (ErrBitIndex OpSetBit i (NumBits b)))
  else
    let wordIdx := Z.quot i 64 in
    let bitIdx := Z.rem i 64 in
    update_word b wordIdx (fun w => Z.lor w (shl64 1 bitIdx)).

Definition ClearBit (b : BitSet) (i : Z) : BitSet * result unit :=
  if bad_index b i then (b, Err (ErrBitIndex OpClearBit i (NumBits b)))
  else
    let wordIdx := Z.quot i 64 in
    let bitIdx := Z.rem i 64 in
    update_word b wordIdx (fun w => Z.land w (not64 (shl64 1 bitIdx))).

Definition TestBit (b : BitSet) (i : Z) : result bool :=
  if bad_index b i then Err (ErrBitIndex OpTestBit i (NumBits b))
  else
    let wordIdx := Z.quot i 64 in
    let bitIdx := Z.rem i 64 in
    w ← index (Words b) wordIdx;
    Ok (Z.land (Z.shiftr w bitIdx) 1 =? 1).

(** [for _, w := range ws { if w != 0 { return false } }; return true] *)
Fixpoint all_zero (ws : list Z) : bool :=
  match ws with
  | [] => true
  | w :: ws' => if negb (w =? 0) then false else all_zero ws'
  end.

Definition IsZero (b : BitSet) : bool := all_zero (Words b).

Definition CountOnes (b : BitSet) : Z :=
  fold_left (fun count w => count + OnesCount64 w) (Words b) 0.

Definition ensureSameSize (a o : BitSet) : option error :=
  if negb (NumBits a =? NumBits o) then Some ErrSizesDiffer else None.

(** The common body of [And], [Or] and [Xor], which differ in the word
    operator only. *)
Definition wordwise (f : Z -> Z -> Z) (b o : BitSet) : result BitSet :=
  match ensureSameSize b o with
  | Some err => Err err
  | None =>
      result ← make (numWords b);
      result ← for_range (numWords b) (fun i result =>
        x ← index (Words b) i;
        y ← index (Words o) i;
        store result i (f x y)) result;
      Ok {| Words := result; NumBits := NumBits b; numWords := numWords b |}
  end.

Definition And : BitSet -> BitSet -> result BitSet := wordwise Z.land.
Definition Or : BitSet -> BitSet -> result BitSet := wordwise Z.lor.
Definition Xor : BitSet -> BitSet -> result BitSet := wordwise Z.lxor.

Definition Not (b : BitSet) : result BitSet :=
  result ← make (numWords b);
  result ← for_range (numWords b) (fun i result =>
    x ← index (Words b) i;
    store result i (not64 x)) result;
  Ok {| Words := result; NumBits := NumBits b; numWords := numWords b |}.

(** The loop of [Equals], from word [i] on, with [k] words to go. *)
Fixpoint Equals_loop (k : nat) (i : Z) (b o : BitSet) : result bool :=
  match k with
  | O => Ok true
  | S k' =>
      x ← index (Words b) i;
      y ← index (Words o) i;
      if negb (x =? y) then Ok false else Equals_loop k' (i + 1) b o
  end.

Definition Equals (b o : BitSet) : result bool :=
  if negb (NumBits b =? NumBits o) then Ok false
  else Equals_loop (Z.to_nat (numWords b)) 0 b o.

(** *** entry.go *)

(** Following a pointer: [p.NumBits], [p.Words] panic on a nil [p]. *)
Definition deref {A} (p : option A) : result A :=
  match p with
  | Some a => Ok a
  | None => Panic PanicNil
  end.

Record Entry := mkEntry {
  Domain : option BitSet;
  Group : option BitSet;
  Name : option BitSet;
  Value : option BitSet;
}.

Definition NewEntry (domainBS groupBS nameBS valueBS : option BitSet)
  : result Entry :=
  if bool_decide (domainBS = None) then Err (ErrNilBitSet FDomain)
  else if bool_decide (groupBS = None) then Err (ErrNilBitSet FGroup)
  else if bool_decide (nameBS = None) then Err (ErrNilBitSet FName)
  else if bool_decide (valueBS = None) then Err (ErrNilBitSet FValue)
  else Ok {| Domain := domainBS; Group := groupBS;
             Name := nameBS; Value := valueBS |}.

(** [if e.F.NumBits != o.F.NumBits { return nil, fmt.Errorf("mismatched F
    bit lengths: %d vs %d", ...) }] for the slot [f]. *)
Definition check_field (f : field) (x y : option BitSet) : result unit :=
  a ← deref x;
  b ← deref y;
  if negb (NumBits a =? NumBits b)
  then Err (ErrMismatched f (NumBits a) (NumBits b))
  else Ok tt.

(** [fRes, err := e.F.Op(o.F); if err != nil { return nil, fmt.Errorf("F OP
    error: %v", err) }] for the slot [f]. *)
Definition apply_field (f : field) (o : binop)
    (op : BitSet -> BitSet -> result BitSet) (x y : option BitSet)
  : result BitSet :=
  a ← deref x;
  b ← deref y;
  match op a b with
  | Ok r => Ok r
  | Err err => Err (ErrFieldOp f o err)
  | Panic p => Panic p
  end.

(** The common body of [Entry.And], [Entry.Or] and [Entry.Xor]: the three
    are the same text up to the BitSet method called and its name in the
    messages. *)
Definition Entry_binop (name : binop) (op : BitSet -> BitSet -> result BitSet)
    (e o : option Entry) : result Entry :=
  match e, o with
  | Some e, Some o =>
      _ ← check_field FDomain (Domain e) (Domain o);
      _ ← check_field FGroup (Group e) (Group o);
      _ ← check_field FName (Name e) (Name o);
      _ ← check_field FValue (Value e) (Value o);
      domainRes ← apply_field FDomain name op (Domain e) (Domain o);
      groupRes ← apply_field FGroup name op (Group e) (Group o);
      nameRes ← apply_field FName name op (Name e) (Name o);
      valueRes ← apply_field FValue name op (Value e) (Value o);
      Ok {| Domain := Some domainRes; Group := Some groupRes;
            Name := Some nameRes; Value := Some valueRes |}
  | _, _ => Err (ErrNilEntry name)
  end.

Definition Entry_And : option Entry -> option Entry -> result Entry :=
  Entry_binop AND And.
Definition Entry_Or : option Entry -> option Entry -> result Entry :=
  Entry_binop OR Or.
Definition Entry_Xor : option Entry -> option Entry -> result Entry :=
  Entry_binop XOR Xor.

(** *** boolbits.go: String *)

(** [String]: named [BitSet_String] here, [String] being the constructor of
    Rocq's strings. *)
Definition BitSet_String (b : BitSet) : result string :=
  hex ← ToHex b;
  Ok (String "0" (String "x" hex)).

(** *** entry.go: Equals, Not, NewAllOnesEntry *)

(** [e.F.Equals(o.F)] for one slot. *)
Definition field_Equals (x y : option BitSet) : result bool :=
  a ← deref x;
  b ← deref y;
  Equals a b.

(** [&&] evaluates its right operand only when the left one is true. *)
Definition Entry_Equals (e o : option Entry) : result bool :=
  match e, o with
  | Some e, Some o =>
      r ← field_Equals (Domain e) (Domain o);
      if negb r then Ok false
      else
        r ← field_Equals (Group e) (Group o);
        if negb r then Ok false
        else
          r ← field_Equals (Name e) (Name o);
          if negb r then Ok false
          else field_Equals (Value e) (Value o)
  | _, _ => Ok false
  end.

(** The error values of [Entry.Not] and [NewAllOnesEntry], beside those an
    operation they call could return. *)
Inductive entry_error :=
  (* an error of a function called *)
  | ErrBase (e : error)
  (* "cannot NOT nil Entry" *)
  | ErrNotNilEntry
  (* "bit length must be a positive multiple of 64 (got %d)" *)
  | ErrBitLen (bitLen : Z).

Inductive eresult (A : Type) : Type :=
  | Done (a : A)
  | Failed (e : entry_error)
  | Panicked (p : panic).
Arguments Done {A} a.
Arguments Failed {A} e.
Arguments Panicked {A} p.

#[global] Instance eresult_ret : MRet eresult := fun A a => Done a.
#[global] Instance eresult_bind : MBind eresult := fun A B f r =>
  match r with
  | Done a => f a
  | Failed e => Failed e
  | Panicked p => Panicked p
  end.

(** A call of a function of boolbits.go from these two. *)
Definition lift {A} (r : result A) : eresult A :=
  match r with
  | Ok a => Done a
  | Err e => Failed (ErrBase e)
  | Panic p => Panicked p
  end.

(** [e.F.Not()] for one slot. *)
Definition field_Not (x : option BitSet) : result BitSet :=
  a ← deref x;
  Not a.

Definition Entry_Not (e : option Entry) : eresult Entry :=
  match e with
  | None => Failed ErrNotNilEntry
  | Some e =>
      domainRes ← lift (field_Not (Domain e));
      groupRes ← lift (field_Not (Group e));
      nameRes ← lift (field_Not (Name e));
      valueRes ← lift (field_Not (Value e));
      Done {| Domain := Some domainRes; Group := Some groupRes;
              Name := Some nameRes; Value := Some valueRes |}
  end.

(** The closure [fillAllOnes] of [NewAllOnesEntry], with the variables it
    captures as arguments. [^uint64(0)] is [not64 0]. *)
Definition fillAllOnes (bitLen numWords : Z) : result BitSet :=
  b ← make numWords;
  b ← for_range numWords (fun i b => store b i (not64 0)) b;
  Ok {| Words := b; NumBits := bitLen; numWords := numWords |}.

Definition NewAllOnesEntry (bitLen : Z) : eresult Entry :=
  if bad_numBits bitLen then Failed (ErrBitLen bitLen)
  else
    let numWords := Z.quot bitLen 64 in
    domainBS ← lift (fillAllOnes bitLen numWords);
    groupBS ← lift (fillAllOnes bitLen numWords);
    nameBS ← lift (fillAllOnes bitLen numWords);
    valueBS ← lift (fillAllOnes bitLen numWords);
    Done {| Domain := Some domainBS; Group := Some groupBS;
            Name := Some nameBS; Value := Some valueBS |}.

End boolbits.

(** ** Package bitmapper *)

Module bitmapper.
Import boolbits.

Record Entry := mkEntry {
  Domain : option BitSet;
  Group : option BitSet;
  Name : option BitSet;
  Value : option BitSet;
}.

(** One iteration of [dedup]'s loop over [seen] and [unique]. *)
Definition dedup_step (st : gset string * list string) (v : string)
  : gset string * list string :=
  if bool_decide (v ∈ st.1) then st else ({[v]} ∪ st.1, st.2 ++ [v]).

Definition dedup (input : list string) : list string :=
  (fold_left dedup_step input (∅, [])).2.

Definition computeBitLength (count : Z) : Z :=
  if count <=? 0 then 64
  else if Z.rem count 64 =? 0 then count
  else (Z.quot count 64 + 1) * 64.

(** [for idx, val := range uniqueList { ... }] in [assign], from [idx] on. *)
Fixpoint assign_loop (bitlen idx : Z) (uniqueList : list string)
    (bsMap : gmap string (option BitSet)) : result (gmap string (option BitSet)) :=
  match uniqueList with
  | [] => Ok bsMap
  | val :: rest =>
      match NewBitSet bitlen with
      | Err err => Err (ErrCreateBitSet bitlen err)
      | Panic p => Panic p
      | Ok bs =>
          match SetBit bs idx with
          | (_, Err err) => Err (ErrSetBitFor idx val err)
          | (_, Panic p) => Panic p
          | (bs, Ok _) => assign_loop bitlen (idx + 1) rest (<[val := Some bs]> bsMap)
          end
      end
  end.

Definition assign (uniqueList : list string)
  : result (gmap string (option BitSet)) :=
  let count := len uniqueList in
  let bitlen := computeBitLength count in
  assign_loop bitlen 0 uniqueList ∅.

Definition GenerateBitMaps
    (domains metadataGroupNames metadataNames metadataValues : list string)
  : result (gmap string (option BitSet) * gmap string (option BitSet)
            * gmap string (option BitSet) * gmap string (option BitSet)) :=
  let uniqueDomains := dedup domains in
  let uniqueGroupNames := dedup metadataGroupNames in
  let uniqueNames := dedup metadataNames in
  let uniqueValues := dedup metadataValues in
  domainMap ← assign uniqueDomains;
  groupMap ← assign uniqueGroupNames;
  nameMap ← assign uniqueNames;
  valueMap ← assign uniqueValues;
  Ok (domainMap, groupMap, nameMap, valueMap).

Definition NewEntry (domainKey groupKey nameKey valueKey : string)
    (domainMap groupMap nameMap valueMap : gmap string (option BitSet))
  : result Entry :=
  match domainMap !! domainKey with
  | None => Err (ErrKeyNotFound FDomain domainKey)
  | Some domainBS =>
      match groupMap !! groupKey with
      | None => Err (ErrKeyNotFound FGroup groupKey)
      | Some groupBS =>
          match nameMap !! nameKey with
          | None => Err (ErrKeyNotFound FName nameKey)
          | Some nameBS =>
              match valueMap !! valueKey with
              | None => Err (ErrKeyNotFound FValue valueKey)
              | Some valueBS =>
                  Ok {| Domain := domainBS; Group := groupBS;
                        Name := nameBS; Value := valueBS |}
              end
          end
      end
  end.

(** [Entry.Equals] of package bitmapper: the text of boolbits' one, on
    bitmapper's [Entry]. *)
Definition Entry_Equals (e o : option Entry) : result bool :=
  match e, o with
  | Some e, Some o =>
      r ← field_Equals (Domain e) (Domain o);
      if negb r then Ok false
      else
        r ← field_Equals (Group e) (Group o);
        if negb r then Ok false
        else
          r ← field_Equals (Name e) (Name o);
          if negb r then Ok false
          else field_Equals (Value e) (Value o)
  | _, _ => Ok false
  end.

End bitmapper.

Import boolbits.

(** ** Vocabulary of the statements *)

(** A uint64 and a byte as values. *)
Definition word_ok (w : Z) : Prop := 0 <= w < 2 ^ 64.
Definition byte_ok (d : Z) : Prop := 0 <= d < 2 ^ 8.

(** The invariant boolbits.go states on the type ("NumBits must be >0 and
    divisible by 64", "Words = NumBits / 64"): what every BitSet built by the
    package's constructors and operations satisfies. *)
Record wf (b : BitSet) : Prop := mk_wf {
  wf_pos : 0 < NumBits b;
  wf_aligned : Z.rem (NumBits b) 64 = 0;
  wf_numWords : numWords b = Z.quot (NumBits b) 64;
  wf_len : len (Words b) = numWords b;
  wf_words : Forall word_ok (Words b);
}.

(** Bit [p] of word [k] of the vector, read off the representation. *)
Definition word_bit (b : BitSet) (k p : Z) : bool :=
  Z.testbit (nth (Z.to_nat k) (Words b) 0) p.

(** The eight bytes of a word, most significant first, and the word of eight
    bytes. *)
Definition bytes_of_word (w : Z) : list Z :=
  [byte_of (Z.shiftr w 56); byte_of (Z.shiftr w 48); byte_of (Z.shiftr w 40);
   byte_of (Z.shiftr w 32); byte_of (Z.shiftr w 24); byte_of (Z.shiftr w 16);
   byte_of (Z.shiftr w 8); byte_of w].

Definition word_of_bytes (d0 d1 d2 d3 d4 d5 d6 d7 : Z) : Z :=
  Z.lor (Z.lor (Z.lor (Z.lor (Z.lor (Z.lor (Z.lor (Z.lor 0
    (shl64 d0 56)) (shl64 d1 48)) (shl64 d2 40)) (shl64 d3 32))
    (shl64 d4 24)) (shl64 d5 16)) (shl64 d6 8)) (shl64 d7 0).

Fixpoint words_of_bytes (data : list Z) : list Z :=
  match data with
  | d0 :: d1 :: d2 :: d3 :: d4 :: d5 :: d6 :: d7 :: rest =>
      word_of_bytes d0 d1 d2 d3 d4 d5 d6 d7 :: words_of_bytes rest
  | _ => []
  end.

(** A character of [0-9a-f], and a string of such characters. *)
Definition is_lower_hex (c : ascii) : bool :=
  let n := ascii_code c in
  ((48 <=? n) && (n <=? 57)) || ((97 <=? n) && (n <=? 102)).

Fixpoint all_lower_hex (s : string) : bool :=
  match s with
  | EmptyString => true
  | String c s' => is_lower_hex c && all_lower_hex s'
  end.

(** The distinct elements of a sequence in order of first occurrence. *)
Fixpoint first_occurrences (l : list string) : list string :=
  match l with
  | [] => []
  | x :: l' => x :: filter (fun y => y ≠ x) (first_occurrences l')
  end.

(** [r] is the smallest positive multiple of 64 that is at least [c]: the
    smallest multiple of 64 at least [c] when [c] is positive, and 64 when
    [c] is 0. *)
Definition smallest_multiple_of_64_geq (c r : Z) : Prop :=
  (64 | r) /\ 0 < r /\ c <= r /\
  forall m, (64 | m) -> 0 < m -> c <= m -> r <= m.

(** A vector with bit [r] set and no other. *)
Definition one_hot (b : BitSet) (r : Z) : Prop :=
  wf b /\ CountOnes b = 1 /\
  forall j, 0 <= j < NumBits b -> TestBit b j = Ok (j =? r).

(** What [GenerateBitMaps] returns for one input sequence: with [unique]
    the sequence without its repetitions, in order of first occurrence, the
    map has one entry per element of [unique] and nothing else, and the
    element at rank [r] of [unique] is mapped to a (non-nil) BitSet that has
    bit [r] set and no other, of the bit length computed from the number of
    distinct labels. *)
Definition one_hot_map (input : list string)
    (m : gmap string (option BitSet)) : Prop :=
  let unique := bitmapper.dedup input in
  let bitlen := bitmapper.computeBitLength (len unique) in
  unique = first_occurrences input /\ NoDup unique /\
  (forall x, x ∈ unique <-> x ∈ input) /\
  smallest_multiple_of_64_geq (len unique) bitlen /\
  size m = length unique /\
  (forall x, is_Some (m !! x) <-> x ∈ input) /\
  forall (r : nat) label, unique !! r = Some label ->
    exists b, m !! label = Some (Some b) /\ NumBits b = bitlen /\
              one_hot b (Z.of_nat r).

(** What [Entry.And], [Entry.Or] and [Entry.Xor] have in common, for the
    method [E] of [Entry] named [name] in the messages and the BitSet method
    [op] it applies to each slot:
    - an absent operand gives the nil-Entry error;
    - on operands whose slots are all present, the first slot, in the order
      domain, group, name, value, whose bit lengths differ gives the mismatch
      error naming that slot with the two lengths, whatever the words of
      the BitSets hold;
    - when the four lengths agree and the BitSets satisfy the invariant, [op]
      succeeds on each slot and the result holds the four results;
    - the error that wraps a failure of [op] itself is never returned: every
      length check comes before the first application of [op]. *)
Definition entry_binop_spec (name : binop)
    (op : BitSet -> BitSet -> result BitSet)
    (E : option Entry -> option Entry -> result Entry) : Prop :=
  (forall x, E None x = Err (ErrNilEntry name) /\ E x None = Err (ErrNilEntry name)) /\
  (forall d g n v d' g' n' v',
     let e := Some (mkEntry (Some d) (Some g) (Some n) (Some v)) in
     let o := Some (mkEntry (Some d') (Some g') (Some n') (Some v')) in
     (NumBits d <> NumBits d' ->
        E e o = Err (ErrMismatched FDomain (NumBits d) (NumBits d'))) /\
     (NumBits d = NumBits d' -> NumBits g <> NumBits g' ->
        E e o = Err (ErrMismatched FGroup (NumBits g) (NumBits g'))) /\
     (NumBits d = NumBits d' -> NumBits g = NumBits g' ->
      NumBits n <> NumBits n' ->
        E e o = Err (ErrMismatched FName (NumBits n) (NumBits n'))) /\
     (NumBits d = NumBits d' -> NumBits g = NumBits g' ->
      NumBits n = NumBits n' -> NumBits v <> NumBits v' ->
        E e o = Err (ErrMismatched FValue (NumBits v) (NumBits v'))) /\
     (NumBits d = NumBits d' -> NumBits g = NumBits g' ->
      NumBits n = NumBits n' -> NumBits v = NumBits v' ->
      wf d -> wf g -> wf n -> wf v -> wf d' -> wf g' -> wf n' -> wf v' ->
        exists rd rg rn rv,
          op d d' = Ok rd /\ op g g' = Ok rg /\
          op n n' = Ok rn /\ op v v' = Ok rv /\
          E e o = Ok (mkEntry (Some rd) (Some rg) (Some rn) (Some rv)))) /\
  (forall e o f name' cause, E e o <> Err (ErrFieldOp f name' cause)).

(** Two 128-bit vectors to run the statements on: bits 0, 2 and 127, and
    bits 0, 1 and 64. *)
Definition sample_a : BitSet := mkBitSet [5; 9223372036854775808] 128 2.
Definition sample_b : BitSet := mkBitSet [3; 1] 128 2.

(** A 64-bit vector, and the four maps of the package's own test. *)
Definition sample_c : BitSet := mkBitSet [7] 64 1.

Definition sample_maps
  : gmap string (option BitSet) * gmap string (option BitSet)
    * gmap string (option BitSet) * gmap string (option BitSet) :=
  match bitmapper.GenerateBitMaps ["d1"; "d2"] ["g1"] ["n1"; "n2"; "n3"]
          ["v1"; "v2"] with
  | Ok maps => maps
  | _ => (∅, ∅, ∅, ∅)
  end.
Definition sample_domainMap : gmap string (option BitSet) := sample_maps.1.1.1.
Definition sample_groupMap : gmap string (option BitSet) := sample_maps.1.1.2.
Definition sample_nameMap : gmap string (option BitSet) := sample_maps.1.2.
Definition sample_valueMap : gmap string (option BitSet) := sample_maps.2.

(** Whether [TestBit] finds bit [i] set, and the valid indices whose bit is
    set. *)
Definition bit_is_set (b : BitSet) (i : Z) : bool :=
  match TestBit b i with
  | Ok true => true
  | _ => false
  end.

Definition set_bits (b : BitSet) : list nat :=
  List.filter (fun n => bit_is_set b (Z.of_nat n)) (seq 0 (Z.to_nat (NumBits b))).

(** The bit of a word list the index [n] falls on. *)
Definition words_bit (ws : list Z) (n : nat) : bool :=
  Z.testbit (nth (Z.to_nat (Z.quot (Z.of_nat n) 64)) ws 0)
    (Z.rem (Z.of_nat n) 64).

(** A hex digit of either case, a string of hex digits, and the first
    character of a string that is no hex digit. *)
Definition is_hex (c : ascii) : bool :=
  let n := ascii_code c in
  is_lower_hex c || ((65 <=? n) && (n <=? 70)).

Fixpoint all_hex (s : string) : bool :=
  match s with
  | EmptyString => true
  | String c s' => is_hex c && all_hex s'
  end.

Fixpoint first_non_hex (s : string) : option ascii :=
  match s with
  | EmptyString => None
  | String c s' => if is_hex c then first_non_hex s' else Some c
  end.

(** A string with its letters A to F in lower case. *)
Definition lower_hex (c : ascii) : ascii :=
  let n := ascii_code c in
  if (65 <=? n) && (n <=? 70) then ascii_of_N (Z.to_N (n + 32)) else c.

Fixpoint lower_hex_string (s : string) : string :=
  match s with
  | EmptyString => EmptyString
  | String c s' => String (lower_hex c) (lower_hex_string s')
  end.

(** Equality of BitSets and of Entries is decidable. *)
#[global] Instance BitSet_eq_dec : EqDecision BitSet.
Proof. solve_decision. Defined.
#[global] Instance Entry_eq_dec : EqDecision Entry.
Proof. solve_decision. Defined.

(** An Entry whose four fields point to BitSets that satisfy the invariant. *)
Definition entry_wf (e : Entry) : Prop :=
  exists d g n v, e = mkEntry (Some d) (Some g) (Some n) (Some v) /\
                  wf d /\ wf g /\ wf n /\ wf v.

(** The string of [n] characters [c]. *)
Fixpoint string_repeat (c : ascii) (n : nat) : string :=
  match n with
  | O => EmptyString
  | S n' => String c (string_repeat c n')
  end.

Definition sample_entry : Entry :=
  mkEntry (Some sample_a) (Some sample_b) (Some sample_c) (Some sample_a).
Definition sample_entry' : Entry :=
  mkEntry (Some sample_b) (Some sample_b) (Some sample_c) (Some sample_a).

(** The first of four BitSet pointers that is nil, if any. *)
Definition first_nil (d g n v : option BitSet) : option field :=
  match d, g, n, v with
  | None, _, _, _ => Some FDomain
  | _, None, _, _ => Some FGroup
  | _, _, None, _ => Some FName
  | _, _, _, None => Some FValue
  | _, _, _, _ => None
  end.

(** The largest [int] of Go on a 64-bit platform. *)
Definition max_int : Z := 2 ^ 63 - 1.

(** ** Slices and loops *)

Section Slices.
Context {A : Type}.
Implicit Types (s : list A) (i : Z).

Lemma len_nonneg s : 0 <= len s.
Proof. unfold len. lia. Qed.

Lemma index_lookup s (n : nat) x :
  s !! n = Some x -> index s (Z.of_nat n) = Ok x.
Proof.
  intros H. unfold index.
  destruct (Z.leb_spec 0 (Z.of_nat n)); [|lia].
  now rewrite Nat2Z.id, H.
Qed.

Lemma index_in_range s i :
  0 <= i < len s -> exists x, index s i = Ok x /\ s !! Z.to_nat i = Some x.
Proof.
  unfold len. intros Hi.
  destruct (lookup_lt_is_Some_2 s (Z.to_nat i)) as [x Hx]; [lia|].
  exists x. split; [|assumption].
  rewrite <- (Z2Nat.id i) by lia. now apply index_lookup.
Qed.

Lemma store_in_range s i v :
  0 <= i < len s -> store s i v = Ok (<[Z.to_nat i := v]> s).
Proof.
  intros [H0 H1]. unfold store.
  apply Z.leb_le in H0. apply Z.ltb_lt in H1. now rewrite H0, H1.
Qed.

Lemma store_nat s (n : nat) v :
  (n < length s)%nat -> store s (Z.of_nat n) v = Ok (<[n := v]> s).
Proof.
  intros H. rewrite store_in_range by (unfold len; lia).
  now rewrite Nat2Z.id.
Qed.
End Slices.

Lemma make_nat (n : nat) : make (Z.of_nat n) = Ok (replicate n 0).
Proof.
  unfold make. destruct (Z.ltb_spec (Z.of_nat n) 0); [lia|].
  now rewrite Nat2Z.id.
Qed.

Section Loops.
Context {S : Type}.
Implicit Types (body : Z -> S -> result S).

(** Hoare rule for the counted loop: an invariant kept by every iteration
    holds at the end, and the loop returns. *)
Lemma for_loop_inv (P : Z -> S -> Prop) body k i0 s :
  P i0 s ->
  (forall i s', i0 <= i < i0 + Z.of_nat k -> P i s' ->
      exists s'', body i s' = Ok s'' /\ P (i + 1) s'') ->
  exists s', for_loop k i0 body s = Ok s' /\ P (i0 + Z.of_nat k) s'.
Proof.
  revert i0 s. induction k as [|k IH]; intros i0 s H0 Hstep.
  - exists s. split; [reflexivity|]. now replace (i0 + Z.of_nat 0) with i0 by lia.
  - destruct (Hstep i0 s) as (s1 & Hb & H1); [lia|assumption|].
    destruct (IH (i0 + 1) s1 H1) as (s2 & Hl & H2).
    { intros. apply Hstep; [lia|assumption]. }
    exists s2. cbn [for_loop]. rewrite Hb. cbn. split; [assumption|].
    now replace (i0 + Z.of_nat (Datatypes.S k)) with (i0 + 1 + Z.of_nat k) by lia.
Qed.
End Loops.

(** A loop whose iteration [i] stores the [i]-th element of [target] returns
    [target]. *)
Lemma for_loop_fill {A} (body : Z -> list A -> result (list A)) (target : list A) :
  (forall (i : nat) x res, target !! i = Some x -> length res = length target ->
      body (Z.of_nat i) res = store res (Z.of_nat i) x) ->
  forall (k i0 : nat) init,
    (i0 + k = length target)%nat -> length init = length target ->
    for_loop k (Z.of_nat i0) body (take i0 target ++ drop i0 init) = Ok target.
Proof.
  intros Hbody. induction k as [|k IH]; intros i0 init Hk Hlen.
  - cbn. f_equal. rewrite take_ge, drop_ge by lia. apply app_nil_r.
  - destruct (lookup_lt_is_Some_2 target i0) as [x Hx]; [lia|].
    destruct (lookup_lt_is_Some_2 init i0) as [y Hy]; [lia|].
    assert (Hl : length (take i0 target ++ drop i0 init) = length target).
    { rewrite length_app, length_take, length_drop. lia. }
    cbn [for_loop]. rewrite (Hbody i0 x) by assumption.
    rewrite store_nat by lia. cbn.
    replace (Z.of_nat i0 + 1) with (Z.of_nat (Datatypes.S i0)) by lia.
    rewrite <- (IH (Datatypes.S i0) init) by lia. f_equal.
    rewrite insert_app_r_alt by (rewrite length_take; lia).
    rewrite length_take, (drop_S _ _ _ Hy), (take_S_r _ _ _ Hx).
    replace (i0 - i0 `min` length target)%nat with 0%nat by lia.
    cbn. now rewrite <- app_assoc.
Qed.

Lemma for_range_fill {A} (body : Z -> list A -> result (list A)) (target init : list A) :
  (forall (i : nat) x res, target !! i = Some x -> length res = length target ->
      body (Z.of_nat i) res = store res (Z.of_nat i) x) ->
  length init = length target ->
  for_range (len target) body init = Ok target.
Proof.
  intros Hbody Hlen. unfold for_range, len. rewrite Nat2Z.id.
  now apply (for_loop_fill body target Hbody (length target) 0%nat init).
Qed.


(** ** Arithmetic of bit lengths and bit indices *)

Lemma bad_numBits_false n :
  bad_numBits n = false <-> 0 < n /\ Z.rem n 64 = 0.
Proof.
  unfold bad_numBits. rewrite orb_false_iff, negb_false_iff, Z.leb_gt, Z.eqb_eq.
  reflexivity.
Qed.

Lemma bad_numBits_true n :
  bad_numBits n = true <-> ~ (0 < n /\ Z.rem n 64 = 0).
Proof.
  rewrite <- bad_numBits_false. destruct (bad_numBits n); split; congruence.
Qed.

(** A valid bit length is 64 times its (positive) number of words. *)
Lemma aligned_words n :
  0 < n -> Z.rem n 64 = 0 ->
  exists k : nat, (0 < k)%nat /\ n = 64 * Z.of_nat k /\
    Z.quot n 64 = Z.of_nat k /\ Z.quot n 8 = Z.of_nat (8 * k) /\
    Z.quot n 4 = Z.of_nat (16 * k).
Proof.
  intros Hn Hr. exists (Z.to_nat (Z.quot n 64)).
  assert (n = 64 * Z.quot n 64) by (rewrite (Z.quot_rem' n 64) at 1; lia).
  assert (0 < Z.quot n 64) by lia.
  repeat split; try lia;
    rewrite Nat2Z.inj_mul, Z2Nat.id by lia;
    symmetry; apply Z.quot_unique with (r := 0); lia.
Qed.

Lemma bad_index_false b i :
  bad_index b i = false <-> 0 <= i < NumBits b.
Proof.
  unfold bad_index. rewrite orb_false_iff, Z.ltb_ge, Z.geb_leb, Z.leb_gt.
  reflexivity.
Qed.

Lemma bad_index_true b i :
  bad_index b i = true <-> i < 0 \/ i >= NumBits b.
Proof.
  unfold bad_index. rewrite orb_true_iff, Z.ltb_lt, Z.geb_leb, Z.leb_le. lia.
Qed.

(** A valid index falls in a word of the vector, at a position below 64. *)
Lemma index_split b i :
  wf b -> 0 <= i < NumBits b ->
  0 <= Z.quot i 64 < len (Words b) /\ 0 <= Z.rem i 64 < 64 /\
  i = 64 * Z.quot i 64 + Z.rem i 64.
Proof.
  intros [Hp Ha Hw Hl _] Hi.
  pose proof (Z.quot_rem' i 64). pose proof (Z.rem_bound_pos i 64).
  pose proof (Z.quot_rem' (NumBits b) 64).
  rewrite Hl, Hw. repeat split; lia.
Qed.


(** ** Bits of machine words *)

Lemma testbit_wrap64 z i : Z.testbit (wrap64 z) i = (i <? 64) && Z.testbit z i.
Proof. unfold wrap64. apply Z.testbit_mod_pow2. lia. Qed.

Lemma testbit_byte_of z i : Z.testbit (byte_of z) i = (i <? 8) && Z.testbit z i.
Proof. unfold byte_of. apply Z.testbit_mod_pow2. lia. Qed.

Lemma wrap64_ok z : word_ok (wrap64 z).
Proof. unfold word_ok, wrap64. apply Z.mod_pos_bound. lia. Qed.

Lemma byte_of_ok z : byte_ok (byte_of z).
Proof. unfold byte_ok, byte_of. apply Z.mod_pos_bound. lia. Qed.

Lemma wrap64_small w : word_ok w -> wrap64 w = w.
Proof. intros H. apply Z.mod_small, H. Qed.

Lemma testbit_word_high w i : word_ok w -> 64 <= i -> Z.testbit w i = false.
Proof.
  intros H Hi. rewrite <- (wrap64_small w H), testbit_wrap64.
  destruct (Z.ltb_spec i 64); [lia | reflexivity].
Qed.

Lemma testbit_byte_high d i : byte_ok d -> 8 <= i -> Z.testbit d i = false.
Proof.
  intros H Hi. rewrite <- (Z.mod_small d (2 ^ 8)) by apply H.
  fold (byte_of d). rewrite testbit_byte_of.
  destruct (Z.ltb_spec i 8); [lia | reflexivity].
Qed.

Lemma word_ok_of_bits w :
  (forall i, 64 <= i -> Z.testbit w i = false) -> word_ok w.
Proof.
  intros H. assert (E : wrap64 w = w).
  { apply Z.bits_inj'. intros i Hi. rewrite testbit_wrap64.
    destruct (Z.ltb_spec i 64); [reflexivity|]. cbn. symmetry. apply H. lia. }
  rewrite <- E. apply wrap64_ok.
Qed.

Lemma land_ok x y : word_ok x -> word_ok y -> word_ok (Z.land x y).
Proof.
  intros Hx Hy. apply word_ok_of_bits. intros i Hi.
  now rewrite Z.land_spec, (testbit_word_high x) by assumption.
Qed.
Lemma lor_ok x y : word_ok x -> word_ok y -> word_ok (Z.lor x y).
Proof.
  intros Hx Hy. apply word_ok_of_bits. intros i Hi.
  now rewrite Z.lor_spec, (testbit_word_high x), (testbit_word_high y) by assumption.
Qed.
Lemma lxor_ok x y : word_ok x -> word_ok y -> word_ok (Z.lxor x y).
Proof.
  intros Hx Hy. apply word_ok_of_bits. intros i Hi.
  now rewrite Z.lxor_spec, (testbit_word_high x), (testbit_word_high y) by assumption.
Qed.

Lemma testbit_not64 x i :
  0 <= i -> Z.testbit (not64 x) i = (i <? 64) && negb (Z.testbit x i).
Proof.
  intros. unfold not64. rewrite testbit_wrap64, Z.lnot_spec by lia. reflexivity.
Qed.

Lemma not64_involutive w : word_ok w -> not64 (not64 w) = w.
Proof.
  intros H. apply Z.bits_inj'. intros i Hi.
  rewrite !testbit_not64 by lia.
  destruct (Z.ltb_spec i 64); cbn.
  - apply negb_involutive.
  - symmetry. apply testbit_word_high; [assumption | lia].
Qed.

Lemma land_not64 w : Z.land w (not64 w) = 0.
Proof.
  apply Z.bits_inj'. intros i Hi.
  rewrite Z.land_spec, testbit_not64, Z.bits_0 by lia.
  destruct (Z.testbit w i), (i <? 64); reflexivity.
Qed.

Lemma lor_not64 w : word_ok w -> Z.lor w (not64 w) = Z.ones 64.
Proof.
  intros H. apply Z.bits_inj'. intros i Hi.
  rewrite Z.lor_spec, testbit_not64, Z.testbit_ones by lia.
  destruct (Z.leb_spec 0 i); [|lia].
  destruct (Z.ltb_spec i 64); cbn.
  - destruct (Z.testbit w i); reflexivity.
  - rewrite testbit_word_high by (assumption || lia). reflexivity.
Qed.

Lemma shl64_one p : 0 <= p < 64 -> shl64 1 p = 2 ^ p.
Proof.
  intros Hp. unfold shl64, wrap64. rewrite Z.shiftl_1_l.
  apply Z.mod_small. split; [lia|]. apply Z.pow_lt_mono_r; lia.
Qed.

Lemma land1_testbit w p : 0 <= p -> (Z.land (Z.shiftr w p) 1 =? 1) = Z.testbit w p.
Proof.
  intros Hp. rewrite Z.testbit_odd.
  change 1 with (Z.ones 1) at 1. rewrite Z.land_ones by lia.
  change (2 ^ 1) with 2. rewrite Zodd_mod.
  reflexivity.
Qed.

(** ** Population count *)

(** [OnesCount64] adds up one bit at a time, so a bitwise identity between
    bits is an identity between counts. *)
Lemma bit_sum_incl_excl x y (l : list nat) :
  fold_right (fun i acc => Z.b2z (Z.testbit (Z.land x y) (Z.of_nat i)) + acc) 0 l
  + fold_right (fun i acc => Z.b2z (Z.testbit (Z.lor x y) (Z.of_nat i)) + acc) 0 l
  = fold_right (fun i acc => Z.b2z (Z.testbit x (Z.of_nat i)) + acc) 0 l
    + fold_right (fun i acc => Z.b2z (Z.testbit y (Z.of_nat i)) + acc) 0 l.
Proof.
  induction l as [|i l IH]; [reflexivity|]. cbn [fold_right].
  rewrite Z.land_spec, Z.lor_spec.
  destruct (Z.testbit x (Z.of_nat i)), (Z.testbit y (Z.of_nat i)); cbn; lia.
Qed.

Lemma bit_sum_xor x y (l : list nat) :
  fold_right (fun i acc => Z.b2z (Z.testbit (Z.lxor x y) (Z.of_nat i)) + acc) 0 l
  = fold_right (fun i acc => Z.b2z (Z.testbit (Z.lor x y) (Z.of_nat i)) + acc) 0 l
    - fold_right (fun i acc => Z.b2z (Z.testbit (Z.land x y) (Z.of_nat i)) + acc) 0 l.
Proof.
  induction l as [|i l IH]; [reflexivity|]. cbn [fold_right].
  rewrite Z.land_spec, Z.lor_spec, Z.lxor_spec.
  destruct (Z.testbit x (Z.of_nat i)), (Z.testbit y (Z.of_nat i)); cbn; lia.
Qed.

Lemma OnesCount64_incl_excl x y :
  OnesCount64 (Z.land x y) + OnesCount64 (Z.lor x y)
  = OnesCount64 x + OnesCount64 y.
Proof. apply bit_sum_incl_excl. Qed.

Lemma OnesCount64_xor x y :
  OnesCount64 (Z.lxor x y) = OnesCount64 (Z.lor x y) - OnesCount64 (Z.land x y).
Proof. apply bit_sum_xor. Qed.

Lemma OnesCount64_0 : OnesCount64 0 = 0.
Proof. reflexivity. Qed.

Lemma OnesCount64_ones : OnesCount64 (Z.ones 64) = 64.
Proof. vm_compute. reflexivity. Qed.

(** Over positions that hold [p] at most once, the bits of [2^p] add up to
    whether [p] is among them. *)
Lemma bit_sum_pow2 p (l : list nat) :
  0 <= p -> NoDup l ->
  fold_right (fun i acc => Z.b2z (Z.testbit (2 ^ p) (Z.of_nat i)) + acc) 0 l
  = Z.b2z (bool_decide (Z.to_nat p ∈ l)).
Proof.
  intros Hp. induction 1 as [|i l Hi Hl IH]; [reflexivity|].
  cbn [fold_right]. rewrite IH, Z.pow2_bits_eqb by lia.
  destruct (Z.eqb_spec p (Z.of_nat i)) as [->|Hne].
  - rewrite Nat2Z.id in *. rewrite (bool_decide_eq_false_2 (i ∈ l)) by assumption.
    rewrite bool_decide_eq_true_2 by apply list_elem_of_here. reflexivity.
  - rewrite Z.add_0_l. f_equal. apply bool_decide_ext. rewrite elem_of_cons.
    split; [tauto|]. intros [E|]; [|assumption]. lia.
Qed.

Lemma OnesCount64_pow2 p : 0 <= p < 64 -> OnesCount64 (2 ^ p) = 1.
Proof.
  intros Hp. unfold OnesCount64.
  rewrite bit_sum_pow2 by (lia || apply NoDup_seq).
  rewrite bool_decide_eq_true_2; [reflexivity|]. apply elem_of_seq. lia.
Qed.

(** The count of a word list, whatever the running total it starts from. *)
Lemma count_fold_shift (ws : list Z) (a : Z) :
  fold_left (fun count w => count + OnesCount64 w) ws a
  = a + fold_left (fun count w => count + OnesCount64 w) ws 0.
Proof.
  revert a. induction ws as [|w ws IH]; intros a; cbn [fold_left]; [lia|].
  rewrite (IH (a + OnesCount64 w)), (IH (0 + OnesCount64 w)). lia.
Qed.

Lemma CountOnes_cons w ws n k :
  CountOnes (mkBitSet (w :: ws) n k)
  = OnesCount64 w + CountOnes (mkBitSet ws n k).
Proof.
  unfold CountOnes. cbn [Words fold_left]. rewrite count_fold_shift. lia.
Qed.

Lemma CountOnes_replicate_0 (m : nat) n k :
  CountOnes (mkBitSet (replicate m 0) n k) = 0.
Proof.
  induction m as [|m IH]; [reflexivity|].
  cbn [replicate]. rewrite CountOnes_cons, IH. reflexivity.
Qed.

Lemma all_zero_replicate (m : nat) : all_zero (replicate m 0) = true.
Proof. induction m; [reflexivity | assumption]. Qed.

(** ** The constructors and the word-wise operations in closed form *)

Lemma NewBitSet_valid n :
  0 < n -> Z.rem n 64 = 0 ->
  NewBitSet n = Ok (mkBitSet (replicate (Z.to_nat (Z.quot n 64)) 0) n (Z.quot n 64)).
Proof.
  intros Hn Hr. unfold NewBitSet.
  rewrite (proj2 (bad_numBits_false n)) by tauto.
  destruct (aligned_words n Hn Hr) as (k & _ & _ & -> & _).
  rewrite make_nat, Nat2Z.id. reflexivity.
Qed.

Lemma NewBitSet_invalid n :
  ~ (0 < n /\ Z.rem n 64 = 0) -> NewBitSet n = Err (ErrNumBits n).
Proof.
  intros H. unfold NewBitSet. now rewrite (proj2 (bad_numBits_true n)).
Qed.

Lemma Forall_replicate_word_ok (m : nat) : Forall word_ok (replicate m 0).
Proof. apply Forall_replicate. unfold word_ok. lia. Qed.

Lemma NewBitSet_wf n b : NewBitSet n = Ok b -> wf b.
Proof.
  destruct (bad_numBits n) eqn:E.
  - unfold NewBitSet. rewrite E. discriminate.
  - apply bad_numBits_false in E as [Hn Hr].
    rewrite NewBitSet_valid by assumption. intros [= <-].
    destruct (aligned_words n Hn Hr) as (k & _ & _ & Hq & _).
    split; cbn; try assumption; try reflexivity.
    + unfold len. rewrite length_replicate, Hq. lia.
    + apply Forall_replicate_word_ok.
Qed.

Lemma make_len {A} (s : list A) : make (len s) = Ok (replicate (length s) 0).
Proof. apply make_nat. Qed.

Lemma wordwise_Ok f b o :
  NumBits b = NumBits o ->
  len (Words b) = numWords b -> len (Words o) = numWords b ->
  wordwise f b o
  = Ok (mkBitSet (zip_with f (Words b) (Words o)) (NumBits b) (numWords b)).
Proof.
  intros Hn Hb Ho. unfold wordwise, ensureSameSize.
  rewrite Hn, Z.eqb_refl. cbn [negb].
  assert (Hlen : length (zip_with f (Words b) (Words o)) = length (Words b)).
  { rewrite length_zip_with. unfold len in *. lia. }
  rewrite <- Hb, make_len. cbn.
  replace (len (Words b)) with (len (zip_with f (Words b) (Words o))) at 1
    by (unfold len; now rewrite Hlen).
  rewrite for_range_fill; [reflexivity| |now rewrite length_replicate].
  intros i x res Hx _.
  apply lookup_zip_with_Some in Hx as (x1 & x2 & -> & H1 & H2).
  now rewrite (index_lookup _ _ _ H1), (index_lookup _ _ _ H2).
Qed.

Lemma Not_Ok b :
  len (Words b) = numWords b ->
  Not b = Ok (mkBitSet (map not64 (Words b)) (NumBits b) (numWords b)).
Proof.
  intros Hb. unfold Not.
  rewrite <- Hb, make_len. cbn.
  replace (len (Words b)) with (len (map not64 (Words b))) at 1
    by (unfold len; now rewrite length_map).
  rewrite for_range_fill;
    [reflexivity| |now rewrite length_replicate, length_map].
  intros i x res Hx _.
  rewrite list_lookup_fmap in Hx.
  destruct (Words b !! i) as [w|] eqn:Hw; [|discriminate].
  injection Hx as <-. now rewrite (index_lookup _ _ _ Hw).
Qed.

Lemma Equals_loop_same b (k i0 : nat) :
  (i0 + k <= length (Words b))%nat ->
  Equals_loop k (Z.of_nat i0) b b = Ok true.
Proof.
  revert i0. induction k as [|k IH]; intros i0 Hk; [reflexivity|].
  destruct (lookup_lt_is_Some_2 (Words b) i0) as [x Hx]; [lia|].
  cbn [Equals_loop]. rewrite (index_lookup _ _ _ Hx). cbn.
  rewrite Z.eqb_refl. cbn.
  replace (Z.of_nat i0 + 1) with (Z.of_nat (S i0)) by lia.
  apply IH. lia.
Qed.

Lemma Equals_refl b : len (Words b) = numWords b -> Equals b b = Ok true.
Proof.
  intros Hb. unfold Equals. rewrite Z.eqb_refl. cbn.
  apply (Equals_loop_same b _ 0%nat). unfold len in Hb. lia.
Qed.

Lemma all_zero_Forall ws : Forall (fun w => w = 0) ws -> all_zero ws = true.
Proof. induction 1 as [|w ws -> _ IH]; [reflexivity | assumption]. Qed.

(** The word-wise operations keep the invariant. *)
Lemma wordwise_wf f a b :
  (forall x y, word_ok x -> word_ok y -> word_ok (f x y)) ->
  wf a -> wf b -> NumBits a = NumBits b ->
  wf (mkBitSet (zip_with f (Words a) (Words b)) (NumBits a) (numWords a)).
Proof.
  intros Hf Ha Hb Hn. pose proof Ha as [Hp Hal Hw Hl Hws].
  assert (Hlb : len (Words b) = numWords a).
  { rewrite (wf_len b Hb), (wf_numWords b Hb), Hw. congruence. }
  split; cbn [Words NumBits numWords]; try assumption.
  - unfold len in *. rewrite length_zip_with. lia.
  - apply Forall_lookup. intros i x Hx.
    apply lookup_zip_with_Some in Hx as (x1 & x2 & -> & H1 & H2).
    apply Hf.
    + exact (Forall_lookup_1 _ _ _ _ Hws H1).
    + exact (Forall_lookup_1 _ _ _ _ (wf_words b Hb) H2).
Qed.

Lemma Not_wf a :
  wf a -> wf (mkBitSet (map not64 (Words a)) (NumBits a) (numWords a)).
Proof.
  intros [Hp Hal Hw Hl Hws]. split; cbn [Words NumBits numWords]; try assumption.
  - unfold len in *. now rewrite length_map.
  - apply Forall_map, Forall_forall. intros x _. apply wrap64_ok.
Qed.

(** ** Reading and writing one bit *)

Lemma TestBit_valid b i :
  wf b -> 0 <= i < NumBits b ->
  TestBit b i = Ok (word_bit b (Z.quot i 64) (Z.rem i 64)).
Proof.
  intros Hwf Hi. unfold TestBit.
  rewrite (proj2 (bad_index_false b i)) by assumption.
  destruct (index_split b i Hwf Hi) as (Hk & Hp & _).
  destruct (index_in_range (Words b) _ Hk) as (w & Hw & Hl).
  rewrite Hw. cbn. rewrite land1_testbit by lia.
  unfold word_bit. now rewrite (nth_lookup_Some _ _ _ _ Hl).
Qed.

Lemma update_word_valid b k f :
  0 <= k < len (Words b) ->
  update_word b k f
  = (with_Words b (<[Z.to_nat k := f (nth (Z.to_nat k) (Words b) 0)]> (Words b)), Ok tt).
Proof.
  intros Hk. unfold update_word.
  destruct (index_in_range (Words b) _ Hk) as (w & Hw & Hl).
  rewrite Hw. cbn. rewrite store_in_range by assumption.
  now rewrite (nth_lookup_Some _ _ _ _ Hl).
Qed.

Lemma SetBit_valid b i :
  wf b -> 0 <= i < NumBits b ->
  SetBit b i
  = (with_Words b (<[Z.to_nat (Z.quot i 64) :=
        Z.lor (nth (Z.to_nat (Z.quot i 64)) (Words b) 0) (2 ^ Z.rem i 64)]> (Words b)),
     Ok tt).
Proof.
  intros Hwf Hi. unfold SetBit.
  rewrite (proj2 (bad_index_false b i)) by assumption.
  destruct (index_split b i Hwf Hi) as (Hk & Hp & _).
  rewrite update_word_valid by assumption. now rewrite shl64_one.
Qed.

Lemma ClearBit_valid b i :
  wf b -> 0 <= i < NumBits b ->
  ClearBit b i
  = (with_Words b (<[Z.to_nat (Z.quot i 64) :=
        Z.land (nth (Z.to_nat (Z.quot i 64)) (Words b) 0) (not64 (2 ^ Z.rem i 64))]>
        (Words b)),
     Ok tt).
Proof.
  intros Hwf Hi. unfold ClearBit.
  rewrite (proj2 (bad_index_false b i)) by assumption.
  destruct (index_split b i Hwf Hi) as (Hk & Hp & _).
  rewrite update_word_valid by assumption. now rewrite shl64_one.
Qed.

(** Writing a uint64 into a word keeps the invariant. *)
Lemma with_Words_insert_wf b (k : nat) w :
  wf b -> word_ok w -> wf (with_Words b (<[k := w]> (Words b))).
Proof.
  intros [Hp Ha Hw Hl Hws] Hok. split; cbn; try assumption.
  - unfold len in *. now rewrite length_insert.
  - apply Forall_insert; assumption.
Qed.

Lemma nth_word_ok b (k : nat) : wf b -> word_ok (nth k (Words b) 0).
Proof.
  intros Hwf. destruct (Words b !! k) as [w|] eqn:E.
  - rewrite (nth_lookup_Some _ _ _ _ E).
    eapply Forall_lookup_1; [apply Hwf | exact E].
  - rewrite nth_overflow by (now apply lookup_ge_None_1).
    unfold word_ok. lia.
Qed.

(** ** The hex codec *)

(** One iteration of [ToHex]'s loop writes the eight bytes of a word over
    eight zeros. *)
Lemma store8 (pre rest : list Z) (i : nat) w z0 z1 z2 z3 z4 z5 z6 z7 :
  length pre = (8 * i)%nat ->
  let buf := pre ++ z0 :: z1 :: z2 :: z3 :: z4 :: z5 :: z6 :: z7 :: rest in
  let offset := Z.of_nat i * 8 in
  (buf ← store buf offset (byte_of (Z.shiftr w 56));
   buf ← store buf (offset + 1) (byte_of (Z.shiftr w 48));
   buf ← store buf (offset + 2) (byte_of (Z.shiftr w 40));
   buf ← store buf (offset + 3) (byte_of (Z.shiftr w 32));
   buf ← store buf (offset + 4) (byte_of (Z.shiftr w 24));
   buf ← store buf (offset + 5) (byte_of (Z.shiftr w 16));
   buf ← store buf (offset + 6) (byte_of (Z.shiftr w 8));
   store buf (offset + 7) (byte_of w))
  = Ok (pre ++ bytes_of_word w ++ rest).
Proof.
  intros Hpre buf offset. subst buf offset.
  assert (Hst : forall (j : nat) l v, (j < 8)%nat -> length l = 8%nat ->
    store (pre ++ l ++ rest) (Z.of_nat i * 8 + Z.of_nat j) v
    = Ok (pre ++ <[j := v]> l ++ rest)).
  { intros j l v Hj Hl.
    replace (Z.of_nat i * 8 + Z.of_nat j) with (Z.of_nat (length pre + j)) by lia.
    rewrite store_nat by (rewrite !length_app; lia).
    rewrite insert_app_r, insert_app_l by lia. reflexivity. }
  change (pre ++ z0 :: z1 :: z2 :: z3 :: z4 :: z5 :: z6 :: z7 :: rest)
    with (pre ++ [z0; z1; z2; z3; z4; z5; z6; z7] ++ rest).
  replace (Z.of_nat i * 8) with (Z.of_nat i * 8 + Z.of_nat 0) at 1 by lia.
  rewrite Hst by (cbn; lia). cbn [mbind result_bind].
  rewrite (Hst 1%nat) by (cbn; lia). cbn [mbind result_bind].
  rewrite (Hst 2%nat) by (cbn; lia). cbn [mbind result_bind].
  rewrite (Hst 3%nat) by (cbn; lia). cbn [mbind result_bind].
  rewrite (Hst 4%nat) by (cbn; lia). cbn [mbind result_bind].
  rewrite (Hst 5%nat) by (cbn; lia). cbn [mbind result_bind].
  rewrite (Hst 6%nat) by (cbn; lia). cbn [mbind result_bind].
  rewrite (Hst 7%nat) by (cbn; lia). reflexivity.
Qed.

Lemma flat_map_bytes_length (ws : list Z) :
  length (flat_map bytes_of_word ws) = (8 * length ws)%nat.
Proof. induction ws as [|w ws IH]; [reflexivity|]. cbn. lia. Qed.

Lemma ToHex_Ok b :
  len (Words b) = numWords b ->
  ToHex b = Ok (hex_EncodeToString (flat_map bytes_of_word (Words b))).
Proof.
  intros Hb. unfold ToHex. rewrite <- Hb.
  set (ws := Words b). set (n := length ws).
  replace (len ws * 8) with (Z.of_nat (8 * n)) by (unfold len; lia).
  rewrite make_nat. cbn [mbind result_bind].
  unfold for_range, len. rewrite Nat2Z.id. fold n.
  match goal with |- context [for_loop n 0 ?body ?init] =>
    destruct (for_loop_inv
      (fun i buf => exists m : nat, i = Z.of_nat m /\ (m <= n)%nat /\
         buf = flat_map bytes_of_word (take m ws) ++ replicate (8 * (n - m)) 0)
      body n 0 init) as (buf & Hloop & (m & Hm & _ & Hbuf))
  end.
  - exists 0%nat. rewrite Nat.sub_0_r.
    split; [reflexivity|]. split; [lia|]. now rewrite take_0.
  - intros i buf Hi (m & -> & Hmn & ->).
    destruct (lookup_lt_is_Some_2 ws m) as [w Hw]; [fold n; lia|].
    rewrite (index_lookup _ _ _ Hw). cbn [mbind result_bind].
    replace (n - m)%nat with (S (n - S m)) by lia.
    replace (8 * S (n - S m))%nat with (8 + 8 * (n - S m))%nat by lia.
    rewrite replicate_add. cbn [replicate app].
    eexists. split.
    + apply store8. rewrite flat_map_bytes_length, length_take. fold n. lia.
    + exists (S m). split; [lia|]. split; [lia|].
      rewrite (take_S_r _ _ _ Hw), flat_map_app. cbn [flat_map].
      now rewrite app_nil_r, <- app_assoc.
  - rewrite Hloop. cbn [mbind result_bind]. f_equal. f_equal.
    assert (m = n) by lia. subst m. rewrite Hbuf, Nat.sub_diag, Nat.mul_0_r.
    cbn [replicate]. rewrite app_nil_r. unfold n. now rewrite firstn_all.
Qed.


Lemma words_of_bytes_lookup data (i : nat) x :
  words_of_bytes data !! i = Some x ->
  exists d0 d1 d2 d3 d4 d5 d6 d7,
    x = word_of_bytes d0 d1 d2 d3 d4 d5 d6 d7 /\
    forall j, (j < 8)%nat ->
      data !! (8 * i + j)%nat = [d0; d1; d2; d3; d4; d5; d6; d7] !! j.
Proof.
  revert data. induction i as [|i IH]; intros data H;
    destruct data as [|d0 [|d1 [|d2 [|d3 [|d4 [|d5 [|d6 [|d7 rest]]]]]]]];
    try discriminate.
  - injection H as <-. exists d0, d1, d2, d3, d4, d5, d6, d7.
    split; [reflexivity|]. intros j Hj.
    do 8 (destruct j as [|j]; [reflexivity|]). lia.
  - apply IH in H as (e0 & e1 & e2 & e3 & e4 & e5 & e6 & e7 & -> & H).
    exists e0, e1, e2, e3, e4, e5, e6, e7. split; [reflexivity|].
    intros j Hj. rewrite <- (H j Hj).
    replace (8 * S i + j)%nat with (8 + (8 * i + j))%nat by lia. reflexivity.
Qed.

Lemma words_of_bytes_length (k : nat) data :
  length data = (8 * k)%nat -> length (words_of_bytes data) = k.
Proof.
  revert data. induction k as [|k IH]; intros data H.
  - destruct data; [reflexivity | discriminate].
  - destruct data as [|d0 [|d1 [|d2 [|d3 [|d4 [|d5 [|d6 [|d7 rest]]]]]]]];
      try (cbn in H; lia).
    cbn [words_of_bytes length]. f_equal. apply IH. cbn in H. lia.
Qed.

(** The inner loop of [NewBitSetFromHex] packs the eight bytes at word [i]. *)
Lemma pack_loop data (i : nat) x :
  words_of_bytes data !! i = Some x ->
  for_range 8 (fun j w =>
      d ← index data (Z.of_nat i * 8 + j);
      Ok (Z.lor w (shl64 d ((7 - j) * 8)))) 0
  = Ok x.
Proof.
  intros H.
  apply words_of_bytes_lookup in H as (d0 & d1 & d2 & d3 & d4 & d5 & d6 & d7 & -> & H).
  assert (Hd : forall j : nat, (j < 8)%nat ->
    index data (Z.of_nat i * 8 + Z.of_nat j)
    = Ok (nth j [d0; d1; d2; d3; d4; d5; d6; d7] 0)).
  { intros j Hj. replace (Z.of_nat i * 8 + Z.of_nat j) with (Z.of_nat (8 * i + j)) by lia.
    apply index_lookup. rewrite (H j Hj).
    do 8 (destruct j as [|j]; [reflexivity|]). lia. }
  pose proof (Hd 0%nat ltac:(lia)) as H0. pose proof (Hd 1%nat ltac:(lia)) as H1.
  pose proof (Hd 2%nat ltac:(lia)) as H2. pose proof (Hd 3%nat ltac:(lia)) as H3.
  pose proof (Hd 4%nat ltac:(lia)) as H4. pose proof (Hd 5%nat ltac:(lia)) as H5.
  pose proof (Hd 6%nat ltac:(lia)) as H6. pose proof (Hd 7%nat ltac:(lia)) as H7.
  change (Z.of_nat 0) with 0 in H0. change (Z.of_nat 1) with 1 in H1.
  change (Z.of_nat 2) with 2 in H2. change (Z.of_nat 3) with 3 in H3.
  change (Z.of_nat 4) with 4 in H4. change (Z.of_nat 5) with 5 in H5.
  change (Z.of_nat 6) with 6 in H6. change (Z.of_nat 7) with 7 in H7.
  cbn [nth] in H0, H1, H2, H3, H4, H5, H6, H7.
  unfold for_range. change (Z.to_nat 8) with 8%nat. cbn [for_loop].
  change (0 + 1 + 1 + 1 + 1 + 1 + 1 + 1) with 7.
  change (0 + 1 + 1 + 1 + 1 + 1 + 1) with 6.
  change (0 + 1 + 1 + 1 + 1 + 1) with 5.
  change (0 + 1 + 1 + 1 + 1) with 4.
  change (0 + 1 + 1 + 1) with 3.
  change (0 + 1 + 1) with 2.
  change (0 + 1) with 1.
  rewrite H0, H1, H2, H3, H4, H5, H6, H7. reflexivity.
Qed.

Lemma NewBitSetFromHex_Ok n s data :
  0 < n -> Z.rem n 64 = 0 ->
  slen s = Z.quot n 4 ->
  hex_DecodeString s = (data, None) ->
  len data = Z.quot n 8 ->
  NewBitSetFromHex n s = Ok (mkBitSet (words_of_bytes data) n (Z.quot n 64)).
Proof.
  intros Hn Hr Hs Hdec Hdata. unfold NewBitSetFromHex.
  rewrite (proj2 (bad_numBits_false n)) by tauto.
  rewrite Hs, Z.eqb_refl, Hdec, Hdata, Z.eqb_refl. cbn [negb].
  destruct (aligned_words n Hn Hr) as (k & _ & _ & Hq & Hq8 & _).
  assert (Hlen : length (words_of_bytes data) = k).
  { apply words_of_bytes_length. unfold len in Hdata. lia. }
  rewrite Hq, make_nat. cbn [mbind result_bind].
  replace (Z.of_nat k) with (len (words_of_bytes data)) at 1
    by (unfold len; now rewrite Hlen).
  rewrite for_range_fill; [reflexivity| |now rewrite length_replicate].
  intros i x res Hx _. cbn zeta. now rewrite (pack_loop _ _ _ Hx).
Qed.

(** *** Digits and bytes *)

Lemma lower_hex_digit c :
  is_lower_hex c = true ->
  exists v, fromHexChar c = Some v /\ 0 <= v < 16 /\ hexdigit v = c.
Proof.
  destruct c as [[] [] [] [] [] [] [] []]; intros H; try discriminate H;
    eexists; (split; [reflexivity|]);
    (split; [vm_compute; intuition discriminate | reflexivity]).
Qed.

Lemma hexdigit_lower v : 0 <= v < 16 -> is_lower_hex (hexdigit v) = true.
Proof.
  intros Hv.
  assert (H : v = 0 \/ v = 1 \/ v = 2 \/ v = 3 \/ v = 4 \/ v = 5 \/ v = 6 \/ v = 7 \/
              v = 8 \/ v = 9 \/ v = 10 \/ v = 11 \/ v = 12 \/ v = 13 \/ v = 14 \/ v = 15)
    by lia.
  repeat (destruct H as [->|H]; [reflexivity|]). subst v. reflexivity.
Qed.

Lemma testbit_nibble_high v i : 0 <= v < 16 -> 4 <= i -> Z.testbit v i = false.
Proof.
  intros Hv Hi. rewrite <- (Z.mod_small v (2 ^ 4)) by (change (2 ^ 4) with 16; lia).
  rewrite Z.testbit_mod_pow2 by lia.
  destruct (Z.ltb_spec i 4); [lia | reflexivity].
Qed.

Lemma nibbles_high a b :
  0 <= a < 16 -> 0 <= b < 16 -> Z.shiftr (Z.lor (Z.shiftl a 4) b) 4 = a.
Proof.
  intros Ha Hb. apply Z.bits_inj'. intros i Hi.
  rewrite Z.shiftr_spec, Z.lor_spec, Z.shiftl_spec by lia.
  rewrite (testbit_nibble_high b) by lia.
  rewrite orb_false_r. f_equal. lia.
Qed.

Lemma nibbles_low a b :
  0 <= a < 16 -> 0 <= b < 16 -> Z.land (Z.lor (Z.shiftl a 4) b) 15 = b.
Proof.
  intros Ha Hb. apply Z.bits_inj'. intros i Hi.
  change 15 with (Z.ones 4).
  rewrite Z.land_spec, Z.lor_spec, Z.shiftl_spec, Z.testbit_ones by lia.
  destruct (Z.leb_spec 0 i); [|lia].
  destruct (Z.ltb_spec i 4); cbn.
  - rewrite (Z.testbit_neg_r a) by lia. cbn. apply andb_true_r.
  - rewrite (testbit_nibble_high b) by lia. apply andb_false_r.
Qed.

Lemma byte_ok_of_bits z :
  (forall i, 8 <= i -> Z.testbit z i = false) -> byte_ok z.
Proof.
  intros H. assert (E : byte_of z = z).
  { apply Z.bits_inj'. intros i Hi. rewrite testbit_byte_of.
    destruct (Z.ltb_spec i 8); [reflexivity|]. cbn. symmetry. apply H. lia. }
  rewrite <- E. apply byte_of_ok.
Qed.

Lemma nibbles_byte a b :
  0 <= a < 16 -> 0 <= b < 16 -> byte_ok (Z.lor (Z.shiftl a 4) b).
Proof.
  intros Ha Hb. apply byte_ok_of_bits. intros i Hi.
  rewrite Z.lor_spec, Z.shiftl_spec by lia.
  now rewrite !testbit_nibble_high by lia.
Qed.

Lemma byte_nibbles v :
  byte_ok v -> 0 <= Z.shiftr v 4 < 16 /\ 0 <= Z.land v 15 < 16.
Proof.
  unfold byte_ok. intros Hv. change (2 ^ 8) with 256 in Hv.
  rewrite Z.shiftr_div_pow2 by lia. change 15 with (Z.ones 4).
  rewrite Z.land_ones by lia. change (2 ^ 4) with 16.
  pose proof (Z.mod_pos_bound v 16). pose proof (Z.div_mod v 16).
  split; [|lia]. split; [apply Z.div_pos; lia | apply Z.div_lt_upper_bound; lia].
Qed.

(** *** Strings *)

(** Decoding a string of lowercase hex digits of even length succeeds, gives
    one byte per two characters, and encoding the bytes gives the string
    back. *)
Lemma hex_decode_encode (k : nat) s :
  String.length s = (2 * k)%nat -> all_lower_hex s = true ->
  exists data, hex_DecodeString s = (data, None) /\ Forall byte_ok data /\
    length data = k /\ hex_EncodeToString data = s.
Proof.
  revert s. induction k as [|k IH]; intros s Hlen Hhex.
  - destruct s; [|discriminate]. exists []. repeat split. constructor.
  - destruct s as [|p [|q s]]; try (cbn in Hlen; lia).
    cbn [all_lower_hex] in Hhex.
    apply andb_true_iff in Hhex as [Hp Hhex].
    apply andb_true_iff in Hhex as [Hq Hhex].
    destruct (lower_hex_digit p Hp) as (a & Ea & Ha & Da).
    destruct (lower_hex_digit q Hq) as (b & Eb & Hb & Db).
    destruct (IH s) as (data & Hdec & Hok & Hl & Henc);
      [cbn in Hlen; lia | assumption |].
    exists (Z.lor (Z.shiftl a 4) b :: data).
    cbn [hex_DecodeString]. rewrite Ea, Eb, Hdec.
    split; [reflexivity|]. split; [|split].
    + constructor; [now apply nibbles_byte | assumption].
    + cbn. now rewrite Hl.
    + cbn [hex_EncodeToString].
      now rewrite nibbles_high, nibbles_low, Da, Db, Henc by assumption.
Qed.

Lemma hex_encode_length (l : list Z) :
  String.length (hex_EncodeToString l) = (2 * length l)%nat.
Proof. induction l as [|v l IH]; [reflexivity|]. cbn. lia. Qed.

Lemma hex_encode_lower (l : list Z) :
  Forall byte_ok l -> all_lower_hex (hex_EncodeToString l) = true.
Proof.
  induction 1 as [|v l Hv _ IH]; [reflexivity|].
  destruct (byte_nibbles v Hv) as [Hh Hl].
  cbn [hex_EncodeToString all_lower_hex].
  now rewrite !hexdigit_lower, IH by assumption.
Qed.

Lemma bytes_of_word_ok w : Forall byte_ok (bytes_of_word w).
Proof. unfold bytes_of_word. repeat constructor; apply byte_of_ok. Qed.

Lemma flat_map_bytes_ok (ws : list Z) :
  Forall byte_ok (flat_map bytes_of_word ws).
Proof.
  induction ws as [|w ws IH]; [constructor|].
  cbn [flat_map]. apply Forall_app. split; [apply bytes_of_word_ok | assumption].
Qed.

(** *** Words and their bytes *)

Lemma testbit_shl64 d k i :
  0 <= i -> Z.testbit (shl64 d k) i = (i <? 64) && Z.testbit d (i - k).
Proof.
  intros Hi. unfold shl64. now rewrite testbit_wrap64, Z.shiftl_spec by lia.
Qed.

Lemma testbit_word_of_bytes d0 d1 d2 d3 d4 d5 d6 d7 i :
  0 <= i < 64 ->
  Z.testbit (word_of_bytes d0 d1 d2 d3 d4 d5 d6 d7) i
  = Z.testbit d0 (i - 56) || Z.testbit d1 (i - 48) || Z.testbit d2 (i - 40)
    || Z.testbit d3 (i - 32) || Z.testbit d4 (i - 24) || Z.testbit d5 (i - 16)
    || Z.testbit d6 (i - 8) || Z.testbit d7 (i - 0).
Proof.
  intros Hi. unfold word_of_bytes.
  rewrite !Z.lor_spec, !testbit_shl64, Z.bits_0 by lia.
  destruct (Z.ltb_spec i 64); [|lia]. reflexivity.
Qed.

(** Clears the bits read outside a byte, below bit 0 or from bit 8 on. *)
Ltac clear_outside_bits :=
  repeat match goal with
  | |- context [Z.testbit ?d ?e] =>
      first [ rewrite (Z.testbit_neg_r d e) by lia
            | rewrite (testbit_byte_high d e) by (assumption || lia) ]
  end.

Lemma byte_of_word_of_bytes d0 d1 d2 d3 d4 d5 d6 d7 (j : nat) :
  byte_ok d0 -> byte_ok d1 -> byte_ok d2 -> byte_ok d3 ->
  byte_ok d4 -> byte_ok d5 -> byte_ok d6 -> byte_ok d7 ->
  (j < 8)%nat ->
  byte_of (Z.shiftr (word_of_bytes d0 d1 d2 d3 d4 d5 d6 d7) (8 * (7 - Z.of_nat j)))
  = nth j [d0; d1; d2; d3; d4; d5; d6; d7] 0.
Proof.
  intros H0 H1 H2 H3 H4 H5 H6 H7 Hj.
  apply Z.bits_inj'. intros i Hi. rewrite testbit_byte_of.
  destruct (Z.ltb_spec i 8) as [Hlt|Hge]; cbn [andb].
  - rewrite Z.shiftr_spec, testbit_word_of_bytes by lia.
    do 8 (destruct j as [|j]; [
      cbn [nth]; clear_outside_bits;
      match goal with |- context [Z.testbit ?d ?e] => replace e with i by lia end;
      cbn [orb]; rewrite ?orb_false_r; reflexivity |]).
    lia.
  - symmetry. do 8 (destruct j as [|j]; [now apply testbit_byte_high|]). lia.
Qed.

Lemma bytes_of_word_of_bytes d0 d1 d2 d3 d4 d5 d6 d7 :
  byte_ok d0 -> byte_ok d1 -> byte_ok d2 -> byte_ok d3 ->
  byte_ok d4 -> byte_ok d5 -> byte_ok d6 -> byte_ok d7 ->
  bytes_of_word (word_of_bytes d0 d1 d2 d3 d4 d5 d6 d7)
  = [d0; d1; d2; d3; d4; d5; d6; d7].
Proof.
  intros H0 H1 H2 H3 H4 H5 H6 H7. unfold bytes_of_word.
  pose proof (byte_of_word_of_bytes d0 d1 d2 d3 d4 d5 d6 d7) as E.
  pose proof (E 0%nat H0 H1 H2 H3 H4 H5 H6 H7 ltac:(lia)) as E0.
  pose proof (E 1%nat H0 H1 H2 H3 H4 H5 H6 H7 ltac:(lia)) as E1.
  pose proof (E 2%nat H0 H1 H2 H3 H4 H5 H6 H7 ltac:(lia)) as E2.
  pose proof (E 3%nat H0 H1 H2 H3 H4 H5 H6 H7 ltac:(lia)) as E3.
  pose proof (E 4%nat H0 H1 H2 H3 H4 H5 H6 H7 ltac:(lia)) as E4.
  pose proof (E 5%nat H0 H1 H2 H3 H4 H5 H6 H7 ltac:(lia)) as E5.
  pose proof (E 6%nat H0 H1 H2 H3 H4 H5 H6 H7 ltac:(lia)) as E6.
  pose proof (E 7%nat H0 H1 H2 H3 H4 H5 H6 H7 ltac:(lia)) as E7.
  change (8 * (7 - Z.of_nat 0)) with 56 in E0.
  change (8 * (7 - Z.of_nat 1)) with 48 in E1.
  change (8 * (7 - Z.of_nat 2)) with 40 in E2.
  change (8 * (7 - Z.of_nat 3)) with 32 in E3.
  change (8 * (7 - Z.of_nat 4)) with 24 in E4.
  change (8 * (7 - Z.of_nat 5)) with 16 in E5.
  change (8 * (7 - Z.of_nat 6)) with 8 in E6.
  change (8 * (7 - Z.of_nat 7)) with 0 in E7. rewrite Z.shiftr_0_r in E7.
  cbn [nth] in *. now rewrite E0, E1, E2, E3, E4, E5, E6, E7.
Qed.

Lemma flat_map_words_of_bytes (k : nat) data :
  length data = (8 * k)%nat -> Forall byte_ok data ->
  flat_map bytes_of_word (words_of_bytes data) = data.
Proof.
  revert data. induction k as [|k IH]; intros data Hlen Hok.
  - destruct data; [reflexivity | discriminate].
  - destruct data as [|d0 [|d1 [|d2 [|d3 [|d4 [|d5 [|d6 [|d7 rest]]]]]]]];
      try (cbn in Hlen; lia).
    repeat match goal with H : Forall _ (_ :: _) |- _ =>
      apply Forall_cons in H as [? H] end.
    cbn [words_of_bytes flat_map].
    rewrite bytes_of_word_of_bytes by assumption.
    rewrite IH by (assumption || (cbn in Hlen; lia)). reflexivity.
Qed.

Lemma word_of_bytes_ok d0 d1 d2 d3 d4 d5 d6 d7 :
  word_ok (word_of_bytes d0 d1 d2 d3 d4 d5 d6 d7).
Proof.
  unfold word_of_bytes.
  repeat (apply lor_ok; [|apply wrap64_ok]). unfold word_ok. lia.
Qed.

Lemma words_of_bytes_ok data : Forall word_ok (words_of_bytes data).
Proof.
  remember (length data) as n eqn:Hn.
  revert data Hn. induction n as [n IH] using lt_wf_ind. intros data ->.
  destruct data as [|d0 [|d1 [|d2 [|d3 [|d4 [|d5 [|d6 [|d7 rest]]]]]]]];
    try constructor.
  - apply word_of_bytes_ok.
  - eapply IH; [|reflexivity]. cbn. lia.
Qed.

(** What [NewBitSetFromHex] builds satisfies the invariant. *)
Lemma NewBitSetFromHex_wf n data :
  0 < n -> Z.rem n 64 = 0 -> len data = Z.quot n 8 ->
  wf (mkBitSet (words_of_bytes data) n (Z.quot n 64)).
Proof.
  intros Hn Hr Hdata.
  destruct (aligned_words n Hn Hr) as (k & _ & _ & Hq & Hq8 & _).
  split; cbn; try assumption; try reflexivity.
  - unfold len in *. rewrite (words_of_bytes_length k); lia.
  - apply words_of_bytes_ok.
Qed.


(** ** Bits after a write *)

Lemma SetBit_wf b i : wf b -> wf (SetBit b i).1.
Proof.
  intros Hwf. destruct (bad_index b i) eqn:E.
  - unfold SetBit. now rewrite E.
  - apply bad_index_false in E. rewrite SetBit_valid by assumption. cbn [fst].
    destruct (index_split b i Hwf E) as (_ & Hp & _).
    apply with_Words_insert_wf; [assumption|].
    apply lor_ok; [now apply nth_word_ok|].
    rewrite <- shl64_one by lia. apply wrap64_ok.
Qed.

Lemma ClearBit_wf b i : wf b -> wf (ClearBit b i).1.
Proof.
  intros Hwf. destruct (bad_index b i) eqn:E.
  - unfold ClearBit. now rewrite E.
  - apply bad_index_false in E. rewrite ClearBit_valid by assumption. cbn [fst].
    apply with_Words_insert_wf; [assumption|].
    apply land_ok; [now apply nth_word_ok | apply wrap64_ok].
Qed.

(** Two valid indices are equal when they agree on word and position. *)
Lemma index_eq_split i j :
  0 <= i -> 0 <= j ->
  Z.quot j 64 = Z.quot i 64 -> Z.rem j 64 = Z.rem i 64 -> j = i.
Proof.
  intros Hi Hj Hq Hr.
  pose proof (Z.quot_rem' i 64). pose proof (Z.quot_rem' j 64). lia.
Qed.

Lemma nth_insert_Z (ws : list Z) (k k' : Z) w :
  0 <= k < len ws -> 0 <= k' ->
  nth (Z.to_nat k') (<[Z.to_nat k := w]> ws) 0
  = if k' =? k then w else nth (Z.to_nat k') ws 0.
Proof.
  unfold len. intros Hk Hk'. destruct (Z.eqb_spec k' k) as [->|Hne].
  - apply nth_lookup_Some. apply list_lookup_insert_eq. lia.
  - destruct (ws !! Z.to_nat k') as [x|] eqn:E.
    + rewrite (nth_lookup_Some _ _ _ _ E). apply nth_lookup_Some.
      rewrite list_lookup_insert_ne by lia. assumption.
    + apply lookup_ge_None_1 in E.
      rewrite !nth_overflow; [reflexivity | lia | rewrite length_insert; lia].
Qed.

Lemma TestBit_SetBit b i j :
  wf b -> 0 <= i < NumBits b -> 0 <= j < NumBits b ->
  TestBit (SetBit b i).1 j = if j =? i then Ok true else TestBit b j.
Proof.
  intros Hwf Hi Hj.
  rewrite TestBit_valid; [|now apply SetBit_wf|]; rewrite SetBit_valid by assumption;
    cbn [fst with_Words NumBits]; [|assumption].
  rewrite (TestBit_valid b j) by assumption.
  destruct (index_split b i Hwf Hi) as (Hki & Hpi & _).
  destruct (index_split b j Hwf Hj) as (Hkj & Hpj & _).
  unfold word_bit, with_Words. cbn [Words]. rewrite nth_insert_Z by lia.
  destruct (Z.eqb_spec (Z.quot j 64) (Z.quot i 64)) as [Ek|Ek].
  - rewrite Z.lor_spec, Z.pow2_bits_eqb, Ek by lia.
    destruct (Z.eqb_spec (Z.rem i 64) (Z.rem j 64)) as [Ep|Ep].
    + rewrite (index_eq_split i j) by lia. rewrite Z.eqb_refl.
      now rewrite orb_true_r.
    + destruct (Z.eqb_spec j i) as [->|_]; [congruence|].
      now rewrite orb_false_r.
  - destruct (Z.eqb_spec j i) as [->|_]; [congruence | reflexivity].
Qed.

Lemma TestBit_ClearBit b i j :
  wf b -> 0 <= i < NumBits b -> 0 <= j < NumBits b ->
  TestBit (ClearBit b i).1 j = if j =? i then Ok false else TestBit b j.
Proof.
  intros Hwf Hi Hj.
  rewrite TestBit_valid; [|now apply ClearBit_wf|]; rewrite ClearBit_valid by assumption;
    cbn [fst with_Words NumBits]; [|assumption].
  rewrite (TestBit_valid b j) by assumption.
  destruct (index_split b i Hwf Hi) as (Hki & Hpi & _).
  destruct (index_split b j Hwf Hj) as (Hkj & Hpj & _).
  unfold word_bit, with_Words. cbn [Words]. rewrite nth_insert_Z by lia.
  destruct (Z.eqb_spec (Z.quot j 64) (Z.quot i 64)) as [Ek|Ek].
  - rewrite Z.land_spec, testbit_not64, Z.pow2_bits_eqb, Ek by lia.
    destruct (Z.ltb_spec (Z.rem j 64) 64); [|lia]. cbn [andb].
    destruct (Z.eqb_spec (Z.rem i 64) (Z.rem j 64)) as [Ep|Ep].
    + rewrite (index_eq_split i j) by lia. rewrite Z.eqb_refl.
      now rewrite andb_false_r.
    + destruct (Z.eqb_spec j i) as [->|_]; [congruence|].
      now rewrite andb_true_r.
  - destruct (Z.eqb_spec j i) as [->|_]; [congruence | reflexivity].
Qed.

(** ** A vector and its complement *)

Lemma CountOnes_lor_not (ws : list Z) n k :
  Forall word_ok ws ->
  CountOnes (mkBitSet (zip_with Z.lor ws (map not64 ws)) n k) = 64 * len ws.
Proof.
  induction 1 as [|w ws Hw _ IH]; [reflexivity|].
  cbn [map zip_with]. rewrite CountOnes_cons, IH, lor_not64 by assumption.
  rewrite OnesCount64_ones. unfold len. cbn [length]. lia.
Qed.

Lemma land_not_zero (ws : list Z) :
  Forall (fun w => w = 0) (zip_with Z.land ws (map not64 ws)).
Proof.
  induction ws as [|w ws IH]; [constructor|].
  cbn [map zip_with]. constructor; [apply land_not64 | assumption].
Qed.

Lemma map_not64_involutive (ws : list Z) :
  Forall word_ok ws -> map not64 (map not64 ws) = ws.
Proof.
  induction 1 as [|w ws Hw _ IH]; [reflexivity|].
  cbn [map]. now rewrite not64_involutive, IH.
Qed.

(** ** Writes that do not succeed *)

Lemma update_word_atomic b k f :
  (update_word b k f).2 <> Ok tt -> (update_word b k f).1 = b.
Proof.
  unfold update_word.
  destruct (w ← index (Words b) k; store (Words b) k (f w)); cbn;
    [congruence | reflexivity | reflexivity].
Qed.

Lemma SetBit_atomic b i : (SetBit b i).2 <> Ok tt -> (SetBit b i).1 = b.
Proof.
  unfold SetBit. destruct (bad_index b i); [reflexivity|].
  apply update_word_atomic.
Qed.

Lemma ClearBit_atomic b i : (ClearBit b i).2 <> Ok tt -> (ClearBit b i).1 = b.
Proof.
  unfold ClearBit. destruct (bad_index b i); [reflexivity|].
  apply update_word_atomic.
Qed.

(** ** Entry: the binary operations *)

Lemma for_loop_no_Err {S} (body : Z -> S -> result S) :
  (forall i s e, body i s <> Err e) ->
  forall k i0 s e, for_loop k i0 body s <> Err e.
Proof.
  intros Hbody. induction k as [|k IH]; intros i0 s e; [discriminate|].
  cbn [for_loop]. destruct (body i0 s) as [s'|e'|p] eqn:E; cbn.
  - apply IH.
  - now apply Hbody in E.
  - discriminate.
Qed.

Lemma index_no_Err {A} (s : list A) i e : index s i <> Err e.
Proof. unfold index. destruct (if 0 <=? i then _ else _); discriminate. Qed.

Lemma store_no_Err {A} (s : list A) i v e : store s i v <> Err e.
Proof. unfold store. destruct (_ && _); discriminate. Qed.

(** With equal bit lengths the word-wise operations return no error value. *)
Lemma wordwise_no_Err f a b e :
  NumBits a = NumBits b -> wordwise f a b <> Err e.
Proof.
  intros Hn. unfold wordwise, ensureSameSize. rewrite Hn, Z.eqb_refl. cbn [negb].
  unfold make. destruct (numWords a <? 0); [discriminate|]. cbn [mbind result_bind].
  destruct (for_range _ _ _) as [r|e'|p] eqn:E; cbn; try discriminate.
  exfalso. revert E. apply for_loop_no_Err. intros i s e0.
  destruct (index (Words a) i) as [x|?|?] eqn:Ex; cbn;
    [|now apply index_no_Err in Ex | discriminate].
  destruct (index (Words b) i) as [y|?|?] eqn:Ey; cbn;
    [|now apply index_no_Err in Ey | discriminate].
  apply store_no_Err.
Qed.

Lemma check_field_differ f a b :
  NumBits a <> NumBits b ->
  check_field f (Some a) (Some b) = Err (ErrMismatched f (NumBits a) (NumBits b)).
Proof.
  intros H. unfold check_field. cbn.
  destruct (Z.eqb_spec (NumBits a) (NumBits b)); [contradiction | reflexivity].
Qed.

Lemma check_field_agree f a b :
  NumBits a = NumBits b -> check_field f (Some a) (Some b) = Ok tt.
Proof. intros H. unfold check_field. cbn. now rewrite H, Z.eqb_refl. Qed.

Lemma check_field_Ok_inv f x y u :
  check_field f x y = Ok u ->
  exists a b, x = Some a /\ y = Some b /\ NumBits a = NumBits b.
Proof.
  destruct x as [a|], y as [b|]; try discriminate. unfold check_field. cbn.
  destruct (Z.eqb_spec (NumBits a) (NumBits b)); [|discriminate].
  intros _. now exists a, b.
Qed.

Lemma check_field_Err_inv f x y e :
  check_field f x y = Err e -> exists n1 n2, e = ErrMismatched f n1 n2.
Proof.
  destruct x as [a|], y as [b|]; try discriminate. unfold check_field. cbn.
  destruct (negb _); [|discriminate]. intros [= <-]. now eexists _, _.
Qed.

Lemma apply_field_no_Err fld name f a b e :
  NumBits a = NumBits b ->
  apply_field fld name (wordwise f) (Some a) (Some b) <> Err e.
Proof.
  intros Hn. unfold apply_field. cbn.
  destruct (wordwise f a b) as [r|e'|p] eqn:E; try discriminate.
  now apply wordwise_no_Err in E.
Qed.

Lemma apply_field_Ok fld name f a b :
  NumBits a = NumBits b -> wf a -> wf b ->
  apply_field fld name (wordwise f) (Some a) (Some b)
  = Ok (mkBitSet (zip_with f (Words a) (Words b)) (NumBits a) (numWords a)).
Proof.
  intros Hn Ha Hb. unfold apply_field. cbn. rewrite wordwise_Ok; [reflexivity|..].
  - assumption.
  - apply Ha.
  - rewrite (wf_len b Hb), (wf_numWords b Hb), (wf_numWords a Ha). congruence.
Qed.

Lemma Entry_binop_meets_spec name f :
  entry_binop_spec name (wordwise f) (Entry_binop name (wordwise f)).
Proof.
  split; [|split].
  - intros x. split; [reflexivity | now destruct x].
  - intros d g n v d' g' n' v' e o. subst e o. unfold Entry_binop.
    cbn [Domain Group Name Value].
    split; [|split; [|split; [|split]]].
    + intros H. now rewrite (check_field_differ FDomain).
    + intros Hd H. rewrite (check_field_agree FDomain) by assumption.
      now rewrite (check_field_differ FGroup).
    + intros Hd Hg H. rewrite (check_field_agree FDomain) by assumption.
      rewrite (check_field_agree FGroup) by assumption.
      now rewrite (check_field_differ FName).
    + intros Hd Hg Hn H. rewrite (check_field_agree FDomain) by assumption.
      rewrite (check_field_agree FGroup) by assumption.
      rewrite (check_field_agree FName) by assumption.
      now rewrite (check_field_differ FValue).
    + intros Hd Hg Hn Hv Wd Wg Wn Wv Wd' Wg' Wn' Wv'.
      rewrite !check_field_agree by assumption.
      rewrite !apply_field_Ok by assumption.
      assert (Hw : forall a b, NumBits a = NumBits b -> wf a -> wf b ->
        wordwise f a b
        = Ok (mkBitSet (zip_with f (Words a) (Words b)) (NumBits a) (numWords a))).
      { intros a b H Ha Hb. apply wordwise_Ok; [assumption | apply Ha |].
        rewrite (wf_len b Hb), (wf_numWords b Hb), (wf_numWords a Ha). congruence. }
      do 4 eexists. rewrite !Hw by assumption. repeat split; reflexivity.
  - intros e o fld name' cause. unfold Entry_binop.
    destruct e as [e|], o as [o|]; try discriminate.
    destruct (check_field FDomain _ _) as [u|e1|p] eqn:E1; cbn [mbind result_bind];
      [|apply check_field_Err_inv in E1 as (? & ? & ->); discriminate | discriminate].
    destruct (check_field FGroup _ _) as [u2|e2|p] eqn:E2; cbn [mbind result_bind];
      [|apply check_field_Err_inv in E2 as (? & ? & ->); discriminate | discriminate].
    destruct (check_field FName _ _) as [u3|e3|p] eqn:E3; cbn [mbind result_bind];
      [|apply check_field_Err_inv in E3 as (? & ? & ->); discriminate | discriminate].
    destruct (check_field FValue _ _) as [u4|e4|p] eqn:E4; cbn [mbind result_bind];
      [|apply check_field_Err_inv in E4 as (? & ? & ->); discriminate | discriminate].
    apply check_field_Ok_inv in E1 as (d & d' & -> & -> & Hd).
    apply check_field_Ok_inv in E2 as (g & g' & -> & -> & Hg).
    apply check_field_Ok_inv in E3 as (n & n' & -> & -> & Hn).
    apply check_field_Ok_inv in E4 as (v & v' & -> & -> & Hv).
    destruct (apply_field FDomain _ _ _ _) as [rd|e1|p] eqn:E1; cbn [mbind result_bind];
      [|now apply apply_field_no_Err in E1 | discriminate].
    destruct (apply_field FGroup _ _ _ _) as [rg|e2|p] eqn:E2; cbn [mbind result_bind];
      [|now apply apply_field_no_Err in E2 | discriminate].
    destruct (apply_field FName _ _ _ _) as [rn|e3|p] eqn:E3; cbn [mbind result_bind];
      [|now apply apply_field_no_Err in E3 | discriminate].
    destruct (apply_field FValue _ _ _ _) as [rv|e4|p] eqn:E4; cbn [mbind result_bind];
      [|now apply apply_field_no_Err in E4 | discriminate].
    discriminate.
Qed.

(** ** The bit mapper *)

Lemma first_occurrences_elem (l : list string) x :
  x ∈ first_occurrences l <-> x ∈ l.
Proof.
  induction l as [|y l IH]; [reflexivity|].
  cbn [first_occurrences]. rewrite !elem_of_cons, list_elem_of_filter, IH.
  destruct (decide (x = y)); tauto.
Qed.

Lemma first_occurrences_NoDup (l : list string) : NoDup (first_occurrences l).
Proof.
  induction l as [|y l IH]; [constructor|].
  cbn [first_occurrences]. constructor.
  - rewrite list_elem_of_filter. tauto.
  - now apply NoDup_filter.
Qed.

(** The loop of [dedup], from any point it can reach: [seen] holds the
    elements of [unique]. *)
Lemma dedup_loop (input : list string) (seen : gset string) (unique : list string) :
  (forall x, x ∈ seen <-> x ∈ unique) ->
  (fold_left bitmapper.dedup_step input (seen, unique)).2
  = unique ++ filter (fun y => y ∉ unique) (first_occurrences input).
Proof.
  revert seen unique. induction input as [|v input IH]; intros seen unique Hseen.
  - cbn. now rewrite app_nil_r.
  - cbn [fold_left first_occurrences]. unfold bitmapper.dedup_step at 2. cbn [fst snd].
    destruct (decide (v ∈ seen)) as [Hin|Hout].
    + rewrite bool_decide_eq_true_2 by assumption. rewrite IH by assumption.
      rewrite filter_cons_False by (rewrite <- Hseen; tauto).
      f_equal. rewrite list_filter_filter. apply list_filter_iff.
      intros y. cbn beta. split; [|tauto]. intros Hy. split; [assumption|].
      intros ->. apply Hy. now apply Hseen.
    + rewrite bool_decide_eq_false_2 by assumption. rewrite IH.
      * rewrite filter_cons_True by (rewrite <- Hseen; assumption).
        rewrite <- app_assoc. cbn [app]. do 2 f_equal.
        rewrite list_filter_filter. apply list_filter_iff.
        intros y. cbn beta. rewrite not_elem_of_app, not_elem_of_cons.
        pose proof (not_elem_of_nil y). tauto.
      * intros x. rewrite elem_of_union, elem_of_singleton, elem_of_app, Hseen.
        rewrite elem_of_cons. pose proof (not_elem_of_nil x). tauto.
Qed.

Lemma dedup_first_occurrences (input : list string) :
  bitmapper.dedup input = first_occurrences input.
Proof.
  unfold bitmapper.dedup.
  rewrite dedup_loop by (intros x; rewrite elem_of_empty, elem_of_nil; tauto).
  cbn [app]. induction (first_occurrences input) as [|x l IH]; [reflexivity|].
  rewrite filter_cons_True by apply not_elem_of_nil. now rewrite IH.
Qed.

Lemma computeBitLength_spec (c : Z) :
  0 <= c -> smallest_multiple_of_64_geq c (bitmapper.computeBitLength c).
Proof.
  intros Hc. unfold bitmapper.computeBitLength, smallest_multiple_of_64_geq.
  pose proof (Z.quot_rem' c 64) as Hqr.
  pose proof (Z.rem_bound_pos c 64 Hc ltac:(lia)) as Hr.
  destruct (Z.leb_spec c 0) as [H0|H0].
  - split; [now exists 1|]. split; [lia|]. split; [lia|].
    intros m [z ->] Hm _. lia.
  - destruct (Z.eqb_spec (Z.rem c 64) 0) as [E|E].
    + split; [exists (Z.quot c 64); lia|]. split; [lia|]. split; [lia|].
      intros m _ _ Hm. lia.
    + split; [now eexists|]. split; [lia|]. split; [lia|].
      intros m [z ->] Hm Hcm. lia.
Qed.

Lemma computeBitLength_valid (c : Z) :
  0 <= c ->
  0 < bitmapper.computeBitLength c /\
  Z.rem (bitmapper.computeBitLength c) 64 = 0 /\
  c <= bitmapper.computeBitLength c.
Proof.
  intros Hc. destruct (computeBitLength_spec c Hc) as ([z Hz] & Hp & Hle & _).
  repeat split; try assumption. rewrite Hz. apply Z.rem_mul. lia.
Qed.

Lemma CountOnes_insert_zero (m k : nat) w n kk :
  (k < m)%nat ->
  CountOnes (mkBitSet (<[k := w]> (replicate m 0)) n kk) = OnesCount64 w.
Proof.
  revert k. induction m as [|m IH]; intros k Hk; [lia|].
  destruct k as [|k]; cbn [replicate]; cbn [insert list_insert];
    rewrite CountOnes_cons.
  - rewrite CountOnes_replicate_0. lia.
  - fold (@insert nat Z (list Z) _ k w (replicate m 0)).
    rewrite IH by lia. rewrite OnesCount64_0. lia.
Qed.

Lemma nth_replicate_0 (i n : nat) : nth i (replicate n 0) 0 = 0.
Proof.
  revert i. induction n as [|n IH]; intros [|i]; cbn; try reflexivity. apply IH.
Qed.

(** A fresh BitSet with one bit set is one-hot at that bit. *)
Lemma one_hot_fresh bitlen idx :
  0 < bitlen -> Z.rem bitlen 64 = 0 -> 0 <= idx < bitlen ->
  exists b0 b, NewBitSet bitlen = Ok b0 /\ SetBit b0 idx = (b, Ok tt) /\
               NumBits b = bitlen /\ one_hot b idx.
Proof.
  intros Hn Hr Hi.
  pose proof (NewBitSet_valid bitlen Hn Hr) as Hnew.
  pose proof (NewBitSet_wf _ _ Hnew) as Hwf0.
  set (b0 := mkBitSet (replicate (Z.to_nat (Z.quot bitlen 64)) 0) bitlen
               (Z.quot bitlen 64)) in *.
  assert (Hi0 : 0 <= idx < NumBits b0) by exact Hi.
  exists b0, (SetBit b0 idx).1.
  split; [assumption|]. split; [now rewrite SetBit_valid|].
  split; [now rewrite SetBit_valid|].
  split; [now apply SetBit_wf|]. split.
  - destruct (index_split b0 idx Hwf0 Hi0) as (Hk & Hp & _).
    rewrite SetBit_valid by assumption. cbn [fst]. unfold with_Words, b0 in *.
    cbn [Words NumBits numWords] in *. unfold len in Hk.
    rewrite length_replicate in Hk.
    rewrite CountOnes_insert_zero by lia.
    rewrite nth_replicate_0, Z.lor_0_l.
    now apply OnesCount64_pow2.
  - intros j Hj. assert (Hj0 : 0 <= j < NumBits b0).
    { now rewrite SetBit_valid in Hj. }
    rewrite TestBit_SetBit by assumption.
    destruct (Z.eqb_spec j idx); [reflexivity|].
    rewrite TestBit_valid by assumption. unfold word_bit, b0. cbn [Words].
    now rewrite nth_replicate_0, Z.bits_0.
Qed.

(** The loop of [assign]: it returns a map, which differs from the one it
    started with on the labels of the list only, and which maps a label
    that occurs once to the one-hot BitSet of its position. *)
Lemma assign_loop_spec bitlen (l : list string) :
  0 < bitlen -> Z.rem bitlen 64 = 0 ->
  forall (idx : nat) (m : gmap string (option BitSet)),
    Z.of_nat idx + len l <= bitlen ->
    exists m', bitmapper.assign_loop bitlen (Z.of_nat idx) l m = Ok m' /\
      dom m' = dom m ∪ list_to_set l /\
      (forall k, k ∉ l -> m' !! k = m !! k) /\
      (NoDup l -> forall (r : nat) val, l !! r = Some val ->
         exists b, m' !! val = Some (Some b) /\ NumBits b = bitlen /\
                   one_hot b (Z.of_nat (idx + r))).
Proof.
  intros Hn Hr. induction l as [|val l IH]; intros idx m Hlen.
  - exists m. split; [reflexivity|].
    split; [now rewrite list_to_set_nil, (right_id_L ∅ (∪))|].
    split; [reflexivity|]. intros _ r v Hv. discriminate.
  - unfold len in Hlen. cbn [length] in Hlen.
    destruct (one_hot_fresh bitlen (Z.of_nat idx) Hn Hr) as (b0 & b & H0 & H1 & Hnb & Hb);
      [lia|].
    cbn [bitmapper.assign_loop]. rewrite H0, H1.
    replace (Z.of_nat idx + 1) with (Z.of_nat (S idx)) by lia.
    destruct (IH (S idx) (<[val := Some b]> m)) as (m' & Hm' & Hdom & Hframe & Hhot);
      [unfold len; lia|].
    exists m'. split; [assumption|]. split; [|split].
    + rewrite Hdom, dom_insert_L, list_to_set_cons.
      apply set_eq. intros x. rewrite !elem_of_union. tauto.
    + intros k Hk. apply not_elem_of_cons in Hk as [Hne Hk].
      rewrite Hframe by assumption. now rewrite lookup_insert_ne.
    + intros Hnd r v Hv. apply NoDup_cons in Hnd as [Hval Hnd].
      destruct r as [|r].
      * injection Hv as <-. exists b.
        rewrite Nat.add_0_r. split; [|split; assumption].
        rewrite Hframe by assumption. apply lookup_insert_eq.
      * destruct (Hhot Hnd r v Hv) as (bv & ? & ? & ?). exists bv.
        now replace (idx + S r)%nat with (S idx + r)%nat by lia.
Qed.

Lemma assign_spec (input : list string) :
  exists m, bitmapper.assign (bitmapper.dedup input) = Ok m /\ one_hot_map input m.
Proof.
  pose proof (dedup_first_occurrences input) as Hd.
  pose proof (first_occurrences_NoDup input) as Hnd. rewrite <- Hd in Hnd.
  destruct (computeBitLength_valid (len (bitmapper.dedup input)) (len_nonneg _))
    as (Hp & Hr & Hle).
  destruct (assign_loop_spec _ (bitmapper.dedup input) Hp Hr 0%nat ∅)
    as (m & Hm & Hdom & _ & Hhot); [lia|].
  exists m. split; [exact Hm|]. unfold one_hot_map. cbn zeta.
  split; [assumption|]. split; [assumption|].
  split; [intros x; rewrite Hd; apply first_occurrences_elem|].
  split; [apply computeBitLength_spec, len_nonneg|].
  split; [|split].
  - rewrite <- size_dom, Hdom, dom_empty_L, (left_id_L ∅ (∪)).
    now apply size_list_to_set.
  - intros x. rewrite <- elem_of_dom, Hdom, Hd. 
    rewrite elem_of_union, elem_of_list_to_set, first_occurrences_elem.
    rewrite dom_empty_L, elem_of_empty. tauto.
  - intros r label Hl. exact (Hhot Hnd r label Hl).
Qed.

Lemma GenerateBitMaps_spec (domains groups names values : list string) :
  exists md mg mn mv,
    bitmapper.GenerateBitMaps domains groups names values = Ok (md, mg, mn, mv) /\
    one_hot_map domains md /\ one_hot_map groups mg /\
    one_hot_map names mn /\ one_hot_map values mv.
Proof.
  destruct (assign_spec domains) as (md & Hd & ?).
  destruct (assign_spec groups) as (mg & Hg & ?).
  destruct (assign_spec names) as (mn & Hn & ?).
  destruct (assign_spec values) as (mv & Hv & ?).
  exists md, mg, mn, mv. unfold bitmapper.GenerateBitMaps. cbn zeta.
  rewrite Hd, Hg, Hn, Hv. split; [reflexivity|]. tauto.
Qed.


(** ** The sample vectors satisfy the invariant *)

Lemma sample_a_wf : wf sample_a.
Proof.
  split; cbn; [lia | reflexivity | reflexivity | reflexivity |].
  repeat constructor; unfold word_ok; lia.
Qed.

Lemma sample_b_wf : wf sample_b.
Proof.
  split; cbn; [lia | reflexivity | reflexivity | reflexivity |].
  repeat constructor; unfold word_ok; lia.
Qed.

Lemma sample_c_wf : wf sample_c.
Proof.
  split; cbn; [lia | reflexivity | reflexivity | reflexivity |].
  repeat constructor; unfold word_ok; lia.
Qed.

(** ** The properties of the specification *)

(** C1. Hex round trip: for a bit length [n] that is a positive multiple of
    64 and a string [s] of [n/4] characters of [0-9a-f],
    [NewBitSetFromHex n s] succeeds, with bit length [n], and [ToHex] of the
    result is [s]; and [ToHex] of any BitSet that satisfies the type's
    invariant is a string of exactly [NumBits/4] characters of [0-9a-f]. *)
Theorem hex_round_trip :
  (forall n s,
      0 < n -> Z.rem n 64 = 0 ->
      slen s = Z.quot n 4 -> all_lower_hex s = true ->
      exists b, NewBitSetFromHex n s = Ok b /\ wf b /\ NumBits b = n /\
                ToHex b = Ok s) /\
  (forall b, wf b ->
      exists s, ToHex b = Ok s /\ slen s = Z.quot (NumBits b) 4 /\
                all_lower_hex s = true).
Proof.
  split.
  - intros n s Hn Hr Hs Hhex.
    destruct (aligned_words n Hn Hr) as (k & _ & _ & Hq & Hq8 & Hq4).
    destruct (hex_decode_encode (8 * k) s) as (data & Hdec & Hok & Hlen & Henc);
      [unfold slen in Hs; lia | assumption |].
    assert (Hdata : len data = Z.quot n 8) by (unfold len; lia).
    exists (mkBitSet (words_of_bytes data) n (Z.quot n 64)).
    split; [now apply NewBitSetFromHex_Ok|].
    split; [now apply NewBitSetFromHex_wf|].
    split; [reflexivity|].
    rewrite ToHex_Ok; cbn [Words numWords].
    + now rewrite (flat_map_words_of_bytes k), Henc.
    + unfold len. rewrite (words_of_bytes_length k); lia.
  - intros b Hwf. pose proof Hwf as [Hp Ha Hw Hl _].
    destruct (aligned_words _ Hp Ha) as (k & _ & _ & Hq & _ & Hq4).
    eexists. split; [now apply ToHex_Ok|].
    split; [|apply hex_encode_lower, flat_map_bytes_ok].
    unfold slen, len in *.
    rewrite hex_encode_length, flat_map_bytes_length. lia.
Qed.

Lemma hex_round_trip_witness :
  (exists b, NewBitSetFromHex 64 "0123456789abcdef" = Ok b /\ wf b /\
             NumBits b = 64 /\ ToHex b = Ok "0123456789abcdef") /\
  (exists s, ToHex sample_a = Ok s /\ slen s = Z.quot (NumBits sample_a) 4 /\
             all_lower_hex s = true).
Proof.
  split.
  - apply (proj1 hex_round_trip); [lia | reflexivity | reflexivity | reflexivity].
  - apply (proj2 hex_round_trip), sample_a_wf.
Defined.

(** C2. Indexing and codec: on a BitSet that satisfies the invariant, a valid
    index [i] reads, sets and clears bit [i%64] of word [i/64] (so bit 0 is
    the lowest bit of word 0); [ToHex] prints the words in order, word 0
    first, each as its eight bytes from the most significant down; and a
    fresh 128-bit BitSet after [SetBit(0)] prints as sixteen digits ending in
    1 followed by sixteen zeros. *)
Theorem indexing_codec_pairing :
  (forall b i, wf b -> 0 <= i < NumBits b ->
      let k := Z.quot i 64 in
      let p := Z.rem i 64 in
      let w := nth (Z.to_nat k) (Words b) 0 in
      0 <= k < len (Words b) /\ 0 <= p < 64 /\
      TestBit b i = Ok (Z.testbit w p) /\
      SetBit b i
      = (with_Words b (<[Z.to_nat k := Z.lor w (2 ^ p)]> (Words b)), Ok tt) /\
      ClearBit b i
      = (with_Words b (<[Z.to_nat k := Z.land w (not64 (2 ^ p))]> (Words b)), Ok tt)) /\
  (forall b, wf b ->
      TestBit b 0 = Ok (Z.odd (nth 0 (Words b) 0)) /\
      ToHex b = Ok (hex_EncodeToString (flat_map bytes_of_word (Words b)))) /\
  (exists b, NewBitSet 128 = Ok b /\ (SetBit b 0).2 = Ok tt /\
      ToHex (SetBit b 0).1 = Ok "00000000000000010000000000000000").
Proof.
  split; [|split].
  - intros b i Hwf Hi k p w.
    destruct (index_split b i Hwf Hi) as (Hk & Hp & _).
    split; [assumption|]. split; [assumption|].
    split; [now apply TestBit_valid|].
    split; [now apply SetBit_valid | now apply ClearBit_valid].
  - intros b Hwf. split; [|apply ToHex_Ok, Hwf].
    rewrite TestBit_valid by (assumption || (pose proof (wf_pos b Hwf); lia)).
    unfold word_bit. now rewrite Z.bit0_odd.
  - eexists. repeat split; reflexivity.
Qed.

Lemma indexing_codec_pairing_witness :
  (0 <= Z.quot 127 64 < len (Words sample_a) /\ 0 <= Z.rem 127 64 < 64 /\
   TestBit sample_a 127 = Ok true /\
   SetBit sample_a 127 = (sample_a, Ok tt) /\
   ClearBit sample_a 127 = (mkBitSet [5; 0] 128 2, Ok tt)) /\
  (TestBit sample_a 0 = Ok true /\
   ToHex sample_a = Ok "00000000000000058000000000000000").
Proof.
  split.
  - apply (proj1 indexing_codec_pairing sample_a 127 sample_a_wf). cbn. lia.
  - apply (proj1 (proj2 indexing_codec_pairing) sample_a sample_a_wf).
Defined.

(** C3. One-hot assignment: for any four input sequences [GenerateBitMaps]
    returns four maps and no error; each map has exactly one entry per
    distinct label of its sequence, and the label of rank [r] in order of
    first occurrence is mapped to a BitSet with bit [r] set and no other
    ([CountOnes] 1), all of the bit length [computeBitLength] gives for the
    number of distinct labels: the smallest positive multiple of 64 that is
    at least that number, 64 for no label. For a, b, c, a, b the map is
    a -> bit 0, b -> bit 1, c -> bit 2 on 64 bits, and an empty sequence
    gives the empty map. *)
Theorem one_hot_assignment :
  (forall domains groups names values,
     exists md mg mn mv,
       bitmapper.GenerateBitMaps domains groups names values = Ok (md, mg, mn, mv) /\
       one_hot_map domains md /\ one_hot_map groups mg /\
       one_hot_map names mn /\ one_hot_map values mv) /\
  bitmapper.computeBitLength 0 = 64 /\
  bitmapper.dedup ["a"; "b"; "c"; "a"; "b"] = ["a"; "b"; "c"] /\
  bitmapper.GenerateBitMaps ["a"; "b"; "c"; "a"; "b"] [] [] []
  = Ok (<["a" := Some (mkBitSet [1] 64 1)]>
          (<["b" := Some (mkBitSet [2] 64 1)]>
             (<["c" := Some (mkBitSet [4] 64 1)]> ∅)), ∅, ∅, ∅) /\
  map CountOnes [mkBitSet [1] 64 1; mkBitSet [2] 64 1; mkBitSet [4] 64 1]
  = [1; 1; 1] /\
  [TestBit (mkBitSet [1] 64 1) 0; TestBit (mkBitSet [2] 64 1) 1;
   TestBit (mkBitSet [4] 64 1) 2] = [Ok true; Ok true; Ok true].
Proof.
  split; [exact GenerateBitMaps_spec|].
  repeat split; vm_compute; reflexivity.
Qed.

(** C4. Inclusion and exclusion of population counts: for two BitSets of
    equal bit length that satisfy the invariant, [And], [Or] and [Xor]
    succeed, the counts of [And] and [Or] add up to the counts of the
    operands, and the count of [Xor] is the count of [Or] minus that of
    [And]. *)
Theorem count_inclusion_exclusion a b :
  wf a -> wf b -> NumBits a = NumBits b ->
  exists x y z,
    And a b = Ok x /\ Or a b = Ok y /\ Xor a b = Ok z /\
    wf x /\ wf y /\ wf z /\
    CountOnes x + CountOnes y = CountOnes a + CountOnes b /\
    CountOnes z = CountOnes y - CountOnes x.
Proof.
  intros Ha Hb Hn.
  assert (Hla : len (Words a) = numWords a) by apply Ha.
  assert (Hlb : len (Words b) = numWords a).
  { rewrite (wf_len b Hb), (wf_numWords b Hb), (wf_numWords a Ha). congruence. }
  unfold And, Or, Xor. rewrite !wordwise_Ok by assumption.
  do 3 eexists. do 3 (split; [reflexivity|]).
  split; [apply wordwise_wf; auto using land_ok|].
  split; [apply wordwise_wf; auto using lor_ok|].
  split; [apply wordwise_wf; auto using lxor_ok|].
  assert (Hlen : length (Words a) = length (Words b)) by (unfold len in *; lia).
  destruct a as [wa na ka], b as [wb nb kb]. cbn [Words numWords NumBits] in *.
  clear -Hlen. revert wb Hlen.
  induction wa as [|x wa IH]; intros [|y wb] Hlen; try discriminate.
  - split; reflexivity.
  - cbn [zip_with]. rewrite !CountOnes_cons.
    destruct (IH wb) as [H1 H2]; [cbn in Hlen; lia|].
    pose proof (OnesCount64_incl_excl x y). pose proof (OnesCount64_xor x y).
    split; lia.
Qed.

Lemma count_inclusion_exclusion_witness :
  exists x y z,
    And sample_a sample_b = Ok x /\ Or sample_a sample_b = Ok y /\
    Xor sample_a sample_b = Ok z /\ wf x /\ wf y /\ wf z /\
    CountOnes x + CountOnes y = CountOnes sample_a + CountOnes sample_b /\
    CountOnes z = CountOnes y - CountOnes x.
Proof.
  apply count_inclusion_exclusion;
    [apply sample_a_wf | apply sample_b_wf | reflexivity].
Defined.

(** C5. Complement laws: for a BitSet [a] that satisfies the invariant,
    [a.Not().Not().Equals(a)] is true, [a.And(a.Not()).IsZero()] is true, and
    [a.Or(a.Not()).CountOnes()] is the bit length. *)
Theorem complement_laws a :
  wf a ->
  exists n nn x y,
    Not a = Ok n /\ wf n /\ Not n = Ok nn /\ Equals nn a = Ok true /\
    And a n = Ok x /\ IsZero x = true /\
    Or a n = Ok y /\ CountOnes y = NumBits a.
Proof.
  intros Ha. pose proof Ha as [Hp Hal Hw Hl Hws].
  assert (Hln : len (map not64 (Words a)) = numWords a)
    by (unfold len in *; now rewrite length_map).
  exists (mkBitSet (map not64 (Words a)) (NumBits a) (numWords a)).
  exists a, (mkBitSet (zip_with Z.land (Words a) (map not64 (Words a)))
               (NumBits a) (numWords a)).
  exists (mkBitSet (zip_with Z.lor (Words a) (map not64 (Words a)))
            (NumBits a) (numWords a)).
  split; [now apply Not_Ok|]. split; [now apply Not_wf|].
  split. { rewrite Not_Ok by assumption. cbn [Words NumBits numWords].
           rewrite map_not64_involutive by assumption. now destruct a. }
  split; [now apply Equals_refl|].
  split. { unfold And. now rewrite wordwise_Ok. }
  split. { apply all_zero_Forall, land_not_zero. }
  split. { unfold Or. now rewrite wordwise_Ok. }
  rewrite CountOnes_lor_not by assumption.
  destruct (aligned_words _ Hp Hal) as (k & _ & Hn & Hq & _). lia.
Qed.

Lemma complement_laws_witness :
  exists n nn x y,
    Not sample_a = Ok n /\ wf n /\ Not n = Ok nn /\
    Equals nn sample_a = Ok true /\
    And sample_a n = Ok x /\ IsZero x = true /\
    Or sample_a n = Ok y /\ CountOnes y = NumBits sample_a.
Proof. apply complement_laws, sample_a_wf. Defined.

(** C6. The constructor: [NewBitSet] succeeds on the positive multiples of
    64 whose words, 8 bytes each, are within the runtime's limit on one
    allocation, with a BitSet of that length that satisfies the invariant
    and has every bit zero ([IsZero] true, [CountOnes] 0); on any length
    that is not a positive multiple of 64, 0, 1, 63, 65, -64 and 100 among
    them, it returns the invalid-length error. *)
Theorem constructor_raises_iff n :
  (0 < n /\ Z.rem n 64 = 0 -> Z.quot n 64 * 8 <= maxAlloc ->
     exists b, NewBitSet n = Ok b /\ wf b /\ NumBits b = n /\
               IsZero b = true /\ CountOnes b = 0) /\
  (~ (0 < n /\ Z.rem n 64 = 0) -> NewBitSet n = Err (ErrNumBits n)) /\
  map NewBitSet [0; 1; 63; 65; -64; 100]
  = map (fun m => Err (ErrNumBits m)) [0; 1; 63; 65; -64; 100].
Proof.
  split; [|split; [apply NewBitSet_invalid | reflexivity]].
  intros [Hn Hr] _. eexists. split; [now apply NewBitSet_valid|].
  split; [apply (NewBitSet_wf n); now apply NewBitSet_valid|].
  split; [reflexivity|].
  split; [apply all_zero_replicate | apply CountOnes_replicate_0].
Qed.

Lemma constructor_raises_iff_witness :
  (exists b, NewBitSet 192 = Ok b /\ wf b /\ NumBits b = 192 /\
             IsZero b = true /\ CountOnes b = 0) /\
  NewBitSet (-64) = Err (ErrNumBits (-64)).
Proof.
  split.
  - apply (proj1 (constructor_raises_iff 192)).
    + split; [lia | reflexivity].
    + vm_compute. discriminate.
  - apply (proj1 (proj2 (constructor_raises_iff (-64)))). lia.
Defined.

(** C7. Index errors and atomicity: [SetBit], [ClearBit] and [TestBit] return
    the index-out-of-range error when [i < 0] or [i >= NumBits], whatever the
    BitSet, and [SetBit] and [ClearBit] then leave it as it was; on a BitSet
    that satisfies the invariant they succeed on every other index; and a
    [SetBit] or [ClearBit] that does not succeed never changes its
    receiver. *)
Theorem bit_index_raises_iff b i :
  (i < 0 \/ i >= NumBits b ->
     SetBit b i = (b, Err (ErrBitIndex OpSetBit i (NumBits b))) /\
     ClearBit b i = (b, Err (ErrBitIndex OpClearBit i (NumBits b))) /\
     TestBit b i = Err (ErrBitIndex OpTestBit i (NumBits b))) /\
  (wf b -> 0 <= i < NumBits b ->
     (SetBit b i).2 = Ok tt /\ (ClearBit b i).2 = Ok tt /\
     exists v, TestBit b i = Ok v) /\
  ((SetBit b i).2 <> Ok tt -> (SetBit b i).1 = b) /\
  ((ClearBit b i).2 <> Ok tt -> (ClearBit b i).1 = b).
Proof.
  split; [|split; [|split; [apply SetBit_atomic | apply ClearBit_atomic]]].
  - intros Hi. apply bad_index_true in Hi.
    unfold SetBit, ClearBit, TestBit. now rewrite Hi.
  - intros Hwf Hi.
    rewrite SetBit_valid, ClearBit_valid, TestBit_valid by assumption.
    split; [reflexivity|]. split; [reflexivity|]. now eexists.
Qed.

Lemma bit_index_raises_iff_witness :
  (SetBit sample_a 128 = (sample_a, Err (ErrBitIndex OpSetBit 128 128)) /\
   ClearBit sample_a 128 = (sample_a, Err (ErrBitIndex OpClearBit 128 128)) /\
   TestBit sample_a 128 = Err (ErrBitIndex OpTestBit 128 128)) /\
  (SetBit sample_a (-1) = (sample_a, Err (ErrBitIndex OpSetBit (-1) 128)) /\
   ClearBit sample_a (-1) = (sample_a, Err (ErrBitIndex OpClearBit (-1) 128)) /\
   TestBit sample_a (-1) = Err (ErrBitIndex OpTestBit (-1) 128)) /\
  ((SetBit sample_a 127).2 = Ok tt /\ (ClearBit sample_a 127).2 = Ok tt /\
   exists v, TestBit sample_a 127 = Ok v) /\
  (SetBit sample_a 500).1 = sample_a /\
  (ClearBit sample_a 500).1 = sample_a.
Proof.
  split; [|split; [|split; [|split]]].
  - apply (proj1 (bit_index_raises_iff sample_a 128)). cbn. lia.
  - apply (proj1 (bit_index_raises_iff sample_a (-1))). cbn. lia.
  - apply (proj1 (proj2 (bit_index_raises_iff sample_a 127)));
      [apply sample_a_wf | cbn; lia].
  - apply (proj1 (proj2 (proj2 (bit_index_raises_iff sample_a 500)))).
    cbn. discriminate.
  - apply (proj2 (proj2 (proj2 (bit_index_raises_iff sample_a 500)))).
    cbn. discriminate.
Defined.

(** C8. Postcondition and frame of a write: on a BitSet that satisfies the
    invariant and a valid index [i], [SetBit] and [ClearBit] succeed; after
    [SetBit(i)] [TestBit(i)] is true and after [ClearBit(i)] it is false;
    every other valid index tests as before the call; and the bit length,
    with the invariant, is kept. *)
Theorem mutation_postcondition_frame b i :
  wf b -> 0 <= i < NumBits b ->
  (SetBit b i).2 = Ok tt /\ (ClearBit b i).2 = Ok tt /\
  TestBit (SetBit b i).1 i = Ok true /\
  TestBit (ClearBit b i).1 i = Ok false /\
  (forall j, 0 <= j < NumBits b -> j <> i ->
     TestBit (SetBit b i).1 j = TestBit b j /\
     TestBit (ClearBit b i).1 j = TestBit b j) /\
  NumBits (SetBit b i).1 = NumBits b /\ NumBits (ClearBit b i).1 = NumBits b /\
  wf (SetBit b i).1 /\ wf (ClearBit b i).1.
Proof.
  intros Hwf Hi.
  split; [now rewrite SetBit_valid|]. split; [now rewrite ClearBit_valid|].
  split; [now rewrite TestBit_SetBit, Z.eqb_refl|].
  split; [now rewrite TestBit_ClearBit, Z.eqb_refl|].
  split.
  { intros j Hj Hne. rewrite TestBit_SetBit, TestBit_ClearBit by assumption.
    destruct (Z.eqb_spec j i); [contradiction | split; reflexivity]. }
  split; [now rewrite SetBit_valid|]. split; [now rewrite ClearBit_valid|].
  split; [now apply SetBit_wf | now apply ClearBit_wf].
Qed.

Lemma mutation_postcondition_frame_witness :
  (SetBit sample_b 70).2 = Ok tt /\ (ClearBit sample_b 70).2 = Ok tt /\
  TestBit (SetBit sample_b 70).1 70 = Ok true /\
  TestBit (ClearBit sample_b 70).1 70 = Ok false /\
  (forall j, 0 <= j < NumBits sample_b -> j <> 70 ->
     TestBit (SetBit sample_b 70).1 j = TestBit sample_b j /\
     TestBit (ClearBit sample_b 70).1 j = TestBit sample_b j) /\
  NumBits (SetBit sample_b 70).1 = NumBits sample_b /\
  NumBits (ClearBit sample_b 70).1 = NumBits sample_b /\
  wf (SetBit sample_b 70).1 /\ wf (ClearBit sample_b 70).1.
Proof.
  apply mutation_postcondition_frame; [apply sample_b_wf | cbn; lia].
Defined.

(** C9. The binary operations of [Entry]: each of [And], [Or] and [Xor]
    returns the nil-Entry error when an operand is absent; returns the
    mismatch error naming the first slot (domain, group, name, value) whose
    bit lengths differ, before any BitSet operation is applied and so never
    the wrapped error of one; and when the four lengths agree returns the
    Entry of the four slot-wise results of the BitSet operation. *)
Theorem entry_binary_operations :
  entry_binop_spec AND And Entry_And /\
  entry_binop_spec OR Or Entry_Or /\
  entry_binop_spec XOR Xor Entry_Xor.
Proof. repeat split; apply Entry_binop_meets_spec. Qed.

Lemma entry_binary_operations_witness :
  Entry_And
    (Some (mkEntry (Some sample_a) (Some sample_a) (Some sample_a) (Some sample_a)))
    (Some (mkEntry (Some sample_b) (Some sample_b) (Some sample_b) (Some sample_c)))
  = Err (ErrMismatched FValue 128 64) /\
  exists rd rg rn rv,
    Xor sample_a sample_b = Ok rd /\ Xor sample_b sample_a = Ok rg /\
    Xor sample_c sample_c = Ok rn /\ Xor sample_a sample_a = Ok rv /\
    Entry_Xor
      (Some (mkEntry (Some sample_a) (Some sample_b) (Some sample_c) (Some sample_a)))
      (Some (mkEntry (Some sample_b) (Some sample_a) (Some sample_c) (Some sample_a)))
    = Ok (mkEntry (Some rd) (Some rg) (Some rn) (Some rv)).
Proof.
  split.
  - apply (proj1 (proj2 (proj2 (proj2
      (proj1 (proj2 (proj1 entry_binary_operations))
         sample_a sample_a sample_a sample_a sample_b sample_b sample_b sample_c)))));
      cbn; congruence.
  - apply (proj2 (proj2 (proj2 (proj2
      (proj1 (proj2 (proj2 (proj2 entry_binary_operations)))
         sample_a sample_b sample_c sample_a sample_b sample_a sample_c sample_a)))));
      first [reflexivity | apply sample_a_wf | apply sample_b_wf | apply sample_c_wf].
Defined.

(** C10 as the specification states it does not hold: with the maps of
    [GenerateBitMaps], a domain key and a group key that are both absent
    give the error of the domain key alone; the group lookup would miss too,
    and is neither made nor reported. *)
Lemma lookup_entry_reports_first_miss_only :
  sample_domainMap !! "missing" = None /\
  sample_groupMap !! "absent" = None /\
  bitmapper.NewEntry "missing" "absent" "n1" "v1"
    sample_domainMap sample_groupMap sample_nameMap sample_valueMap
  = Err (ErrKeyNotFound FDomain "missing") /\
  bitmapper.NewEntry "missing" "absent" "n1" "v1"
    sample_domainMap sample_groupMap sample_nameMap sample_valueMap
  <> Err (ErrKeyNotFound FGroup "absent").
Proof. repeat split; [vm_compute; reflexivity .. | discriminate]. Qed.

(** C10, amended. Entry lookup: [NewEntry] looks the four keys up in the
    order domain, group, name, value and returns at the first miss the
    key-not-found error naming that category and its key, the later lookups
    not being made; when the four keys are present it returns the Entry of
    the four values found. *)
Theorem lookup_entry_first_miss dk gk nk vk
    (md mg mn mv : gmap string (option BitSet)) :
  let r := bitmapper.NewEntry dk gk nk vk md mg mn mv in
  (md !! dk = None -> r = Err (ErrKeyNotFound FDomain dk)) /\
  (is_Some (md !! dk) -> mg !! gk = None ->
     r = Err (ErrKeyNotFound FGroup gk)) /\
  (is_Some (md !! dk) -> is_Some (mg !! gk) -> mn !! nk = None ->
     r = Err (ErrKeyNotFound FName nk)) /\
  (is_Some (md !! dk) -> is_Some (mg !! gk) -> is_Some (mn !! nk) ->
   mv !! vk = None ->
     r = Err (ErrKeyNotFound FValue vk)) /\
  (forall d g n v,
     md !! dk = Some d -> mg !! gk = Some g ->
     mn !! nk = Some n -> mv !! vk = Some v ->
     r = Ok (bitmapper.mkEntry d g n v)).
Proof.
  intros r. subst r. unfold bitmapper.NewEntry.
  split; [|split; [|split; [|split]]].
  - now intros ->.
  - now intros [d ->] ->.
  - now intros [d ->] [g ->] ->.
  - now intros [d ->] [g ->] [n ->] ->.
  - now intros d g n v -> -> -> ->.
Qed.

Lemma lookup_entry_first_miss_witness :
  bitmapper.NewEntry "d1" "absent" "n1" "v1"
    sample_domainMap sample_groupMap sample_nameMap sample_valueMap
  = Err (ErrKeyNotFound FGroup "absent") /\
  bitmapper.NewEntry "d2" "g1" "n3" "v1"
    sample_domainMap sample_groupMap sample_nameMap sample_valueMap
  = Ok (bitmapper.mkEntry (Some (mkBitSet [2] 64 1)) (Some (mkBitSet [1] 64 1))
          (Some (mkBitSet [4] 64 1)) (Some (mkBitSet [1] 64 1))).
Proof.
  split.
  - apply (proj1 (proj2 (lookup_entry_first_miss "d1" "absent" "n1" "v1"
      sample_domainMap sample_groupMap sample_nameMap sample_valueMap)));
      [vm_compute; eauto | vm_compute; reflexivity].
  - apply (proj2 (proj2 (proj2 (proj2 (lookup_entry_first_miss "d2" "g1" "n3" "v1"
      sample_domainMap sample_groupMap sample_nameMap sample_valueMap)))));
      vm_compute; reflexivity.
Defined.

(** ** Further properties: the algebra of BitSets *)

Lemma same_length_words a b :
  wf a -> wf b -> NumBits a = NumBits b ->
  numWords b = numWords a /\ length (Words b) = length (Words a) /\
  len (Words a) = numWords a /\ len (Words b) = numWords a.
Proof.
  intros Ha Hb Hn.
  pose proof (wf_len a Ha). pose proof (wf_len b Hb).
  pose proof (wf_numWords a Ha). pose proof (wf_numWords b Hb).
  assert (numWords b = numWords a) by congruence.
  unfold len in *. repeat split; lia.
Qed.

Lemma nth_zip_with (f : Z -> Z -> Z) (l1 l2 : list Z) (k : nat) :
  length l1 = length l2 -> f 0 0 = 0 ->
  nth k (zip_with f l1 l2) 0 = f (nth k l1 0) (nth k l2 0).
Proof.
  intros Hlen H0. revert l2 k Hlen.
  induction l1 as [|x l1 IH]; intros [|y l2] k Hlen; try discriminate.
  - destruct k; cbn; now rewrite H0.
  - destruct k as [|k]; cbn; [reflexivity|]. apply IH. cbn in Hlen. lia.
Qed.

Lemma nth_map_not64 (l : list Z) (k : nat) :
  (k < length l)%nat -> nth k (map not64 l) 0 = not64 (nth k l 0).
Proof.
  revert k. induction l as [|x l IH]; intros k Hk; [cbn in Hk; lia|].
  destruct k as [|k]; cbn; [reflexivity|]. apply IH. cbn in Hk. lia.
Qed.

(** The bit an operation's result holds at a valid index. *)
Lemma TestBit_wordwise f fb a b i :
  (forall x y, word_ok x -> word_ok y -> word_ok (f x y)) ->
  (forall x y p, Z.testbit (f x y) p = fb (Z.testbit x p) (Z.testbit y p)) ->
  f 0 0 = 0 ->
  wf a -> wf b -> NumBits a = NumBits b -> 0 <= i < NumBits a ->
  exists x ba bb,
    wordwise f a b = Ok x /\ wf x /\ NumBits x = NumBits a /\
    TestBit a i = Ok ba /\ TestBit b i = Ok bb /\
    TestBit x i = Ok (fb ba bb).
Proof.
  intros Hok Hbit H0 Ha Hb Hn Hi.
  destruct (same_length_words a b Ha Hb Hn) as (Hnw & Hlen & Hla & Hlb).
  eexists _, _, _. split; [now apply wordwise_Ok|].
  split; [now apply wordwise_wf|]. split; [reflexivity|].
  split; [now apply TestBit_valid|].
  split; [apply TestBit_valid; [assumption | lia]|].
  rewrite TestBit_valid; [|now apply wordwise_wf | exact Hi].
  unfold word_bit. cbn [Words]. rewrite nth_zip_with by (auto; lia).
  now rewrite Hbit.
Qed.

Lemma wordwise_differ f a b :
  NumBits a <> NumBits b -> wordwise f a b = Err ErrSizesDiffer.
Proof.
  intros H. unfold wordwise, ensureSameSize.
  destruct (Z.eqb_spec (NumBits a) (NumBits b)); [contradiction | reflexivity].
Qed.

Lemma wordwise_wf_Ok f a b :
  wf a -> wf b -> NumBits a = NumBits b ->
  wordwise f a b
  = Ok (mkBitSet (zip_with f (Words a) (Words b)) (NumBits a) (numWords a)).
Proof.
  intros Ha Hb Hn.
  destruct (same_length_words a b Ha Hb Hn) as (_ & _ & Hla & Hlb).
  now apply wordwise_Ok.
Qed.

Lemma zip_with_comm_words (f : Z -> Z -> Z) (l1 l2 : list Z) :
  (forall x y, f x y = f y x) -> zip_with f l1 l2 = zip_with f l2 l1.
Proof.
  intros Hf. revert l2. induction l1 as [|x l1 IH]; intros [|y l2]; cbn;
    try reflexivity. now rewrite Hf, IH.
Qed.

Lemma zip_with_assoc_words (f : Z -> Z -> Z) (l1 l2 l3 : list Z) :
  (forall x y z, f (f x y) z = f x (f y z)) ->
  zip_with f (zip_with f l1 l2) l3 = zip_with f l1 (zip_with f l2 l3).
Proof.
  intros Hf. revert l2 l3.
  induction l1 as [|x l1 IH]; intros [|y l2] [|z l3]; cbn; try reflexivity.
  now rewrite Hf, IH.
Qed.

Lemma wordwise_comm f a b :
  (forall x y, f x y = f y x) -> wf a -> wf b ->
  wordwise f a b = wordwise f b a.
Proof.
  intros Hf Ha Hb. destruct (decide (NumBits a = NumBits b)) as [Hn|Hn].
  - destruct (same_length_words a b Ha Hb Hn) as (Hnw & _).
    rewrite (wordwise_wf_Ok f a b), (wordwise_wf_Ok f b a) by auto.
    now rewrite (zip_with_comm_words f _ _ Hf), Hn, Hnw.
  - rewrite !wordwise_differ by congruence. reflexivity.
Qed.

Lemma wordwise_assoc f a b c :
  (forall x y, word_ok x -> word_ok y -> word_ok (f x y)) ->
  (forall x y z, f (f x y) z = f x (f y z)) ->
  wf a -> wf b -> wf c -> NumBits a = NumBits b -> NumBits b = NumBits c ->
  (x ← wordwise f a b; wordwise f x c) = (y ← wordwise f b c; wordwise f a y).
Proof.
  intros Hok Hf Ha Hb Hc Hab Hbc.
  rewrite (wordwise_wf_Ok f a b), (wordwise_wf_Ok f b c) by auto.
  cbn [mbind result_bind].
  rewrite !wordwise_wf_Ok; cbn [Words NumBits numWords];
    auto using wordwise_wf; try congruence.
  now rewrite zip_with_assoc_words.
Qed.

(** X1. Bit-level meaning of the operations: for two BitSets of equal bit
    length that satisfy the invariant and a valid index [i], [And], [Or],
    [Xor] and [Not] succeed with a BitSet of the same bit length, and bit [i]
    of the result is the conjunction, disjunction, exclusive or and negation
    of the operands' bits [i]. *)
Theorem bitwise_semantics a b i :
  wf a -> wf b -> NumBits a = NumBits b -> 0 <= i < NumBits a ->
  exists x y z n ba bb,
    TestBit a i = Ok ba /\ TestBit b i = Ok bb /\
    And a b = Ok x /\ NumBits x = NumBits a /\ TestBit x i = Ok (ba && bb) /\
    Or a b = Ok y /\ NumBits y = NumBits a /\ TestBit y i = Ok (ba || bb) /\
    Xor a b = Ok z /\ NumBits z = NumBits a /\ TestBit z i = Ok (xorb ba bb) /\
    Not a = Ok n /\ NumBits n = NumBits a /\ TestBit n i = Ok (negb ba).
Proof.
  intros Ha Hb Hn Hi.
  destruct (TestBit_wordwise Z.land andb a b i) as (x & ba & bb & Hx & _ & Nx & Ta & Tb & Tx);
    auto using land_ok, Z.land_spec.
  destruct (TestBit_wordwise Z.lor orb a b i) as (y & ba' & bb' & Hy & _ & Ny & Ta' & Tb' & Ty);
    auto using lor_ok, Z.lor_spec.
  destruct (TestBit_wordwise Z.lxor xorb a b i) as (z & ba'' & bb'' & Hz & _ & Nz & Ta'' & Tb'' & Tz);
    auto using lxor_ok, Z.lxor_spec.
  assert (ba' = ba) by congruence. assert (bb' = bb) by congruence.
  assert (ba'' = ba) by congruence. assert (bb'' = bb) by congruence. subst.
  exists x, y, z, (mkBitSet (map not64 (Words a)) (NumBits a) (numWords a)), ba, bb.
  repeat (split; [assumption|]).
  split; [apply Not_Ok, Ha|]. split; [reflexivity|].
  rewrite TestBit_valid in Ta by assumption. injection Ta as <-.
  rewrite TestBit_valid; [|now apply Not_wf | exact Hi].
  destruct (index_split a i Ha Hi) as (Hk & Hp & _).
  unfold word_bit. cbn [Words]. unfold len in Hk.
  rewrite nth_map_not64 by lia. rewrite testbit_not64 by lia.
  destruct (Z.ltb_spec (Z.rem i 64) 64); [reflexivity | lia].
Qed.

Lemma bitwise_semantics_witness :
  exists x y z n ba bb,
    TestBit sample_a 0 = Ok ba /\ TestBit sample_b 0 = Ok bb /\
    And sample_a sample_b = Ok x /\ NumBits x = NumBits sample_a /\
    TestBit x 0 = Ok (ba && bb) /\
    Or sample_a sample_b = Ok y /\ NumBits y = NumBits sample_a /\
    TestBit y 0 = Ok (ba || bb) /\
    Xor sample_a sample_b = Ok z /\ NumBits z = NumBits sample_a /\
    TestBit z 0 = Ok (xorb ba bb) /\
    Not sample_a = Ok n /\ NumBits n = NumBits sample_a /\
    TestBit n 0 = Ok (negb ba).
Proof.
  apply bitwise_semantics;
    [apply sample_a_wf | apply sample_b_wf | reflexivity | cbn; lia].
Defined.

(** X2. Size mismatch: [And], [Or] and [Xor] return the error "bitset sizes
    differ" whenever the bit lengths of the operands differ, whatever the
    operands hold; on operands that satisfy the invariant they return an
    error in no other case. *)
Theorem binary_size_mismatch a b :
  (NumBits a <> NumBits b ->
     And a b = Err ErrSizesDiffer /\ Or a b = Err ErrSizesDiffer /\
     Xor a b = Err ErrSizesDiffer) /\
  (wf a -> wf b -> NumBits a = NumBits b ->
     exists x y z, And a b = Ok x /\ Or a b = Ok y /\ Xor a b = Ok z).
Proof.
  split.
  - intros H. unfold And, Or, Xor. now rewrite !wordwise_differ.
  - intros Ha Hb Hn. unfold And, Or, Xor. rewrite !wordwise_wf_Ok by assumption.
    now eexists _, _, _.
Qed.

Lemma binary_size_mismatch_witness :
  (And sample_a sample_c = Err ErrSizesDiffer /\
   Or sample_a sample_c = Err ErrSizesDiffer /\
   Xor sample_a sample_c = Err ErrSizesDiffer) /\
  (exists x y z, And sample_a sample_b = Ok x /\ Or sample_a sample_b = Ok y /\
                 Xor sample_a sample_b = Ok z).
Proof.
  split.
  - apply (proj1 (binary_size_mismatch sample_a sample_c)). cbn. lia.
  - apply (proj2 (binary_size_mismatch sample_a sample_b));
      [apply sample_a_wf | apply sample_b_wf | reflexivity].
Defined.

(** X3. Commutativity and associativity: on BitSets that satisfy the
    invariant [And], [Or] and [Xor] give the same result, or the same error,
    with their operands exchanged, and on three BitSets of one bit length
    the two ways of combining them give the same BitSet. *)
Theorem binary_comm_assoc a b c :
  wf a -> wf b -> wf c ->
  (And a b = And b a /\ Or a b = Or b a /\ Xor a b = Xor b a) /\
  (NumBits a = NumBits b -> NumBits b = NumBits c ->
     (x ← And a b; And x c) = (y ← And b c; And a y) /\
     (x ← Or a b; Or x c) = (y ← Or b c; Or a y) /\
     (x ← Xor a b; Xor x c) = (y ← Xor b c; Xor a y) /\
     exists r, (x ← And a b; And x c) = Ok r).
Proof.
  intros Ha Hb Hc. unfold And, Or, Xor. split.
  - repeat split; apply wordwise_comm;
      auto using Z.land_comm, Z.lor_comm, Z.lxor_comm.
  - intros Hab Hbc.
    split; [apply wordwise_assoc; auto using land_ok; intros; symmetry; apply Z.land_assoc|].
    split; [apply wordwise_assoc; auto using lor_ok; intros; symmetry; apply Z.lor_assoc|].
    split; [apply wordwise_assoc; auto using lxor_ok; intros; apply Z.lxor_assoc|].
    rewrite (wordwise_wf_Ok Z.land a b) by assumption. cbn [mbind result_bind].
    rewrite wordwise_wf_Ok; cbn [NumBits]; auto using wordwise_wf, land_ok; [|congruence].
    now eexists.
Qed.

Lemma binary_comm_assoc_witness :
  (And sample_a sample_b = And sample_b sample_a /\
   Or sample_a sample_b = Or sample_b sample_a /\
   Xor sample_a sample_b = Xor sample_b sample_a) /\
  ((x ← And sample_a sample_b; And x sample_a)
     = (y ← And sample_b sample_a; And sample_a y) /\
   (x ← Or sample_a sample_b; Or x sample_a)
     = (y ← Or sample_b sample_a; Or sample_a y) /\
   (x ← Xor sample_a sample_b; Xor x sample_a)
     = (y ← Xor sample_b sample_a; Xor sample_a y) /\
   exists r, (x ← And sample_a sample_b; And x sample_a) = Ok r).
Proof.
  pose proof (binary_comm_assoc sample_a sample_b sample_a
                sample_a_wf sample_b_wf sample_a_wf) as [H1 H2].
  split; [exact H1 | apply H2; reflexivity].
Defined.

Lemma zip_with_diag (f : Z -> Z -> Z) (g : Z -> Z) (l : list Z) :
  (forall x, f x x = g x) -> zip_with f l l = map g l.
Proof.
  intros Hf. induction l as [|x l IH]; cbn; [reflexivity|]. now rewrite Hf, IH.
Qed.

Lemma zip_with_zeros_r (f : Z -> Z -> Z) (g : Z -> Z) (l : list Z) :
  (forall x, f x 0 = g x) -> zip_with f l (replicate (length l) 0) = map g l.
Proof.
  intros Hf. induction l as [|x l IH]; cbn; [reflexivity|]. now rewrite Hf, IH.
Qed.

Lemma map_const_0 (l : list Z) : map (fun _ => 0) l = replicate (length l) 0.
Proof. induction l as [|x l IH]; cbn; [reflexivity|]. now rewrite IH. Qed.

Lemma map_same (l : list Z) : map (fun x => x) l = l.
Proof. induction l as [|x l IH]; cbn; [reflexivity|]. now rewrite IH. Qed.

(** The all-zero BitSet of the bit length of [a]. *)
Lemma NewBitSet_like a :
  wf a ->
  NewBitSet (NumBits a)
  = Ok (mkBitSet (replicate (length (Words a)) 0) (NumBits a) (numWords a)).
Proof.
  intros [Hp Hal Hw Hl _]. rewrite NewBitSet_valid by assumption.
  unfold len in Hl. rewrite <- Hw, <- Hl, Nat2Z.id. reflexivity.
Qed.

(** X4. Neutral and absorbing operands: for a BitSet [a] that satisfies the
    invariant, [a.And(a)] and [a.Or(a)] are [a], [a.Xor(a)] is the all-zero
    BitSet [NewBitSet] gives for that length, and with that all-zero BitSet
    [zero], [a.And(zero)] is [zero] while [a.Or(zero)] and [a.Xor(zero)] are
    [a]. *)
Theorem binary_identities a :
  wf a ->
  exists zero,
    NewBitSet (NumBits a) = Ok zero /\
    And a a = Ok a /\ Or a a = Ok a /\ Xor a a = Ok zero /\
    And a zero = Ok zero /\ Or a zero = Ok a /\ Xor a zero = Ok a.
Proof.
  intros Ha. pose proof (NewBitSet_like a Ha) as Hz.
  assert (Hzwf : wf (mkBitSet (replicate (length (Words a)) 0) (NumBits a)
                       (numWords a))) by exact (NewBitSet_wf _ _ Hz).
  eexists. split; [exact Hz|]. unfold And, Or, Xor.
  rewrite !wordwise_wf_Ok by (assumption || reflexivity). cbn [Words].
  rewrite (zip_with_diag Z.land (fun x => x)) by apply Z.land_diag.
  rewrite (zip_with_diag Z.lor (fun x => x)) by apply Z.lor_diag.
  rewrite (zip_with_diag Z.lxor (fun _ => 0)) by apply Z.lxor_nilpotent.
  rewrite (zip_with_zeros_r Z.land (fun _ => 0)) by apply Z.land_0_r.
  rewrite (zip_with_zeros_r Z.lor (fun x => x)) by apply Z.lor_0_r.
  rewrite (zip_with_zeros_r Z.lxor (fun x => x)) by apply Z.lxor_0_r.
  rewrite map_same, map_const_0. destruct a. repeat split; reflexivity.
Qed.

Lemma binary_identities_witness :
  exists zero,
    NewBitSet (NumBits sample_a) = Ok zero /\
    And sample_a sample_a = Ok sample_a /\ Or sample_a sample_a = Ok sample_a /\
    Xor sample_a sample_a = Ok zero /\
    And sample_a zero = Ok zero /\ Or sample_a zero = Ok sample_a /\
    Xor sample_a zero = Ok sample_a.
Proof. apply binary_identities, sample_a_wf. Defined.

Lemma not64_land x y : not64 (Z.land x y) = Z.lor (not64 x) (not64 y).
Proof.
  apply Z.bits_inj'. intros i Hi.
  rewrite Z.lor_spec, !testbit_not64, Z.land_spec by lia.
  destruct (i <? 64), (Z.testbit x i), (Z.testbit y i); reflexivity.
Qed.

Lemma not64_lor x y : not64 (Z.lor x y) = Z.land (not64 x) (not64 y).
Proof.
  apply Z.bits_inj'. intros i Hi.
  rewrite Z.land_spec, !testbit_not64, Z.lor_spec by lia.
  destruct (i <? 64), (Z.testbit x i), (Z.testbit y i); reflexivity.
Qed.

Lemma lxor_as_lor_land x y :
  word_ok x -> word_ok y ->
  Z.lxor x y = Z.land (Z.lor x y) (not64 (Z.land x y)).
Proof.
  intros Hx Hy. apply Z.bits_inj'. intros i Hi.
  rewrite Z.land_spec, testbit_not64, Z.lor_spec, Z.land_spec, Z.lxor_spec by lia.
  destruct (Z.ltb_spec i 64).
  - destruct (Z.testbit x i), (Z.testbit y i); reflexivity.
  - now rewrite (testbit_word_high x), (testbit_word_high y) by assumption.
Qed.

Lemma map_zip_with_not64 (f g : Z -> Z -> Z) (l1 l2 : list Z) :
  (forall x y, not64 (f x y) = g (not64 x) (not64 y)) ->
  map not64 (zip_with f l1 l2) = zip_with g (map not64 l1) (map not64 l2).
Proof.
  intros H. revert l2. induction l1 as [|x l1 IH]; intros [|y l2]; cbn;
    try reflexivity. now rewrite H, IH.
Qed.

Lemma zip_with_xor_decompose (l1 l2 : list Z) :
  Forall word_ok l1 -> Forall word_ok l2 ->
  zip_with Z.lxor l1 l2
  = zip_with Z.land (zip_with Z.lor l1 l2) (map not64 (zip_with Z.land l1 l2)).
Proof.
  intros H1. revert l2. induction H1 as [|x l1 Hx _ IH]; intros l2 H2;
    [reflexivity|].
  destruct H2 as [|y l2 Hy H2]; [reflexivity|]. cbn.
  now rewrite <- lxor_as_lor_land, <- IH.
Qed.

(** X5. De Morgan and the decomposition of [Xor]: for two BitSets of equal
    bit length that satisfy the invariant, the complement of [And] is the
    [Or] of the complements, the complement of [Or] is the [And] of the
    complements, and [Xor] is [Or] without [And]; all of these succeed. *)
Theorem de_morgan a b :
  wf a -> wf b -> NumBits a = NumBits b ->
  (x ← And a b; Not x) = (na ← Not a; nb ← Not b; Or na nb) /\
  (x ← Or a b; Not x) = (na ← Not a; nb ← Not b; And na nb) /\
  Xor a b = (x ← And a b; y ← Or a b; nx ← Not x; And y nx) /\
  exists r1 r2 r3,
    (x ← And a b; Not x) = Ok r1 /\ (x ← Or a b; Not x) = Ok r2 /\
    Xor a b = Ok r3.
Proof.
  intros Ha Hb Hn.
  destruct (same_length_words a b Ha Hb Hn) as (Hnw & Hlen & Hla & Hlb).
  pose proof (Not_wf a Ha) as Hna. pose proof (Not_wf b Hb) as Hnb.
  unfold And, Or, Xor.
  rewrite !(wordwise_wf_Ok _ a b) by assumption.
  rewrite (Not_Ok a), (Not_Ok b) by (assumption || lia). cbn [mbind result_bind].
  rewrite !Not_Ok
    by (cbn [Words numWords]; unfold len in *; rewrite length_zip_with; lia).
  cbn [mbind result_bind Words NumBits numWords].
  rewrite !wordwise_wf_Ok; cbn [Words NumBits numWords];
    auto using wordwise_wf, land_ok, lor_ok; try congruence.
  - rewrite <- zip_with_xor_decompose by (apply Ha || apply Hb).
    rewrite (map_zip_with_not64 Z.land Z.lor) by apply not64_land.
    rewrite (map_zip_with_not64 Z.lor Z.land) by apply not64_lor.
    rewrite ?Hn, ?Hnw.
    split; [reflexivity|]. split; [reflexivity|]. split; [reflexivity|].
    now eexists _, _, _.
  - apply (Not_wf (mkBitSet (zip_with Z.land (Words a) (Words b)) (NumBits a)
                     (numWords a))).
    apply wordwise_wf; auto using land_ok.
Qed.

Lemma de_morgan_witness :
  (x ← And sample_a sample_b; Not x)
    = (na ← Not sample_a; nb ← Not sample_b; Or na nb) /\
  (x ← Or sample_a sample_b; Not x)
    = (na ← Not sample_a; nb ← Not sample_b; And na nb) /\
  Xor sample_a sample_b
    = (x ← And sample_a sample_b; y ← Or sample_a sample_b; nx ← Not x; And y nx) /\
  exists r1 r2 r3,
    (x ← And sample_a sample_b; Not x) = Ok r1 /\
    (x ← Or sample_a sample_b; Not x) = Ok r2 /\
    Xor sample_a sample_b = Ok r3.
Proof.
  apply de_morgan; [apply sample_a_wf | apply sample_b_wf | reflexivity].
Defined.

(** ** Further properties: equality, zero test and population count *)

Lemma Equals_loop_spec a b (k i0 : nat) :
  (i0 + k)%nat = length (Words a) -> length (Words b) = length (Words a) ->
  Equals_loop k (Z.of_nat i0) a b
  = Ok (bool_decide (drop i0 (Words a) = drop i0 (Words b))).
Proof.
  revert i0. induction k as [|k IH]; intros i0 Hk Hlen.
  - cbn. rewrite !drop_ge by lia. reflexivity.
  - destruct (lookup_lt_is_Some_2 (Words a) i0) as [x Hx]; [lia|].
    destruct (lookup_lt_is_Some_2 (Words b) i0) as [y Hy]; [lia|].
    cbn [Equals_loop].
    rewrite (index_lookup _ _ _ Hx), (index_lookup _ _ _ Hy).
    cbn [mbind result_bind].
    rewrite (drop_S _ _ _ Hx), (drop_S _ _ _ Hy).
    replace (Z.of_nat i0 + 1) with (Z.of_nat (S i0)) by lia.
    destruct (Z.eqb_spec x y) as [->|Hne]; cbn [negb].
    + rewrite IH by lia. f_equal. apply bool_decide_ext.
      split; [now intros -> | now intros [= ->]].
    + rewrite bool_decide_eq_false_2; [reflexivity | congruence].
Qed.

Lemma Equals_differ a b : NumBits a <> NumBits b -> Equals a b = Ok false.
Proof.
  intros H. unfold Equals.
  destruct (Z.eqb_spec (NumBits a) (NumBits b)); [contradiction | reflexivity].
Qed.

Lemma Equals_same_size a b :
  wf a -> wf b -> NumBits a = NumBits b ->
  Equals a b = Ok (bool_decide (Words a = Words b)).
Proof.
  intros Ha Hb Hn. unfold Equals. rewrite Hn, Z.eqb_refl. cbn [negb].
  pose proof (wf_len a Ha) as Hla. pose proof (wf_len b Hb) as Hlb.
  pose proof (wf_numWords a Ha). pose proof (wf_numWords b Hb).
  assert (numWords b = numWords a) by congruence.
  unfold len in *.
  rewrite <- Hla, Nat2Z.id.
  apply (Equals_loop_spec a b (length (Words a)) 0%nat); lia.
Qed.

(** A wf BitSet is determined by its bit length and its words. *)
Lemma BitSet_eq a b :
  wf a -> wf b -> NumBits a = NumBits b -> Words a = Words b -> a = b.
Proof.
  intros Ha Hb Hn Hw.
  pose proof (wf_numWords a Ha). pose proof (wf_numWords b Hb).
  destruct a, b. cbn in *. subst. reflexivity.
Qed.

Lemma quot_rem_64 k p :
  0 <= k -> 0 <= p < 64 ->
  Z.quot (64 * k + p) 64 = k /\ Z.rem (64 * k + p) 64 = p.
Proof.
  intros Hk Hp. split.
  - symmetry. apply Z.quot_unique with (r := p); lia.
  - symmetry. apply Z.rem_unique with (q := k); lia.
Qed.

(** Two wf BitSets of one bit length whose bits test alike have the same
    words. *)
Lemma words_ext a b :
  wf a -> wf b -> NumBits a = NumBits b ->
  (forall i, 0 <= i < NumBits a -> TestBit a i = TestBit b i) ->
  Words a = Words b.
Proof.
  intros Ha Hb Hn Hbits.
  pose proof (wf_len a Ha) as Hla. pose proof (wf_len b Hb) as Hlb.
  pose proof (wf_numWords a Ha) as Hwa. pose proof (wf_numWords b Hb) as Hwb.
  assert (Hnw : numWords b = numWords a) by congruence.
  destruct (aligned_words _ (wf_pos a Ha) (wf_aligned a Ha)) as (n & _ & Hna & Hq & _).
  unfold len in *.
  apply list_eq. intros k.
  destruct (Words a !! k) as [x|] eqn:Hx.
  - apply lookup_lt_Some in Hx as Hk.
    destruct (lookup_lt_is_Some_2 (Words b) k) as [y Hy]; [lia|].
    rewrite Hy. f_equal.
    pose proof (Forall_lookup_1 _ _ _ _ (wf_words a Ha) Hx) as Hox.
    pose proof (Forall_lookup_1 _ _ _ _ (wf_words b Hb) Hy) as Hoy.
    apply Z.bits_inj'. intros p Hp.
    destruct (Z.ltb_spec p 64) as [Hlt|Hge].
    + assert (Hi : 0 <= 64 * Z.of_nat k + p < NumBits a) by lia.
      specialize (Hbits _ Hi).
      rewrite !TestBit_valid in Hbits by (assumption || lia).
      destruct (quot_rem_64 (Z.of_nat k) p) as [Eq Er]; [lia | lia |].
      unfold word_bit in Hbits. rewrite Eq, Er, Nat2Z.id in Hbits.
      rewrite (nth_lookup_Some _ _ _ _ Hx), (nth_lookup_Some _ _ _ _ Hy) in Hbits.
      congruence.
    + now rewrite (testbit_word_high x), (testbit_word_high y) by assumption.
  - apply lookup_ge_None_1 in Hx. symmetry. apply lookup_ge_None_2. lia.
Qed.

(** X6. [Equals] is equality: on BitSets that satisfy the invariant it
    returns true exactly when the two are the same BitSet, which is when
    they have the same bit length and every index tests alike in both; it
    gives the same answer with its operands exchanged; and it returns false
    on different bit lengths whatever the BitSets hold. *)
Theorem equals_is_equality a b :
  (NumBits a <> NumBits b -> Equals a b = Ok false) /\
  (wf a -> wf b ->
     exists r, Equals a b = Ok r /\ Equals b a = Ok r /\
       (r = true <-> a = b) /\
       (r = true <->
          NumBits a = NumBits b /\
          forall i, 0 <= i < NumBits a -> TestBit a i = TestBit b i)).
Proof.
  split; [apply Equals_differ|]. intros Ha Hb.
  destruct (decide (NumBits a = NumBits b)) as [Hn|Hn].
  - exists (bool_decide (Words a = Words b)).
    split; [now apply Equals_same_size|].
    split. { rewrite Equals_same_size by (assumption || congruence).
             f_equal. apply bool_decide_ext. split; congruence. }
    rewrite bool_decide_eq_true. split.
    + split; [now apply BitSet_eq | now intros ->].
    + split.
      * intros Hw. split; [assumption|]. intros i Hi.
        now rewrite (BitSet_eq a b Ha Hb Hn Hw).
      * intros [_ Hbits]. now apply words_ext.
  - exists false. rewrite !Equals_differ by congruence.
    split; [reflexivity|]. split; [reflexivity|].
    split; (split; [discriminate|]).
    + intros ->. contradiction.
    + intros [? _]. contradiction.
Qed.

Lemma equals_is_equality_witness :
  Equals sample_a sample_c = Ok false /\
  exists r, Equals sample_a sample_b = Ok r /\ Equals sample_b sample_a = Ok r /\
    (r = true <-> sample_a = sample_b) /\
    (r = true <->
       NumBits sample_a = NumBits sample_b /\
       forall i, 0 <= i < NumBits sample_a ->
         TestBit sample_a i = TestBit sample_b i).
Proof.
  split.
  - apply (proj1 (equals_is_equality sample_a sample_c)). cbn. lia.
  - apply (proj2 (equals_is_equality sample_a sample_b));
      [apply sample_a_wf | apply sample_b_wf].
Defined.

Lemma bit_count_filter (f : nat -> bool) (l : list nat) :
  fold_right (fun i acc => Z.b2z (f i) + acc) 0 l
  = Z.of_nat (length (List.filter f l)).
Proof.
  induction l as [|i l IH]; [reflexivity|]. cbn [fold_right List.filter].
  rewrite IH. destruct (f i); cbn [Z.b2z length]; lia.
Qed.

Lemma OnesCount64_filter w :
  OnesCount64 w
  = Z.of_nat (length (List.filter (fun i => Z.testbit w (Z.of_nat i)) (seq 0 64))).
Proof. unfold OnesCount64. apply bit_count_filter. Qed.

Lemma OnesCount64_bounds w : 0 <= OnesCount64 w <= 64.
Proof.
  rewrite OnesCount64_filter.
  pose proof (List.filter_length_le (fun i => Z.testbit w (Z.of_nat i)) (seq 0 64)) as H.
  rewrite length_seq in H. lia.
Qed.


Lemma filter_length_ext (f g : nat -> bool) (l : list nat) :
  (forall i, In i l -> f i = g i) ->
  length (List.filter f l) = length (List.filter g l).
Proof.
  intros H. now rewrite (List.filter_ext_in f g l H).
Qed.

Lemma filter_length_shift (f : nat -> bool) (k : nat) (l : list nat) :
  length (List.filter f (map (fun i => (k + i)%nat) l))
  = length (List.filter (fun i => f (k + i)%nat) l).
Proof.
  induction l as [|i l IH]; [reflexivity|]. cbn [map List.filter].
  destruct (f (k + i)%nat); cbn [length]; now rewrite IH.
Qed.

Lemma seq_shift_from (k m : nat) : seq k m = map (fun i => (k + i)%nat) (seq 0 m).
Proof.
  revert k. induction m as [|m IH]; intros k; [reflexivity|].
  cbn [seq map]. rewrite Nat.add_0_r. f_equal.
  rewrite (IH (S k)), (IH 1%nat), map_map. apply map_ext. intros i. lia.
Qed.

Lemma words_bit_head w ws (i : nat) :
  (i < 64)%nat -> words_bit (w :: ws) i = Z.testbit w (Z.of_nat i).
Proof.
  intros Hi. unfold words_bit.
  destruct (quot_rem_64 0 (Z.of_nat i)) as [Eq Er]; [lia | lia |].
  rewrite Z.mul_0_r, Z.add_0_l in Eq, Er. now rewrite Eq, Er.
Qed.

Lemma words_bit_tail w ws (i : nat) :
  words_bit (w :: ws) (64 + i) = words_bit ws i.
Proof.
  unfold words_bit.
  pose proof (Z.quot_rem' (Z.of_nat i) 64) as Hqr.
  pose proof (Z.rem_bound_pos (Z.of_nat i) 64 ltac:(lia) ltac:(lia)) as Hr.
  assert (0 <= Z.quot (Z.of_nat i) 64) by (apply Z.quot_pos; lia).
  destruct (quot_rem_64 (1 + Z.quot (Z.of_nat i) 64) (Z.rem (Z.of_nat i) 64))
    as [Eq Er]; [lia | lia |].
  replace (Z.of_nat (64 + i))
    with (64 * (1 + Z.quot (Z.of_nat i) 64) + Z.rem (Z.of_nat i) 64) by lia.
  rewrite Eq, Er.
  replace (Z.to_nat (1 + Z.quot (Z.of_nat i) 64))
    with (S (Z.to_nat (Z.quot (Z.of_nat i) 64))) by lia.
  reflexivity.
Qed.

(** The count of a word list is the number of positions whose bit is set. *)
Lemma count_words_bits (ws : list Z) n k :
  CountOnes (mkBitSet ws n k)
  = Z.of_nat (length (List.filter (words_bit ws) (seq 0 (64 * length ws)))).
Proof.
  induction ws as [|w ws IH]; [reflexivity|].
  rewrite CountOnes_cons, IH, OnesCount64_filter.
  replace (64 * length (w :: ws))%nat with (64 + 64 * length ws)%nat
    by (cbn [length]; lia).
  rewrite seq_app, List.filter_app, length_app, Nat.add_0_l.
  rewrite (seq_shift_from 64), filter_length_shift.
  rewrite (filter_length_ext (words_bit (w :: ws))
             (fun i => Z.testbit w (Z.of_nat i)) (seq 0 64)).
  2:{ intros i Hi. apply in_seq in Hi. apply words_bit_head. lia. }
  rewrite (filter_length_ext (fun i => words_bit (w :: ws) (64 + i))
             (words_bit ws) (seq 0 (64 * length ws))).
  2:{ intros i _. apply words_bit_tail. }
  lia.
Qed.

Lemma bit_is_set_valid b (n : nat) :
  wf b -> Z.of_nat n < NumBits b -> bit_is_set b (Z.of_nat n) = words_bit (Words b) n.
Proof.
  intros Hb Hn. unfold bit_is_set. rewrite TestBit_valid by (assumption || lia).
  unfold word_bit, words_bit. now destruct (Z.testbit _ _).
Qed.

Lemma CountOnes_set_bits b : wf b -> CountOnes b = Z.of_nat (length (set_bits b)).
Proof.
  intros Hb.
  destruct (aligned_words _ (wf_pos b Hb) (wf_aligned b Hb)) as (m & _ & Hn & Hq & _).
  pose proof (wf_len b Hb) as Hl. pose proof (wf_numWords b Hb) as Hw.
  unfold len in Hl.
  replace (CountOnes b) with (CountOnes (mkBitSet (Words b) (NumBits b) (numWords b)))
    by now destruct b.
  rewrite count_words_bits. unfold set_bits. f_equal.
  replace (Z.to_nat (NumBits b)) with (64 * length (Words b))%nat by lia.
  apply filter_length_ext. intros i Hi. apply in_seq in Hi.
  symmetry. apply bit_is_set_valid; [assumption | lia].
Qed.

Lemma all_zero_iff ws : all_zero ws = true <-> ws = replicate (length ws) 0.
Proof.
  induction ws as [|w ws IH]; [easy|]. cbn [all_zero length replicate].
  destruct (Z.eqb_spec w 0) as [->|Hne]; cbn [negb].
  - rewrite IH. split; [now intros <- | now intros [= <-]].
  - split; [discriminate | intros [= ? _]; contradiction].
Qed.

Lemma TestBit_zeros (m : nat) n k i :
  wf (mkBitSet (replicate m 0) n k) -> 0 <= i < n ->
  TestBit (mkBitSet (replicate m 0) n k) i = Ok false.
Proof.
  intros Hz Hi. rewrite TestBit_valid by assumption.
  unfold word_bit. cbn [Words]. now rewrite nth_replicate_0, Z.bits_0.
Qed.

(** Two wf BitSets of one bit length whose bits test alike are the same. *)
Lemma BitSet_ext a b :
  wf a -> wf b -> NumBits a = NumBits b ->
  (forall i, 0 <= i < NumBits a -> TestBit a i = TestBit b i) -> a = b.
Proof. intros Ha Hb Hn H. apply BitSet_eq; auto using words_ext. Qed.

Lemma filter_nil_forall (f : nat -> bool) (l : list nat) :
  length (List.filter f l) = 0%nat -> forall i, In i l -> f i = false.
Proof.
  induction l as [|x l IH]; intros H i Hi; [destruct Hi|].
  cbn [List.filter] in H. destruct (f x) eqn:E; [discriminate H|].
  destruct Hi as [<-|Hi]; [assumption | now apply IH].
Qed.

(** X7. [IsZero] and the other zero tests agree: for a BitSet that satisfies
    the invariant, [IsZero] is true exactly when [CountOnes] is 0, exactly
    when no valid index tests true, and exactly when the BitSet is the one
    [NewBitSet] returns for its bit length. *)
Theorem is_zero_iff b :
  wf b ->
  (IsZero b = true <-> CountOnes b = 0) /\
  (IsZero b = true <-> forall i, 0 <= i < NumBits b -> TestBit b i = Ok false) /\
  (IsZero b = true <-> NewBitSet (NumBits b) = Ok b).
Proof.
  intros Hb. pose proof (NewBitSet_like b Hb) as Hnew.
  pose proof (NewBitSet_wf _ _ Hnew) as Hzwf.
  set (zero := mkBitSet (replicate (length (Words b)) 0) (NumBits b) (numWords b)) in *.
  assert (H1 : IsZero b = true -> b = zero).
  { unfold IsZero. rewrite all_zero_iff. intros H. apply BitSet_eq; auto. }
  assert (H2 : b = zero -> CountOnes b = 0).
  { intros E. rewrite E. apply CountOnes_replicate_0. }
  assert (H3 : CountOnes b = 0 ->
               forall i, 0 <= i < NumBits b -> TestBit b i = Ok false).
  { rewrite CountOnes_set_bits by assumption. intros H i Hi.
    assert (Hf : bit_is_set b (Z.of_nat (Z.to_nat i)) = false).
    { apply (filter_nil_forall (fun n => bit_is_set b (Z.of_nat n))
               (seq 0 (Z.to_nat (NumBits b)))); [unfold set_bits in H; lia|].
      apply in_seq. lia. }
    rewrite Z2Nat.id in Hf by lia. unfold bit_is_set in Hf.
    rewrite TestBit_valid in * by assumption. now destruct (word_bit _ _ _). }
  assert (H4 : (forall i, 0 <= i < NumBits b -> TestBit b i = Ok false) -> b = zero).
  { intros H. apply BitSet_ext; auto. intros i Hi. rewrite H by assumption.
    symmetry. now apply TestBit_zeros. }
  assert (H5 : b = zero -> IsZero b = true).
  { intros E. rewrite E. apply all_zero_replicate. }
  repeat split; intros; auto 6.
  - rewrite Hnew. f_equal. symmetry. auto.
  - apply H5. congruence.
Qed.

Lemma is_zero_iff_witness :
  (IsZero sample_a = true <-> CountOnes sample_a = 0) /\
  (IsZero sample_a = true <->
     forall i, 0 <= i < NumBits sample_a -> TestBit sample_a i = Ok false) /\
  (IsZero sample_a = true <-> NewBitSet (NumBits sample_a) = Ok sample_a).
Proof. apply is_zero_iff, sample_a_wf. Defined.

(** X8. [CountOnes] counts the set bits: for a BitSet that satisfies the
    invariant it is the number of valid indices at which [TestBit] returns
    true, hence between 0 and the bit length. *)
Theorem count_is_number_of_set_bits b :
  wf b ->
  CountOnes b = Z.of_nat (length (set_bits b)) /\
  0 <= CountOnes b <= NumBits b.
Proof.
  intros Hb. rewrite CountOnes_set_bits by assumption. split; [reflexivity|].
  unfold set_bits.
  pose proof (List.filter_length_le (fun n => bit_is_set b (Z.of_nat n))
                (seq 0 (Z.to_nat (NumBits b)))) as H.
  rewrite length_seq in H. pose proof (wf_pos b Hb). lia.
Qed.

Lemma count_is_number_of_set_bits_witness :
  CountOnes sample_a = Z.of_nat (length (set_bits sample_a)) /\
  0 <= CountOnes sample_a <= NumBits sample_a.
Proof. apply count_is_number_of_set_bits, sample_a_wf. Defined.

Lemma CountOnes_insert (ws : list Z) (k : nat) w n kk :
  (k < length ws)%nat ->
  CountOnes (mkBitSet (<[k := w]> ws) n kk)
  = CountOnes (mkBitSet ws n kk) - OnesCount64 (nth k ws 0) + OnesCount64 w.
Proof.
  revert k. induction ws as [|x ws IH]; intros k Hk; [cbn in Hk; lia|].
  destruct k as [|k]; cbn [insert list_insert nth]; rewrite !CountOnes_cons.
  - lia.
  - fold (@insert nat Z (list Z) _ k w ws).
    rewrite IH by (cbn in Hk; lia). lia.
Qed.

Lemma land_pow2 w p :
  0 <= p -> Z.land w (2 ^ p) = if Z.testbit w p then 2 ^ p else 0.
Proof.
  intros Hp. apply Z.bits_inj'. intros i Hi.
  rewrite Z.land_spec, Z.pow2_bits_eqb by lia.
  destruct (Z.eqb_spec p i) as [->|Hne].
  - destruct (Z.testbit w i); [|now rewrite Z.bits_0].
    rewrite Z.pow2_bits_eqb, Z.eqb_refl by lia. reflexivity.
  - rewrite andb_false_r. destruct (Z.testbit w p); [|now rewrite Z.bits_0].
    rewrite Z.pow2_bits_eqb by lia. symmetry. now apply Z.eqb_neq.
Qed.

Lemma OnesCount64_land_pow2 w p :
  0 <= p < 64 -> OnesCount64 (Z.land w (2 ^ p)) = Z.b2z (Z.testbit w p).
Proof.
  intros Hp. rewrite land_pow2 by lia.
  destruct (Z.testbit w p); [now apply OnesCount64_pow2 | reflexivity].
Qed.

Lemma OnesCount64_set w p :
  0 <= p < 64 ->
  OnesCount64 (Z.lor w (2 ^ p)) = OnesCount64 w + 1 - Z.b2z (Z.testbit w p).
Proof.
  intros Hp. pose proof (OnesCount64_incl_excl w (2 ^ p)) as H.
  rewrite OnesCount64_land_pow2, OnesCount64_pow2 in H by assumption. lia.
Qed.

Lemma OnesCount64_clear w p :
  word_ok w -> 0 <= p < 64 ->
  OnesCount64 (Z.land w (not64 (2 ^ p))) = OnesCount64 w - Z.b2z (Z.testbit w p).
Proof.
  intros Hw Hp.
  pose proof (OnesCount64_incl_excl (Z.land w (not64 (2 ^ p))) (Z.land w (2 ^ p))) as H.
  replace (Z.land (Z.land w (not64 (2 ^ p))) (Z.land w (2 ^ p))) with 0 in H.
  2:{ symmetry. apply Z.bits_inj'. intros i Hi.
      rewrite !Z.land_spec, testbit_not64, Z.bits_0 by lia.
      destruct (Z.testbit w i), (Z.testbit (2 ^ p) i), (i <? 64); reflexivity. }
  replace (Z.lor (Z.land w (not64 (2 ^ p))) (Z.land w (2 ^ p))) with w in H.
  2:{ symmetry. apply Z.bits_inj'. intros i Hi.
      rewrite Z.lor_spec, !Z.land_spec, testbit_not64 by lia.
      destruct (Z.ltb_spec i 64).
      - destruct (Z.testbit w i), (Z.testbit (2 ^ p) i); reflexivity.
      - now rewrite (testbit_word_high w) by assumption. }
  rewrite OnesCount64_land_pow2, OnesCount64_0 in H by assumption. lia.
Qed.

(** X9. Writes and the count: for a BitSet that satisfies the invariant and
    a valid index whose bit tests [v], [SetBit] adds one to [CountOnes] when
    the bit was clear and nothing when it was set, [ClearBit] takes one off
    when it was set and nothing when it was clear; a write that puts the bit
    in the state it has leaves the BitSet as it is, so writing twice is
    writing once; and the opposite write undoes a write that changed the
    bit. *)
Theorem write_count_and_idempotence b i v :
  wf b -> 0 <= i < NumBits b -> TestBit b i = Ok v ->
  CountOnes (SetBit b i).1 = CountOnes b + (if v then 0 else 1) /\
  CountOnes (ClearBit b i).1 = CountOnes b - (if v then 1 else 0) /\
  (v = true -> (SetBit b i).1 = b) /\
  (v = false -> (ClearBit b i).1 = b) /\
  (SetBit (SetBit b i).1 i).1 = (SetBit b i).1 /\
  (ClearBit (ClearBit b i).1 i).1 = (ClearBit b i).1 /\
  (v = false -> (ClearBit (SetBit b i).1 i).1 = b) /\
  (v = true -> (SetBit (ClearBit b i).1 i).1 = b).
Proof.
  intros Hb Hi Hv.
  pose proof (SetBit_wf b i Hb) as Hs. pose proof (ClearBit_wf b i Hb) as Hc.
  assert (Ns : NumBits (SetBit b i).1 = NumBits b) by now rewrite SetBit_valid.
  assert (Nc : NumBits (ClearBit b i).1 = NumBits b) by now rewrite ClearBit_valid.
  destruct (index_split b i Hb Hi) as (Hk & Hp & _).
  pose proof Hv as Hv'. rewrite TestBit_valid in Hv' by assumption.
  injection Hv' as Hv'. unfold word_bit in Hv'.
  split; [|split].
  - rewrite SetBit_valid by assumption. cbn [fst]. unfold with_Words.
    replace (CountOnes b) with (CountOnes (mkBitSet (Words b) (NumBits b) (numWords b)))
      by now destruct b.
    unfold len in Hk. rewrite CountOnes_insert, OnesCount64_set, Hv' by lia.
    destruct v; cbn [Z.b2z]; lia.
  - rewrite ClearBit_valid by assumption. cbn [fst]. unfold with_Words.
    replace (CountOnes b) with (CountOnes (mkBitSet (Words b) (NumBits b) (numWords b)))
      by now destruct b.
    unfold len in Hk. rewrite CountOnes_insert, OnesCount64_clear, Hv' by
      (try lia; now apply nth_word_ok).
    destruct v; cbn [Z.b2z]; lia.
  - assert (Ext : forall x y, wf x -> wf y -> NumBits x = NumBits b ->
              NumBits y = NumBits b ->
              (forall j, 0 <= j < NumBits b -> TestBit x j = TestBit y j) -> x = y).
    { intros x y Hx Hy Nx Ny H. apply BitSet_ext; auto; [congruence|].
      intros j Hj. apply H. lia. }
    assert (Nss : NumBits (SetBit (SetBit b i).1 i).1 = NumBits b).
    { rewrite SetBit_valid by (assumption || lia). exact Ns. }
    assert (Ncc : NumBits (ClearBit (ClearBit b i).1 i).1 = NumBits b).
    { rewrite ClearBit_valid by (assumption || lia). exact Nc. }
    assert (Ncs : NumBits (ClearBit (SetBit b i).1 i).1 = NumBits b).
    { rewrite ClearBit_valid by (assumption || lia). exact Ns. }
    assert (Nsc : NumBits (SetBit (ClearBit b i).1 i).1 = NumBits b).
    { rewrite SetBit_valid by (assumption || lia). exact Nc. }
    repeat split.
    + intros ->. apply Ext; auto. intros j Hj. rewrite TestBit_SetBit by assumption.
      destruct (Z.eqb_spec j i) as [->|]; congruence.
    + intros ->. apply Ext; auto. intros j Hj. rewrite TestBit_ClearBit by assumption.
      destruct (Z.eqb_spec j i) as [->|]; congruence.
    + apply Ext; auto using SetBit_wf. intros j Hj.
      rewrite !TestBit_SetBit by (assumption || lia).
      now destruct (j =? i).
    + apply Ext; auto using ClearBit_wf. intros j Hj.
      rewrite !TestBit_ClearBit by (assumption || lia).
      now destruct (j =? i).
    + intros ->. apply Ext; auto using ClearBit_wf. intros j Hj.
      rewrite TestBit_ClearBit, TestBit_SetBit by (assumption || lia).
      destruct (Z.eqb_spec j i) as [->|]; congruence.
    + intros ->. apply Ext; auto using SetBit_wf. intros j Hj.
      rewrite TestBit_SetBit, TestBit_ClearBit by (assumption || lia).
      destruct (Z.eqb_spec j i) as [->|]; congruence.
Qed.

Lemma write_count_and_idempotence_witness :
  CountOnes (SetBit sample_b 70).1 = CountOnes sample_b + 1 /\
  CountOnes (ClearBit sample_b 70).1 = CountOnes sample_b - 0 /\
  (false = true -> (SetBit sample_b 70).1 = sample_b) /\
  (false = false -> (ClearBit sample_b 70).1 = sample_b) /\
  (SetBit (SetBit sample_b 70).1 70).1 = (SetBit sample_b 70).1 /\
  (ClearBit (ClearBit sample_b 70).1 70).1 = (ClearBit sample_b 70).1 /\
  (false = false -> (ClearBit (SetBit sample_b 70).1 70).1 = sample_b) /\
  (false = true -> (SetBit (ClearBit sample_b 70).1 70).1 = sample_b).
Proof.
  apply (write_count_and_idempotence sample_b 70 false);
    [apply sample_b_wf | cbn; lia | reflexivity].
Defined.

(** ** Further properties: the hex codec *)

Lemma hex_digit_value c :
  is_hex c = true ->
  exists v, fromHexChar c = Some v /\ 0 <= v < 16 /\ hexdigit v = lower_hex c.
Proof.
  destruct c as [[] [] [] [] [] [] [] []]; intros H; try discriminate H;
    eexists; (split; [reflexivity|]);
    (split; [vm_compute; intuition discriminate | reflexivity]).
Qed.

Lemma non_hex_digit c : is_hex c = false -> fromHexChar c = None.
Proof.
  destruct c as [[] [] [] [] [] [] [] []]; intros H; try discriminate H;
    reflexivity.
Qed.

Lemma all_hex_first_non_hex s : all_hex s = true <-> first_non_hex s = None.
Proof.
  induction s as [|c s IH]; [easy|]. cbn [all_hex first_non_hex].
  destruct (is_hex c); cbn [andb]; [exact IH | easy].
Qed.

(** Decoding a string of hex digits of even length, of either case. *)
Lemma hex_decode_any_case (k : nat) s :
  String.length s = (2 * k)%nat -> all_hex s = true ->
  exists data, hex_DecodeString s = (data, None) /\ Forall byte_ok data /\
    length data = k /\ hex_EncodeToString data = lower_hex_string s.
Proof.
  revert s. induction k as [|k IH]; intros s Hlen Hhex.
  - destruct s; [|discriminate]. exists []. repeat split. constructor.
  - destruct s as [|p [|q s]]; try (cbn in Hlen; lia).
    cbn [all_hex] in Hhex.
    apply andb_true_iff in Hhex as [Hp Hhex].
    apply andb_true_iff in Hhex as [Hq Hhex].
    destruct (hex_digit_value p Hp) as (a & Ea & Ha & Da).
    destruct (hex_digit_value q Hq) as (b & Eb & Hb & Db).
    destruct (IH s) as (data & Hdec & Hok & Hl & Henc);
      [cbn in Hlen; lia | assumption |].
    exists (Z.lor (Z.shiftl a 4) b :: data).
    cbn [hex_DecodeString]. rewrite Ea, Eb, Hdec.
    split; [reflexivity|]. split; [|split].
    + constructor; [now apply nibbles_byte | assumption].
    + cbn. now rewrite Hl.
    + cbn [hex_EncodeToString lower_hex_string].
      now rewrite nibbles_high, nibbles_low, Da, Db, Henc by assumption.
Qed.

(** Decoding a string of even length with a character that is no hex digit
    reports the first such character. *)
Lemma hex_decode_bad_char (k : nat) s c :
  String.length s = (2 * k)%nat -> first_non_hex s = Some c ->
  exists data, hex_DecodeString s = (data, Some (ErrHexInvalidByte c)).
Proof.
  revert s. induction k as [|k IH]; intros s Hlen Hbad.
  - destruct s; discriminate.
  - destruct s as [|p [|q s]]; try (cbn in Hlen; lia).
    cbn [first_non_hex] in Hbad. cbn [hex_DecodeString].
    destruct (is_hex p) eqn:Hp.
    + destruct (hex_digit_value p Hp) as (a & -> & _).
      destruct (is_hex q) eqn:Hq.
      * destruct (hex_digit_value q Hq) as (b & -> & _).
        destruct (IH s) as (data & ->); [cbn in Hlen; lia | assumption |].
        now eexists.
      * rewrite (non_hex_digit q Hq). injection Hbad as <-. now eexists.
    + rewrite (non_hex_digit p Hp). injection Hbad as <-. now eexists.
Qed.

(** X10. Errors of [NewBitSetFromHex]: an invalid bit length gives the
    bit-length error, whatever the string; with a valid one, a string of
    another length than [numBits/4] gives the length error, a string of that
    length with a character outside [0-9a-fA-F] gives the invalid-byte error
    of the first such character, and a string of that length of hex digits
    of either case gives a BitSet of [numBits] bits that satisfies the
    invariant. These are all the outcomes: the odd-length error of the
    decoder, the "internal error" of the byte count check and a panic are
    never returned. *)
Theorem hex_constructor_outcomes n s :
  (~ (0 < n /\ Z.rem n 64 = 0) ->
     NewBitSetFromHex n s = Err (ErrNumBits n)) /\
  (0 < n /\ Z.rem n 64 = 0 ->
     (slen s <> Z.quot n 4 ->
        NewBitSetFromHex n s = Err (ErrHexLen (Z.quot n 4) (slen s))) /\
     (slen s = Z.quot n 4 -> forall c, first_non_hex s = Some c ->
        NewBitSetFromHex n s = Err (ErrHexInvalidByte c)) /\
     (slen s = Z.quot n 4 -> all_hex s = true ->
        exists b, NewBitSetFromHex n s = Ok b /\ wf b /\ NumBits b = n)) /\
  NewBitSetFromHex n s <> Err ErrHexOddLength /\
  (forall x y, NewBitSetFromHex n s <> Err (ErrHexDecodeMismatch x y)) /\
  (forall p, NewBitSetFromHex n s <> Panic p).
Proof.
  assert (Hbad : ~ (0 < n /\ Z.rem n 64 = 0) ->
                 NewBitSetFromHex n s = Err (ErrNumBits n)).
  { intros H. unfold NewBitSetFromHex. now rewrite (proj2 (bad_numBits_true n)). }
  assert (Hlen : 0 < n /\ Z.rem n 64 = 0 -> slen s <> Z.quot n 4 ->
                 NewBitSetFromHex n s = Err (ErrHexLen (Z.quot n 4) (slen s))).
  { intros Hv H. unfold NewBitSetFromHex.
    rewrite (proj2 (bad_numBits_false n)) by assumption.
    destruct (Z.eqb_spec (slen s) (Z.quot n 4)); [contradiction | reflexivity]. }
  assert (Hchr : 0 < n /\ Z.rem n 64 = 0 -> slen s = Z.quot n 4 ->
                 forall c, first_non_hex s = Some c ->
                 NewBitSetFromHex n s = Err (ErrHexInvalidByte c)).
  { intros [Hn Hr] Hs c Hc.
    destruct (aligned_words n Hn Hr) as (k & _ & _ & _ & _ & Hq4).
    destruct (hex_decode_bad_char (8 * k) s c) as (data & Hdec);
      [unfold slen in Hs; lia | assumption |].
    unfold NewBitSetFromHex. rewrite (proj2 (bad_numBits_false n)) by tauto.
    now rewrite Hs, Z.eqb_refl, Hdec. }
  assert (Hok : 0 < n /\ Z.rem n 64 = 0 -> slen s = Z.quot n 4 ->
                all_hex s = true ->
                exists b, NewBitSetFromHex n s = Ok b /\ wf b /\ NumBits b = n).
  { intros [Hn Hr] Hs Hhex.
    destruct (aligned_words n Hn Hr) as (k & _ & _ & Hq & Hq8 & Hq4).
    destruct (hex_decode_any_case (8 * k) s) as (data & Hdec & _ & Hl & _);
      [unfold slen in Hs; lia | assumption |].
    assert (Hdata : len data = Z.quot n 8) by (unfold len; lia).
    eexists. split; [now apply (NewBitSetFromHex_Ok n s data)|].
    split; [now apply NewBitSetFromHex_wf | reflexivity]. }
  split; [assumption|]. split; [auto|].
  assert (Hcases : (exists e, NewBitSetFromHex n s = Err e /\
                      ((e = ErrNumBits n) \/ (e = ErrHexLen (Z.quot n 4) (slen s)) \/
                       exists c, e = ErrHexInvalidByte c)) \/
                   exists b, NewBitSetFromHex n s = Ok b).
  { destruct (decide (0 < n /\ Z.rem n 64 = 0)) as [Hv|Hv];
      [|left; eexists; split; [now apply Hbad | auto]].
    destruct (decide (slen s = Z.quot n 4)) as [Hs|Hs];
      [|left; eexists; split; [now apply Hlen | auto]].
    destruct (first_non_hex s) as [c|] eqn:Hc.
    - left. eexists. split; [now apply (Hchr Hv Hs c) | eauto].
    - right. apply all_hex_first_non_hex in Hc.
      destruct (Hok Hv Hs Hc) as (b & Hb & _). now exists b. }
  destruct Hcases as [(e & -> & [->|[->|[c ->]]])|[b ->]];
    repeat split; intros; discriminate.
Qed.

Lemma hex_constructor_outcomes_witness :
  NewBitSetFromHex 63 "0123456789abcdef" = Err (ErrNumBits 63) /\
  NewBitSetFromHex 64 "123" = Err (ErrHexLen 16 3) /\
  NewBitSetFromHex 64 "0123456789abcdeg" = Err (ErrHexInvalidByte "g") /\
  exists b, NewBitSetFromHex 64 "0123456789ABCdef" = Ok b /\ wf b /\
            NumBits b = 64.
Proof.
  split; [|split; [|split]].
  - apply (proj1 (hex_constructor_outcomes 63 "0123456789abcdef")).
    intros [_ H]. vm_compute in H. discriminate H.
  - apply (proj1 (proj1 (proj2 (hex_constructor_outcomes 64 "123"))
                    ltac:(split; [lia | reflexivity]))).
    vm_compute. discriminate.
  - apply (proj1 (proj2 (proj1 (proj2 (hex_constructor_outcomes 64 "0123456789abcdeg"))
                    ltac:(split; [lia | reflexivity])))); reflexivity.
  - apply (proj2 (proj2 (proj1 (proj2 (hex_constructor_outcomes 64 "0123456789ABCdef"))
                    ltac:(split; [lia | reflexivity])))); reflexivity.
Defined.

Lemma lower_hex_digit_value c :
  is_hex c = true ->
  is_lower_hex (lower_hex c) = true /\ fromHexChar (lower_hex c) = fromHexChar c.
Proof.
  destruct c as [[] [] [] [] [] [] [] []]; intros H; try discriminate H;
    split; reflexivity.
Qed.

Lemma lower_hex_string_length s :
  String.length (lower_hex_string s) = String.length s.
Proof. induction s as [|c s IH]; [reflexivity|]. cbn. now rewrite IH. Qed.

Lemma lower_hex_string_decode (k : nat) s :
  String.length s = (2 * k)%nat -> all_hex s = true ->
  hex_DecodeString (lower_hex_string s) = hex_DecodeString s /\
  all_lower_hex (lower_hex_string s) = true.
Proof.
  revert s. induction k as [|k IH]; intros s Hlen Hhex.
  - destruct s; [|discriminate]. split; reflexivity.
  - destruct s as [|p [|q s]]; try (cbn in Hlen; lia).
    cbn [all_hex] in Hhex.
    apply andb_true_iff in Hhex as [Hp Hhex].
    apply andb_true_iff in Hhex as [Hq Hhex].
    destruct (lower_hex_digit_value p Hp) as [Lp Ep].
    destruct (lower_hex_digit_value q Hq) as [Lq Eq].
    destruct (IH s) as [Hdec Hlow]; [cbn in Hlen; lia | assumption |].
    destruct (hex_digit_value p Hp) as (a & Ea & _).
    destruct (hex_digit_value q Hq) as (b & Eb & _).
    cbn [lower_hex_string hex_DecodeString all_lower_hex].
    rewrite Ep, Eq, Ea, Eb, Hdec, Lp, Lq, Hlow. split; reflexivity.
Qed.

(** X11. Decoding ignores the case of the letters, encoding writes them in
    lower case: for a valid bit length [n] and a string [s] of [n/4] hex
    digits of either case, [NewBitSetFromHex n s] is the BitSet that the
    string with its letters in lower case decodes to, and [ToHex] of it is
    that lower-case string. *)
Theorem hex_case_insensitive n s :
  0 < n -> Z.rem n 64 = 0 -> slen s = Z.quot n 4 -> all_hex s = true ->
  exists b, NewBitSetFromHex n s = Ok b /\
            NewBitSetFromHex n (lower_hex_string s) = Ok b /\
            ToHex b = Ok (lower_hex_string s).
Proof.
  intros Hn Hr Hs Hhex.
  destruct (aligned_words n Hn Hr) as (k & _ & _ & Hq & Hq8 & Hq4).
  assert (Hlen : String.length s = (2 * (8 * k))%nat) by (unfold slen in Hs; lia).
  destruct (hex_decode_any_case (8 * k) s Hlen Hhex) as (data & Hdec & Hok & Hl & Henc).
  destruct (lower_hex_string_decode (8 * k) s Hlen Hhex) as [Hdec' _].
  assert (Hdata : len data = Z.quot n 8) by (unfold len; lia).
  exists (mkBitSet (words_of_bytes data) n (Z.quot n 64)).
  split; [now apply NewBitSetFromHex_Ok|].
  split.
  - apply NewBitSetFromHex_Ok; try assumption; [|congruence].
    unfold slen. now rewrite lower_hex_string_length.
  - rewrite ToHex_Ok; cbn [Words numWords].
    + now rewrite (flat_map_words_of_bytes k), Henc.
    + unfold len. rewrite (words_of_bytes_length k); lia.
Qed.

Lemma hex_case_insensitive_witness :
  exists b, NewBitSetFromHex 64 "0123456789ABCdeF" = Ok b /\
            NewBitSetFromHex 64 (lower_hex_string "0123456789ABCdeF") = Ok b /\
            ToHex b = Ok (lower_hex_string "0123456789ABCdeF").
Proof.
  apply hex_case_insensitive; [lia | reflexivity | reflexivity | reflexivity].
Defined.

Lemma hexdigit_value v : 0 <= v < 16 -> fromHexChar (hexdigit v) = Some v.
Proof.
  intros Hv.
  assert (H : v = 0 \/ v = 1 \/ v = 2 \/ v = 3 \/ v = 4 \/ v = 5 \/ v = 6 \/
              v = 7 \/ v = 8 \/ v = 9 \/ v = 10 \/ v = 11 \/ v = 12 \/
              v = 13 \/ v = 14 \/ v = 15) by lia.
  repeat (destruct H as [->|H]; [reflexivity|]). subst v. reflexivity.
Qed.

Lemma byte_of_nibbles v :
  byte_ok v -> Z.lor (Z.shiftl (Z.shiftr v 4) 4) (Z.land v 15) = v.
Proof.
  intros Hv. apply Z.bits_inj'. intros i Hi.
  change 15 with (Z.ones 4).
  rewrite Z.lor_spec, Z.shiftl_spec, Z.land_spec, Z.testbit_ones by lia.
  destruct (Z.leb_spec 0 i); [|lia]. cbn [andb].
  destruct (Z.ltb_spec i 4).
  - rewrite (Z.testbit_neg_r _ (i - 4)) by lia. cbn. apply andb_true_r.
  - rewrite Z.shiftr_spec by lia. rewrite andb_false_r, orb_false_r.
    f_equal. lia.
Qed.

Lemma hex_decode_of_encode (data : list Z) :
  Forall byte_ok data -> hex_DecodeString (hex_EncodeToString data) = (data, None).
Proof.
  induction 1 as [|v data Hv _ IH]; [reflexivity|].
  destruct (byte_nibbles v Hv) as [Hh Hl].
  cbn [hex_EncodeToString hex_DecodeString].
  now rewrite !hexdigit_value, IH, byte_of_nibbles by assumption.
Qed.

Lemma testbit_byte_shiftr w s m :
  0 <= s -> Z.testbit (byte_of (Z.shiftr w s)) m
            = (0 <=? m) && (m <? 8) && Z.testbit w (m + s).
Proof.
  intros Hs. destruct (Z.leb_spec 0 m) as [Hm|Hm].
  - rewrite testbit_byte_of, Z.shiftr_spec by lia. reflexivity.
  - now rewrite Z.testbit_neg_r by lia.
Qed.

(** Settles the comparisons of a goal whose operands are known. *)
Ltac decide_comparisons :=
  repeat match goal with
  | |- context [Z.leb ?a ?b] =>
      first [ rewrite (proj2 (Z.leb_le a b)) by lia
            | rewrite (proj2 (Z.leb_gt a b)) by lia ]
  | |- context [Z.ltb ?a ?b] =>
      first [ rewrite (proj2 (Z.ltb_lt a b)) by lia
            | rewrite (proj2 (Z.ltb_ge a b)) by lia ]
  end.

(** Packing the eight bytes of a word gives the word back. *)
Lemma word_of_bytes_of_word w :
  word_ok w ->
  word_of_bytes (byte_of (Z.shiftr w 56)) (byte_of (Z.shiftr w 48))
    (byte_of (Z.shiftr w 40)) (byte_of (Z.shiftr w 32))
    (byte_of (Z.shiftr w 24)) (byte_of (Z.shiftr w 16))
    (byte_of (Z.shiftr w 8)) (byte_of w) = w.
Proof.
  intros Hw. apply Z.bits_inj'. intros i Hi.
  destruct (Z.ltb_spec i 64) as [Hlt|Hge].
  - rewrite testbit_word_of_bytes by lia.
    rewrite <- (Z.shiftr_0_r w) at 8.
    rewrite !testbit_byte_shiftr by lia.
    replace (i - 56 + 56) with i by lia. replace (i - 48 + 48) with i by lia.
    replace (i - 40 + 40) with i by lia. replace (i - 32 + 32) with i by lia.
    replace (i - 24 + 24) with i by lia. replace (i - 16 + 16) with i by lia.
    replace (i - 8 + 8) with i by lia. replace (i - 0 + 0) with i by lia.
    destruct (Z.testbit w i); [|now rewrite !andb_false_r].
    rewrite !andb_true_r.
    assert (Hoct : i < 8 \/ 8 <= i < 16 \/ 16 <= i < 24 \/ 24 <= i < 32 \/
                   32 <= i < 40 \/ 40 <= i < 48 \/ 48 <= i < 56 \/ 56 <= i)
      by lia.
    destruct Hoct as [H|[H|[H|[H|[H|[H|[H|H]]]]]]];
      decide_comparisons; reflexivity.
  - rewrite (testbit_word_high w) by assumption.
    apply testbit_word_high; [apply word_of_bytes_ok | assumption].
Qed.

Lemma words_of_bytes_of_words (ws : list Z) :
  Forall word_ok ws -> words_of_bytes (flat_map bytes_of_word ws) = ws.
Proof.
  induction 1 as [|w ws Hw _ IH]; [reflexivity|].
  cbn [flat_map bytes_of_word app words_of_bytes].
  now rewrite word_of_bytes_of_word, IH.
Qed.

(** X12. The round trip from a BitSet: for a BitSet [b] that satisfies the
    invariant, [ToHex] returns a string that [NewBitSetFromHex] decodes, at
    the bit length of [b], to [b] itself; [String] returns that string after
    "0x"; and two such BitSets with the same [ToHex] are the same BitSet. *)
Theorem hex_round_trip_from_bitset b :
  wf b ->
  exists s, ToHex b = Ok s /\
    BitSet_String b = Ok (String "0" (String "x" s)) /\
    NewBitSetFromHex (NumBits b) s = Ok b /\
    forall a, wf a -> ToHex a = Ok s -> a = b.
Proof.
  intros Hb. pose proof Hb as [Hp Hal Hw Hl Hws].
  destruct (aligned_words _ Hp Hal) as (k & _ & Hn & Hq & Hq8 & Hq4).
  set (data := flat_map bytes_of_word (Words b)).
  assert (Hdl : length data = (8 * k)%nat).
  { unfold data. rewrite flat_map_bytes_length. unfold len in Hl. lia. }
  assert (Hfrom : NewBitSetFromHex (NumBits b) (hex_EncodeToString data) = Ok b).
  { rewrite (NewBitSetFromHex_Ok _ _ data); try assumption.
    - unfold data. rewrite words_of_bytes_of_words by assumption.
      rewrite <- Hw. now destruct b.
    - unfold slen. rewrite hex_encode_length. lia.
    - apply hex_decode_of_encode, flat_map_bytes_ok.
    - unfold len. lia. }
  exists (hex_EncodeToString data).
  split; [now apply ToHex_Ok|].
  split; [unfold BitSet_String; now rewrite ToHex_Ok|].
  split; [assumption|].
  intros a Ha Hsa.
  assert (Hna : NumBits a = NumBits b).
  { pose proof Ha as [Hpa Hala Hwa Hla _].
    destruct (aligned_words _ Hpa Hala) as (ka & _ & Hna & Hqa & _).
    rewrite ToHex_Ok in Hsa by assumption. injection Hsa as Hsa.
    apply (f_equal String.length) in Hsa.
    rewrite !hex_encode_length, flat_map_bytes_length in Hsa.
    unfold len in *. lia. }
  assert (Hfa : NewBitSetFromHex (NumBits a) (hex_EncodeToString data) = Ok a).
  { pose proof Ha as [Hpa Hala Hwa Hla Hwsa].
    destruct (aligned_words _ Hpa Hala) as (ka & _ & Hna' & Hqa & Hqa8 & Hqa4).
    rewrite ToHex_Ok in Hsa by assumption. injection Hsa as Hsa. rewrite <- Hsa.
    rewrite (NewBitSetFromHex_Ok _ _ (flat_map bytes_of_word (Words a)));
      try assumption.
    - rewrite words_of_bytes_of_words by assumption.
      rewrite <- Hwa. now destruct a.
    - unfold slen. rewrite hex_encode_length, flat_map_bytes_length.
      unfold len in *. lia.
    - apply hex_decode_of_encode, flat_map_bytes_ok.
    - unfold len in *. rewrite flat_map_bytes_length. lia. }
  rewrite Hna in Hfa. congruence.
Qed.

Lemma hex_round_trip_from_bitset_witness :
  exists s, ToHex sample_a = Ok s /\
    BitSet_String sample_a = Ok (String "0" (String "x" s)) /\
    NewBitSetFromHex (NumBits sample_a) s = Ok sample_a /\
    forall a, wf a -> ToHex a = Ok s -> a = sample_a.
Proof. apply hex_round_trip_from_bitset, sample_a_wf. Defined.

Lemma sample_entry_wf : entry_wf sample_entry.
Proof.
  exists sample_a, sample_b, sample_c, sample_a.
  split; [reflexivity|].
  repeat split; try apply sample_a_wf; try apply sample_b_wf; apply sample_c_wf.
Qed.

Lemma sample_entry'_wf : entry_wf sample_entry'.
Proof.
  exists sample_b, sample_b, sample_c, sample_a.
  split; [reflexivity|].
  repeat split; try apply sample_a_wf; try apply sample_b_wf; apply sample_c_wf.
Qed.

(** [Equals] decides equality of BitSets that satisfy the invariant. *)
Lemma Equals_decides a b :
  wf a -> wf b -> Equals a b = Ok (bool_decide (a = b)).
Proof.
  intros Ha Hb. destruct (decide (NumBits a = NumBits b)) as [Hn|Hn].
  - rewrite Equals_same_size by assumption. f_equal. apply bool_decide_ext.
    split; [now apply BitSet_eq | now intros ->].
  - rewrite Equals_differ by assumption.
    rewrite bool_decide_eq_false_2; [reflexivity|]. now intros ->.
Qed.

Lemma Entry_Equals_decides e o :
  entry_wf e -> entry_wf o ->
  Entry_Equals (Some e) (Some o) = Ok (bool_decide (e = o)).
Proof.
  intros (d & g & n & v & -> & Hd & Hg & Hn & Hv)
         (d' & g' & n' & v' & -> & Hd' & Hg' & Hn' & Hv').
  unfold Entry_Equals, field_Equals.
  cbn [Domain Group Name Value deref mbind result_bind].
  rewrite !Equals_decides by assumption. cbn [mbind result_bind].
  repeat case_bool_decide; cbn [negb]; try reflexivity; congruence.
Qed.

(** X13. [Entry.Equals] is equality of Entries: it returns false when either
    Entry is nil; on Entries whose fields all point to BitSets satisfying the
    invariant it returns true exactly when the two Entries hold the same four
    BitSets, whichever is the receiver; when the Domain fields differ it
    returns false without looking at the other fields, which may be nil; and
    it panics when the Domain field of either Entry is nil. *)
Theorem entry_equals_is_equality :
  (forall x, Entry_Equals None x = Ok false /\ Entry_Equals x None = Ok false) /\
  (forall e o, entry_wf e -> entry_wf o ->
     Entry_Equals (Some e) (Some o) = Ok (bool_decide (e = o)) /\
     Entry_Equals (Some o) (Some e) = Entry_Equals (Some e) (Some o)) /\
  (forall d d' g n v g' n' v', wf d -> wf d' -> d <> d' ->
     Entry_Equals (Some (mkEntry (Some d) g n v))
                  (Some (mkEntry (Some d') g' n' v')) = Ok false) /\
  (forall e o, Domain e = None \/ Domain o = None ->
     Entry_Equals (Some e) (Some o) = Panic PanicNil).
Proof.
  split; [|split; [|split]].
  - intros [e|]; split; reflexivity.
  - intros e o He Ho. rewrite !Entry_Equals_decides by assumption.
    split; [reflexivity|]. f_equal. apply bool_decide_ext. split; congruence.
  - intros d d' g n v g' n' v' Hd Hd' Hne.
    unfold Entry_Equals, field_Equals.
    cbn [Domain deref mbind result_bind].
    rewrite Equals_decides by assumption.
    rewrite bool_decide_eq_false_2 by assumption. reflexivity.
  - intros [d g n v] [d' g' n' v']. cbn [Domain]. intros [->| ->].
    + reflexivity.
    + destruct d; reflexivity.
Qed.

Lemma entry_equals_is_equality_witness :
  (Entry_Equals (Some sample_entry) (Some sample_entry')
   = Ok (bool_decide (sample_entry = sample_entry')) /\
   Entry_Equals (Some sample_entry') (Some sample_entry)
   = Entry_Equals (Some sample_entry) (Some sample_entry')) /\
  Entry_Equals (Some (mkEntry (Some sample_a) None None None))
               (Some (mkEntry (Some sample_b) None None None)) = Ok false /\
  Entry_Equals (Some (mkEntry None None None None)) (Some sample_entry)
  = Panic PanicNil.
Proof.
  split; [|split].
  - apply (proj1 (proj2 entry_equals_is_equality));
      [apply sample_entry_wf | apply sample_entry'_wf].
  - apply (proj1 (proj2 (proj2 entry_equals_is_equality)));
      [apply sample_a_wf | apply sample_b_wf | discriminate].
  - apply (proj2 (proj2 (proj2 entry_equals_is_equality))). left. reflexivity.
Defined.

(** *** Entry.Not *)

Lemma Not_no_Err a e : Not a <> Err e.
Proof.
  unfold Not, make. destruct (numWords a <? 0); [discriminate|].
  cbn [mbind result_bind].
  destruct (for_range _ _ _) as [r|e'|p] eqn:E; cbn; try discriminate.
  exfalso. revert E. apply for_loop_no_Err. intros i s e0.
  destruct (index (Words a) i) as [x|?|?] eqn:Ex; cbn;
    [|now apply index_no_Err in Ex | discriminate].
  apply store_no_Err.
Qed.

Lemma field_Not_no_Err x e : lift (field_Not x) <> Failed e.
Proof.
  destruct x as [a|]; [|discriminate]. unfold field_Not.
  cbn [deref mbind result_bind].
  destruct (Not a) as [r|e'|p] eqn:E; cbn [lift]; try discriminate.
  now apply Not_no_Err in E.
Qed.

Lemma Not_wf_Ok a :
  wf a -> Not a = Ok (mkBitSet (map not64 (Words a)) (NumBits a) (numWords a)).
Proof. intros Ha. apply Not_Ok, Ha. Qed.

(** A BitSet is never its own complement. *)
Lemma Not_differs a :
  wf a -> mkBitSet (map not64 (Words a)) (NumBits a) (numWords a) <> a.
Proof.
  intros [Hp Hal Hw Hl _] E.
  destruct (aligned_words _ Hp Hal) as (k & Hk & _ & Hq & _).
  destruct a as [ws n nw]. cbn [Words NumBits numWords] in *.
  injection E as E. unfold len in Hl.
  destruct ws as [|w ws]; [cbn in Hl; lia|].
  cbn [map] in E. injection E as E _.
  apply (f_equal (fun z => Z.testbit z 0)) in E.
  rewrite testbit_not64 in E by lia. cbn [Z.ltb Z.compare andb] in E.
  now destruct (Z.testbit w 0).
Qed.

Lemma Not_Not_wf a :
  wf a ->
  Not (mkBitSet (map not64 (Words a)) (NumBits a) (numWords a)) = Ok a.
Proof.
  intros Ha. rewrite Not_wf_Ok by now apply Not_wf. cbn [Words NumBits numWords].
  rewrite map_not64_involutive by apply Ha. now destruct a.
Qed.

(** X14. [Entry.Not]: a nil Entry gives the error "cannot NOT nil Entry",
    the only error the method returns; on an Entry whose fields satisfy the
    invariant it returns the Entry of the four complements, which differs
    from the receiver and whose own complement is the receiver again; and it
    panics when the Domain field is nil. *)
Theorem entry_not_involutive :
  Entry_Not None = Failed ErrNotNilEntry /\
  (forall e err, Entry_Not (Some e) <> Failed err) /\
  (forall d g n v, wf d -> wf g -> wf n -> wf v ->
     exists d' g' n' v',
       Not d = Ok d' /\ Not g = Ok g' /\ Not n = Ok n' /\ Not v = Ok v' /\
       let e := mkEntry (Some d) (Some g) (Some n) (Some v) in
       let e' := mkEntry (Some d') (Some g') (Some n') (Some v') in
       Entry_Not (Some e) = Done e' /\ entry_wf e' /\
       Entry_Not (Some e') = Done e /\
       Entry_Equals (Some e) (Some e') = Ok false) /\
  (forall e, Domain e = None -> Entry_Not (Some e) = Panicked PanicNil).
Proof.
  split; [reflexivity|]. split; [|split].
  - intros [d g n v] err. unfold Entry_Not. cbn [Domain Group Name Value].
    destruct (lift (field_Not d)) as [d'|e1|p1] eqn:E1; cbn [mbind eresult_bind];
      [|now apply field_Not_no_Err in E1 | discriminate].
    destruct (lift (field_Not g)) as [g'|e2|p2] eqn:E2; cbn [mbind eresult_bind];
      [|now apply field_Not_no_Err in E2 | discriminate].
    destruct (lift (field_Not n)) as [n'|e3|p3] eqn:E3; cbn [mbind eresult_bind];
      [|now apply field_Not_no_Err in E3 | discriminate].
    destruct (lift (field_Not v)) as [v'|e4|p4] eqn:E4; cbn [mbind eresult_bind];
      [|now apply field_Not_no_Err in E4 | discriminate].
    discriminate.
  - intros d g n v Hd Hg Hn Hv.
    eexists _, _, _, _.
    split; [now apply Not_wf_Ok|]. split; [now apply Not_wf_Ok|].
    split; [now apply Not_wf_Ok|]. split; [now apply Not_wf_Ok|].
    cbn zeta. unfold Entry_Not, field_Not.
    cbn [Domain Group Name Value deref mbind result_bind].
    rewrite !Not_wf_Ok by assumption.
    rewrite !Not_Not_wf by assumption.
    cbn [lift mbind eresult_bind].
    assert (Hwf' : entry_wf
      (mkEntry (Some (mkBitSet (map not64 (Words d)) (NumBits d) (numWords d)))
               (Some (mkBitSet (map not64 (Words g)) (NumBits g) (numWords g)))
               (Some (mkBitSet (map not64 (Words n)) (NumBits n) (numWords n)))
               (Some (mkBitSet (map not64 (Words v)) (NumBits v) (numWords v))))).
    { eexists _, _, _, _. split; [reflexivity|].
      repeat split; now apply Not_wf. }
    split; [reflexivity|]. split; [exact Hwf'|]. split; [reflexivity|].
    rewrite Entry_Equals_decides;
      [|now exists d, g, n, v | exact Hwf'].
    rewrite bool_decide_eq_false_2; [reflexivity|].
    intros E. injection E as E _ _ _. symmetry in E. now apply Not_differs in E.
  - intros [d g n v]. cbn [Domain]. now intros ->.
Qed.

Lemma entry_not_involutive_witness :
  (exists d' g' n' v',
     Not sample_a = Ok d' /\ Not sample_b = Ok g' /\ Not sample_c = Ok n' /\
     Not sample_a = Ok v' /\
     let e := mkEntry (Some sample_a) (Some sample_b) (Some sample_c) (Some sample_a) in
     let e' := mkEntry (Some d') (Some g') (Some n') (Some v') in
     Entry_Not (Some e) = Done e' /\ entry_wf e' /\
     Entry_Not (Some e') = Done e /\
     Entry_Equals (Some e) (Some e') = Ok false) /\
  Entry_Not (Some (mkEntry None (Some sample_a) None None)) = Panicked PanicNil.
Proof.
  split.
  - apply (proj1 (proj2 (proj2 entry_not_involutive)));
      try apply sample_a_wf; try apply sample_b_wf; apply sample_c_wf.
  - apply (proj2 (proj2 (proj2 entry_not_involutive))). reflexivity.
Defined.

(** *** NewAllOnesEntry *)

Lemma word_ok_ones : word_ok (Z.ones 64).
Proof. unfold word_ok. rewrite Z.ones_equiv. lia. Qed.

Lemma fillAllOnes_Ok bitLen (k : nat) :
  fillAllOnes bitLen (Z.of_nat k)
  = Ok (mkBitSet (replicate k (Z.ones 64)) bitLen (Z.of_nat k)).
Proof.
  unfold fillAllOnes. rewrite make_nat. cbn [mbind result_bind].
  pose proof (for_range_fill (fun i b => store b i (not64 0))
                (replicate k (Z.ones 64)) (replicate k 0)) as HF.
  unfold len in HF. rewrite !length_replicate in HF.
  rewrite HF; [reflexivity| |reflexivity].
  intros i x res Hx _. apply lookup_replicate in Hx as [-> _]. reflexivity.
Qed.

Lemma nth_replicate_lt (i n : nat) (x : Z) :
  (i < n)%nat -> nth i (replicate n x) 0 = x.
Proof.
  revert i. induction n as [|n IH]; intros [|i] H; cbn; try lia; try reflexivity.
  apply IH. lia.
Qed.

Lemma CountOnes_replicate_ones (m : nat) n k :
  CountOnes (mkBitSet (replicate m (Z.ones 64)) n k) = 64 * Z.of_nat m.
Proof.
  induction m as [|m IH]; [reflexivity|]. cbn [replicate].
  rewrite CountOnes_cons, IH, OnesCount64_ones. lia.
Qed.

Lemma all_ones_wf n (k : nat) :
  0 < n -> Z.rem n 64 = 0 -> Z.quot n 64 = Z.of_nat k ->
  wf (mkBitSet (replicate k (Z.ones 64)) n (Z.of_nat k)).
Proof.
  intros Hp Hal Hq. split; cbn [Words NumBits numWords]; try assumption.
  - now symmetry.
  - unfold len. now rewrite length_replicate.
  - apply Forall_replicate, word_ok_ones.
Qed.

Lemma all_zeros_wf n (k : nat) :
  0 < n -> Z.rem n 64 = 0 -> Z.quot n 64 = Z.of_nat k ->
  wf (mkBitSet (replicate k 0) n (Z.of_nat k)).
Proof.
  intros Hp Hal Hq. apply (NewBitSet_wf n).
  rewrite NewBitSet_valid by assumption. now rewrite Hq, Nat2Z.id.
Qed.

Lemma hex_encode_ones (k : nat) :
  hex_EncodeToString (flat_map bytes_of_word (replicate k (Z.ones 64)))
  = string_repeat "f" (16 * k).
Proof.
  induction k as [|k IH]; [reflexivity|].
  replace (16 * S k)%nat with (16 + 16 * k)%nat by lia.
  cbn [replicate flat_map].
  change (bytes_of_word (Z.ones 64))
    with [255; 255; 255; 255; 255; 255; 255; 255].
  cbn [app hex_EncodeToString].
  change (hexdigit (Z.shiftr 255 4)) with "f"%char.
  change (hexdigit (Z.land 255 15)) with "f"%char.
  rewrite IH. reflexivity.
Qed.

(** X15. [NewAllOnesEntry] fails, with its own message, exactly on a bit
    length that is not a positive multiple of 64. On a positive multiple
    of 64 whose words, 8 bytes each, are within the runtime's limit on one
    allocation, it returns an Entry whose four fields hold the same BitSet:
    one of the bit length asked for that satisfies the invariant, has every
    bit set (so that [CountOnes] is the bit length and [ToHex] is all [f]),
    and is the complement of the BitSet [NewBitSet] returns. *)
Theorem all_ones_entry bitLen :
  (~ (0 < bitLen /\ Z.rem bitLen 64 = 0) ->
     NewAllOnesEntry bitLen = Failed (ErrBitLen bitLen)) /\
  (0 < bitLen -> Z.rem bitLen 64 = 0 -> Z.quot bitLen 64 * 8 <= maxAlloc ->
     exists b zero,
       NewAllOnesEntry bitLen
       = Done (mkEntry (Some b) (Some b) (Some b) (Some b)) /\
       wf b /\ NumBits b = bitLen /\ CountOnes b = bitLen /\
       (forall i, 0 <= i < bitLen -> TestBit b i = Ok true) /\
       IsZero b = false /\
       ToHex b = Ok (string_repeat "f" (Z.to_nat (Z.quot bitLen 4))) /\
       NewBitSet bitLen = Ok zero /\ Not zero = Ok b /\ Not b = Ok zero).
Proof.
  split.
  - intros H. unfold NewAllOnesEntry.
    now rewrite (proj2 (bad_numBits_true bitLen) H).
  - intros Hp Hal _.
    destruct (aligned_words _ Hp Hal) as (k & Hk & Hn & Hq & _ & Hq4).
    pose proof (all_ones_wf _ _ Hp Hal Hq) as Hwf.
    pose proof (all_zeros_wf _ _ Hp Hal Hq) as Hzwf.
    exists (mkBitSet (replicate k (Z.ones 64)) bitLen (Z.of_nat k)),
           (mkBitSet (replicate k 0) bitLen (Z.of_nat k)).
    split.
    { unfold NewAllOnesEntry.
      rewrite (proj2 (bad_numBits_false bitLen) (conj Hp Hal)).
      cbn zeta. rewrite Hq, !fillAllOnes_Ok. reflexivity. }
    split; [exact Hwf|]. split; [reflexivity|].
    split; [rewrite CountOnes_replicate_ones; lia|].
    split.
    { intros i Hi. rewrite TestBit_valid by (assumption || (cbn; lia)).
      unfold word_bit. cbn [Words].
      assert (Hqi : 0 <= Z.quot i 64 < Z.of_nat k).
      { split; [apply Z.quot_pos; lia|]. apply Z.quot_lt_upper_bound; lia. }
      rewrite nth_replicate_lt by lia.
      rewrite Z.ones_spec_low; [reflexivity|].
      pose proof (Z.rem_bound_pos i 64). lia. }
    split.
    { unfold IsZero. cbn [Words]. destruct k as [|k]; [lia|]. reflexivity. }
    split.
    { rewrite ToHex_Ok by apply Hwf. cbn [Words].
      rewrite hex_encode_ones, Hq4, Nat2Z.id. reflexivity. }
    split; [rewrite NewBitSet_valid by assumption; now rewrite Hq, Nat2Z.id|].
    split.
    + rewrite Not_Ok by apply Hzwf. cbn [Words NumBits numWords].
      do 2 f_equal. clear. induction k as [|k IH]; [reflexivity|].
      cbn [replicate map]. now rewrite IH.
    + rewrite Not_Ok by apply Hwf. cbn [Words NumBits numWords].
      do 2 f_equal. clear. induction k as [|k IH]; [reflexivity|].
      cbn [replicate map]. now rewrite IH.
Qed.

Lemma all_ones_entry_witness :
  NewAllOnesEntry 100 = Failed (ErrBitLen 100) /\
  exists b zero,
    NewAllOnesEntry 128
    = Done (mkEntry (Some b) (Some b) (Some b) (Some b)) /\
    wf b /\ NumBits b = 128 /\ CountOnes b = 128 /\
    (forall i, 0 <= i < 128 -> TestBit b i = Ok true) /\
    IsZero b = false /\
    ToHex b = Ok (string_repeat "f" (Z.to_nat (Z.quot 128 4))) /\
    NewBitSet 128 = Ok zero /\ Not zero = Ok b /\ Not b = Ok zero.
Proof.
  split.
  - apply (proj1 (all_ones_entry 100)). intros [_ H]. vm_compute in H.
    discriminate H.
  - apply (proj2 (all_ones_entry 128));
      [lia | reflexivity | vm_compute; discriminate].
Defined.

(** *** Entries of all ones and all zeros under the binary operations *)

Lemma land_ones_word w : word_ok w -> Z.land w (Z.ones 64) = w.
Proof.
  intros Hw. rewrite Z.land_ones by lia. apply Z.mod_small. exact Hw.
Qed.

Lemma lor_ones_word w : word_ok w -> Z.lor w (Z.ones 64) = Z.ones 64.
Proof.
  intros Hw. apply Z.bits_inj'. intros i Hi. rewrite Z.lor_spec.
  destruct (Z.ltb_spec i 64).
  - rewrite Z.ones_spec_low by lia. apply orb_true_r.
  - rewrite Z.ones_spec_high by lia. rewrite testbit_word_high by assumption.
    reflexivity.
Qed.

Lemma lxor_ones_word w : word_ok w -> Z.lxor w (Z.ones 64) = not64 w.
Proof.
  intros Hw. apply Z.bits_inj'. intros i Hi.
  rewrite Z.lxor_spec, testbit_not64 by lia.
  destruct (Z.ltb_spec i 64).
  - rewrite Z.ones_spec_low by lia. now destruct (Z.testbit w i).
  - rewrite Z.ones_spec_high by lia. rewrite testbit_word_high by assumption.
    reflexivity.
Qed.

Lemma zip_with_const_r (f : Z -> Z -> Z) (g : Z -> Z) (c : Z) (l : list Z) :
  Forall (fun x => f x c = g x) l ->
  zip_with f l (replicate (length l) c) = map g l.
Proof.
  induction 1 as [|x l Hx _ IH]; [reflexivity|].
  cbn [length replicate zip_with map]. now rewrite Hx, IH.
Qed.

Lemma map_const (c : Z) (l : list Z) :
  map (fun _ => c) l = replicate (length l) c.
Proof. induction l as [|x l IH]; [reflexivity|]. cbn. now rewrite IH. Qed.

Lemma zip_with_not_r (f : Z -> Z -> Z) (c : Z) (l : list Z) :
  Forall (fun x => f x (not64 x) = c) l ->
  zip_with f l (map not64 l) = replicate (length l) c.
Proof.
  induction 1 as [|x l Hx _ IH]; [reflexivity|].
  cbn [length replicate zip_with map]. now rewrite Hx, IH.
Qed.

(** What the word operations give on a BitSet [a] against the all-ones
    BitSet, the all-zeros BitSet and the complement of [a]. *)
Lemma ones_zeros_words a :
  wf a ->
  let m := length (Words a) in
  zip_with Z.land (Words a) (replicate m (Z.ones 64)) = Words a /\
  zip_with Z.lor (Words a) (replicate m (Z.ones 64)) = replicate m (Z.ones 64) /\
  zip_with Z.lxor (Words a) (replicate m (Z.ones 64)) = map not64 (Words a) /\
  zip_with Z.land (Words a) (replicate m 0) = replicate m 0 /\
  zip_with Z.lor (Words a) (replicate m 0) = Words a /\
  zip_with Z.land (Words a) (map not64 (Words a)) = replicate m 0 /\
  zip_with Z.lor (Words a) (map not64 (Words a)) = replicate m (Z.ones 64).
Proof.
  intros Ha m. pose proof (wf_words a Ha) as Hws. subst m.
  repeat split.
  - rewrite (zip_with_const_r _ (fun x => x)); [apply map_same|].
    eapply Forall_impl; [exact Hws|]. apply land_ones_word.
  - rewrite (zip_with_const_r _ (fun _ => Z.ones 64)); [apply map_const|].
    eapply Forall_impl; [exact Hws|]. apply lor_ones_word.
  - apply zip_with_const_r.
    eapply Forall_impl; [exact Hws|]. apply lxor_ones_word.
  - rewrite (zip_with_const_r _ (fun _ => 0)); [apply map_const|].
    apply Forall_forall. intros x _. apply Z.land_0_r.
  - rewrite (zip_with_const_r _ (fun x => x)); [apply map_same|].
    apply Forall_forall. intros x _. apply Z.lor_0_r.
  - apply zip_with_not_r. apply Forall_forall. intros x _. apply land_not64.
  - apply zip_with_not_r.
    eapply Forall_impl; [exact Hws|]. apply lor_not64.
Qed.

Lemma Entry_binop_Ok name f d g n v d' g' n' v' :
  wf d -> wf g -> wf n -> wf v -> wf d' -> wf g' -> wf n' -> wf v' ->
  NumBits d = NumBits d' -> NumBits g = NumBits g' ->
  NumBits n = NumBits n' -> NumBits v = NumBits v' ->
  Entry_binop name (wordwise f)
    (Some (mkEntry (Some d) (Some g) (Some n) (Some v)))
    (Some (mkEntry (Some d') (Some g') (Some n') (Some v')))
  = Ok (mkEntry
      (Some (mkBitSet (zip_with f (Words d) (Words d')) (NumBits d) (numWords d)))
      (Some (mkBitSet (zip_with f (Words g) (Words g')) (NumBits g) (numWords g)))
      (Some (mkBitSet (zip_with f (Words n) (Words n')) (NumBits n) (numWords n)))
      (Some (mkBitSet (zip_with f (Words v) (Words v')) (NumBits v) (numWords v)))).
Proof.
  intros. unfold Entry_binop. cbn [Domain Group Name Value].
  rewrite !check_field_agree by assumption. cbn [mbind result_bind].
  rewrite !apply_field_Ok by assumption. reflexivity.
Qed.

(** A BitSet that satisfies the invariant, against the all-ones and the
    all-zeros BitSet of its bit length. *)
Lemma same_shape a n (k : nat) :
  wf a -> NumBits a = n -> Z.quot n 64 = Z.of_nat k ->
  numWords a = Z.of_nat k /\ length (Words a) = k /\
  a = mkBitSet (Words a) n (Z.of_nat k).
Proof.
  intros [_ _ Hw Hl _] Hn Hq. destruct a as [ws n' nw].
  cbn [Words NumBits numWords] in *. subst n'. unfold len in Hl.
  rewrite Hq in Hw. subst nw.
  split; [reflexivity|]. split; [lia | reflexivity].
Qed.

(** X16. The all-ones Entry and the all-zeros Entry under the operations on
    Entries: for an Entry whose fields satisfy the invariant and all have the
    bit length [bitLen], AND with the Entry of [NewAllOnesEntry] gives the
    Entry back, OR gives the all-ones Entry and XOR gives the complement;
    the complement of the all-ones Entry is the all-zeros Entry, the unit of
    OR that absorbs under AND; and an Entry and its complement have the
    all-zeros Entry as AND and the all-ones Entry as OR. *)
Theorem all_ones_entry_laws bitLen d g n v :
  wf d -> wf g -> wf n -> wf v ->
  NumBits d = bitLen -> NumBits g = bitLen ->
  NumBits n = bitLen -> NumBits v = bitLen ->
  let e := mkEntry (Some d) (Some g) (Some n) (Some v) in
  exists z ones zeros e',
    NewBitSet bitLen = Ok z /\
    zeros = mkEntry (Some z) (Some z) (Some z) (Some z) /\
    NewAllOnesEntry bitLen = Done ones /\
    Entry_Not (Some ones) = Done zeros /\
    Entry_Not (Some zeros) = Done ones /\
    Entry_Not (Some e) = Done e' /\
    Entry_And (Some e) (Some ones) = Ok e /\
    Entry_Or (Some e) (Some ones) = Ok ones /\
    Entry_Xor (Some e) (Some ones) = Ok e' /\
    Entry_And (Some e) (Some zeros) = Ok zeros /\
    Entry_Or (Some e) (Some zeros) = Ok e /\
    Entry_And (Some e) (Some e') = Ok zeros /\
    Entry_Or (Some e) (Some e') = Ok ones.
Proof.
  intros Hd Hg Hn Hv Ed Eg En Ev e.
  assert (Hp : 0 < bitLen) by (rewrite <- Ed; apply Hd).
  assert (Hal : Z.rem bitLen 64 = 0) by (rewrite <- Ed; apply Hd).
  destruct (aligned_words _ Hp Hal) as (k & Hk & Hbl & Hq & _).
  pose proof (all_ones_wf _ _ Hp Hal Hq) as Hob.
  pose proof (all_zeros_wf _ _ Hp Hal Hq) as Hzb.
  set (ob := mkBitSet (replicate k (Z.ones 64)) bitLen (Z.of_nat k)) in *.
  set (zb := mkBitSet (replicate k 0) bitLen (Z.of_nat k)) in *.
  destruct (same_shape d _ _ Hd Ed Hq) as (Wd & Ld & Sd).
  destruct (same_shape g _ _ Hg Eg Hq) as (Wg & Lg & Sg).
  destruct (same_shape n _ _ Hn En Hq) as (Wn & Ln & Sn).
  destruct (same_shape v _ _ Hv Ev Hq) as (Wv & Lv & Sv).
  destruct (ones_zeros_words d Hd) as (D1 & D2 & D3 & D4 & D5 & D6 & D7).
  destruct (ones_zeros_words g Hg) as (G1 & G2 & G3 & G4 & G5 & G6 & G7).
  destruct (ones_zeros_words n Hn) as (N1 & N2 & N3 & N4 & N5 & N6 & N7).
  destruct (ones_zeros_words v Hv) as (V1 & V2 & V3 & V4 & V5 & V6 & V7).
  rewrite Ld in D1, D2, D3, D4, D5, D6, D7.
  rewrite Lg in G1, G2, G3, G4, G5, G6, G7.
  rewrite Ln in N1, N2, N3, N4, N5, N6, N7.
  rewrite Lv in V1, V2, V3, V4, V5, V6, V7.
  assert (Hnz : map not64 (replicate k 0) = replicate k (Z.ones 64)).
  { clear. induction k as [|k IH]; [reflexivity|].
    cbn [replicate map]. now rewrite IH. }
  assert (Hno : map not64 (replicate k (Z.ones 64)) = replicate k 0).
  { clear. induction k as [|k IH]; [reflexivity|].
    cbn [replicate map]. now rewrite IH. }
  exists zb, (mkEntry (Some ob) (Some ob) (Some ob) (Some ob)),
         (mkEntry (Some zb) (Some zb) (Some zb) (Some zb)),
         (mkEntry
            (Some (mkBitSet (map not64 (Words d)) (NumBits d) (numWords d)))
            (Some (mkBitSet (map not64 (Words g)) (NumBits g) (numWords g)))
            (Some (mkBitSet (map not64 (Words n)) (NumBits n) (numWords n)))
            (Some (mkBitSet (map not64 (Words v)) (NumBits v) (numWords v)))).
  split. { rewrite NewBitSet_valid by assumption. now rewrite Hq, Nat2Z.id. }
  split; [reflexivity|].
  split.
  { unfold NewAllOnesEntry.
    rewrite (proj2 (bad_numBits_false bitLen) (conj Hp Hal)).
    cbn zeta. rewrite Hq, !fillAllOnes_Ok. reflexivity. }
  split.
  { unfold Entry_Not, field_Not.
    cbn [Domain Group Name Value deref mbind result_bind].
    rewrite Not_wf_Ok by assumption. subst ob zb.
    cbn [Words NumBits numWords lift mbind eresult_bind]. now rewrite Hno. }
  split.
  { unfold Entry_Not, field_Not.
    cbn [Domain Group Name Value deref mbind result_bind].
    rewrite Not_wf_Ok by assumption. subst ob zb.
    cbn [Words NumBits numWords lift mbind eresult_bind]. now rewrite Hnz. }
  split.
  { unfold e, Entry_Not, field_Not.
    cbn [Domain Group Name Value deref mbind result_bind].
    rewrite !Not_wf_Ok by assumption. reflexivity. }
  assert (Hnd := Not_wf d Hd). assert (Hng := Not_wf g Hg).
  assert (Hnn := Not_wf n Hn). assert (Hnv := Not_wf v Hv).
  unfold e, Entry_And, Entry_Or, Entry_Xor, And, Or, Xor.
  rewrite !Entry_binop_Ok by (assumption || (cbn [NumBits]; congruence)).
  subst ob zb. cbn [Words NumBits numWords].
  rewrite D1, D2, D3, D4, D5, D6, D7, G1, G2, G3, G4, G5, G6, G7,
          N1, N2, N3, N4, N5, N6, N7, V1, V2, V3, V4, V5, V6, V7.
  rewrite Ed, Eg, En, Ev, Wd, Wg, Wn, Wv.
  rewrite <- Sd, <- Sg, <- Sn, <- Sv.
  repeat split; reflexivity.
Qed.

Lemma all_ones_entry_laws_witness :
  let e := mkEntry (Some sample_a) (Some sample_b) (Some sample_a) (Some sample_b) in
  exists z ones zeros e',
    NewBitSet 128 = Ok z /\
    zeros = mkEntry (Some z) (Some z) (Some z) (Some z) /\
    NewAllOnesEntry 128 = Done ones /\
    Entry_Not (Some ones) = Done zeros /\
    Entry_Not (Some zeros) = Done ones /\
    Entry_Not (Some e) = Done e' /\
    Entry_And (Some e) (Some ones) = Ok e /\
    Entry_Or (Some e) (Some ones) = Ok ones /\
    Entry_Xor (Some e) (Some ones) = Ok e' /\
    Entry_And (Some e) (Some zeros) = Ok zeros /\
    Entry_Or (Some e) (Some zeros) = Ok e /\
    Entry_And (Some e) (Some e') = Ok zeros /\
    Entry_Or (Some e) (Some e') = Ok ones.
Proof.
  apply (all_ones_entry_laws 128 sample_a sample_b sample_a sample_b);
    try apply sample_a_wf; try apply sample_b_wf; reflexivity.
Defined.

(** X17. [NewEntry] of package boolbits: it fails exactly when one of the
    four pointers is nil, with the error that names the first nil one, and
    otherwise returns the Entry of the four pointers, whatever their bit
    lengths; it never panics. An Entry it builds from BitSets that satisfy
    the invariant equals itself, is its own AND and OR, and has the Entry of
    four zero BitSets as its XOR with itself. *)
Theorem new_entry_outcomes :
  (forall d g n v,
     (forall f, NewEntry d g n v = Err (ErrNilBitSet f)
                <-> first_nil d g n v = Some f) /\
     (forall e, NewEntry d g n v = Ok e
                <-> first_nil d g n v = None /\ e = mkEntry d g n v) /\
     (forall p, NewEntry d g n v <> Panic p)) /\
  (forall d g n v, wf d -> wf g -> wf n -> wf v ->
     exists e zd zg zn zv,
       NewEntry (Some d) (Some g) (Some n) (Some v) = Ok e /\ entry_wf e /\
       Entry_Equals (Some e) (Some e) = Ok true /\
       Entry_And (Some e) (Some e) = Ok e /\
       Entry_Or (Some e) (Some e) = Ok e /\
       NewBitSet (NumBits d) = Ok zd /\ NewBitSet (NumBits g) = Ok zg /\
       NewBitSet (NumBits n) = Ok zn /\ NewBitSet (NumBits v) = Ok zv /\
       Entry_Xor (Some e) (Some e)
       = Ok (mkEntry (Some zd) (Some zg) (Some zn) (Some zv))).
Proof.
  split.
  - intros d g n v. split; [|split].
    + intros f. unfold NewEntry.
      destruct d, g, n, v; cbn; destruct f; split; congruence.
    + intros e. unfold NewEntry.
      destruct d, g, n, v; cbn; split;
        try (intros [? ?]); try split; congruence.
    + intros p. unfold NewEntry. destruct d, g, n, v; discriminate.
  - intros d g n v Hd Hg Hn Hv.
    assert (He : entry_wf (mkEntry (Some d) (Some g) (Some n) (Some v)))
      by now exists d, g, n, v.
    exists (mkEntry (Some d) (Some g) (Some n) (Some v)),
      (mkBitSet (replicate (length (Words d)) 0) (NumBits d) (numWords d)),
      (mkBitSet (replicate (length (Words g)) 0) (NumBits g) (numWords g)),
      (mkBitSet (replicate (length (Words n)) 0) (NumBits n) (numWords n)),
      (mkBitSet (replicate (length (Words v)) 0) (NumBits v) (numWords v)).
    split; [reflexivity|]. split; [exact He|].
    split.
    { rewrite Entry_Equals_decides by assumption.
      now rewrite bool_decide_eq_true_2. }
    rewrite !NewBitSet_like by assumption.
    unfold Entry_And, Entry_Or, Entry_Xor, And, Or, Xor.
    rewrite !Entry_binop_Ok by (assumption || reflexivity).
    rewrite !(zip_with_diag Z.land (fun x => x)) by apply Z.land_diag.
    rewrite !(zip_with_diag Z.lor (fun x => x)) by apply Z.lor_diag.
    rewrite !(zip_with_diag Z.lxor (fun _ => 0)) by apply Z.lxor_nilpotent.
    rewrite !map_same, !map_const_0.
    destruct d, g, n, v. cbn [Words NumBits numWords].
    repeat split; reflexivity.
Qed.

Lemma new_entry_outcomes_witness :
  exists e zd zg zn zv,
    NewEntry (Some sample_a) (Some sample_b) (Some sample_c) (Some sample_a)
    = Ok e /\ entry_wf e /\
    Entry_Equals (Some e) (Some e) = Ok true /\
    Entry_And (Some e) (Some e) = Ok e /\
    Entry_Or (Some e) (Some e) = Ok e /\
    NewBitSet (NumBits sample_a) = Ok zd /\ NewBitSet (NumBits sample_b) = Ok zg /\
    NewBitSet (NumBits sample_c) = Ok zn /\ NewBitSet (NumBits sample_a) = Ok zv /\
    Entry_Xor (Some e) (Some e)
    = Ok (mkEntry (Some zd) (Some zg) (Some zn) (Some zv)).
Proof.
  apply (proj2 new_entry_outcomes);
    try apply sample_a_wf; try apply sample_b_wf; apply sample_c_wf.
Defined.

(** *** dedup and computeBitLength *)

Lemma filter_all (P : string -> Prop) `{forall x, Decision (P x)} (l : list string) :
  Forall P l -> filter P l = l.
Proof.
  induction 1 as [|x l Hx _ IH]; [reflexivity|].
  rewrite filter_cons_True by assumption. now rewrite IH.
Qed.

Lemma filter_none (P : string -> Prop) `{forall x, Decision (P x)} (l : list string) :
  Forall (fun x => ~ P x) l -> filter P l = [].
Proof.
  induction 1 as [|x l Hx _ IH]; [reflexivity|].
  rewrite filter_cons_False by assumption. exact IH.
Qed.

Lemma first_occurrences_NoDup_id (l : list string) :
  NoDup l -> first_occurrences l = l.
Proof.
  induction 1 as [|x l Hx _ IH]; [reflexivity|].
  cbn [first_occurrences]. rewrite IH. f_equal. apply filter_all.
  apply Forall_forall. intros y Hy ->. contradiction.
Qed.

Lemma first_occurrences_app (l l' : list string) :
  first_occurrences (l ++ l')
  = first_occurrences l ++ filter (fun y => y ∉ l) (first_occurrences l').
Proof.
  induction l as [|x l IH].
  - cbn [app first_occurrences]. symmetry. apply filter_all.
    apply Forall_forall. intros y _. apply not_elem_of_nil.
  - cbn [app first_occurrences]. rewrite IH, filter_app. cbn [app]. do 2 f_equal.
    rewrite list_filter_filter. apply list_filter_iff.
    intros y. rewrite elem_of_cons. tauto.
Qed.

Lemma first_occurrences_length (l : list string) :
  (length (first_occurrences l) <= length l)%nat.
Proof.
  induction l as [|x l IH]; [reflexivity|]. cbn [first_occurrences length].
  pose proof (length_filter (fun y => y ≠ x) (first_occurrences l)). lia.
Qed.

(** X18. [dedup], the closure of [GenerateBitMaps] that removes repetitions:
    it changes nothing in a sequence that has none, and only in such a
    sequence, so applying it twice is applying it once; on a concatenation it
    keeps the labels of the first part and, of the second part, those that
    are new; it never lengthens the sequence; and [GenerateBitMaps] returns
    the same maps for sequences as for the sequences without their
    repetitions. *)
Theorem dedup_laws (l l' : list string) :
  bitmapper.dedup (bitmapper.dedup l) = bitmapper.dedup l /\
  (bitmapper.dedup l = l <-> NoDup l) /\
  bitmapper.dedup (l ++ l')
  = bitmapper.dedup l ++ filter (fun y => y ∉ l) (bitmapper.dedup l') /\
  bitmapper.dedup (l ++ l) = bitmapper.dedup l /\
  (length (bitmapper.dedup l) <= length l)%nat /\
  (forall d g n v,
     bitmapper.GenerateBitMaps (bitmapper.dedup d) (bitmapper.dedup g)
       (bitmapper.dedup n) (bitmapper.dedup v)
     = bitmapper.GenerateBitMaps d g n v).
Proof.
  assert (Hidem : forall l0, bitmapper.dedup (bitmapper.dedup l0) = bitmapper.dedup l0).
  { intros l0. rewrite !dedup_first_occurrences.
    apply first_occurrences_NoDup_id, first_occurrences_NoDup. }
  split; [apply Hidem|]. rewrite !dedup_first_occurrences.
  split.
  { split; [|apply first_occurrences_NoDup_id].
    intros <-. apply first_occurrences_NoDup. }
  split; [apply first_occurrences_app|].
  split.
  { rewrite first_occurrences_app.
    replace (filter (fun y => y ∉ l) (first_occurrences l)) with (@nil string);
      [apply app_nil_r|].
    symmetry. apply filter_none. apply Forall_forall.
    intros y Hy Hn. apply Hn. now apply first_occurrences_elem. }
  split; [apply first_occurrences_length|].
  intros d g n v. unfold bitmapper.GenerateBitMaps. now rewrite !Hidem.
Qed.

Lemma quot_rem_64_pos c :
  0 < c ->
  c = 64 * Z.quot c 64 + Z.rem c 64 /\ 0 <= Z.rem c 64 < 64 /\ 0 <= Z.quot c 64.
Proof.
  intros Hc. split; [apply Z.quot_rem'|].
  split; [apply Z.rem_bound_pos; lia | apply Z.quot_pos; lia].
Qed.

Lemma computeBitLength_min c : 64 <= bitmapper.computeBitLength c.
Proof.
  unfold bitmapper.computeBitLength.
  destruct (Z.leb_spec c 0) as [Hc|Hc]; [lia|].
  destruct (quot_rem_64_pos c Hc) as (E & Hr & Hq).
  destruct (Z.eqb_spec (Z.rem c 64) 0) as [H0|H0]; lia.
Qed.

(** X19. [computeBitLength], the closure of [GenerateBitMaps] that sizes the
    vectors, on counts that leave room for the rounding below the largest
    [int]: a count of zero or less gives 64; the result is always a
    multiple of 64, at least 64 and at least the count, and exceeds a
    positive count by less than 64; a result is its own bit length; a larger
    count never gives a smaller result; the result is an [int]; and
    [NewBitSet] accepts a result whose words, 8 bytes each, are within the
    runtime's limit on one allocation. *)
Theorem computeBitLength_laws c c' :
  c <= max_int - 64 -> c' <= max_int - 64 ->
  (c <= 0 -> bitmapper.computeBitLength c = 64) /\
  64 <= bitmapper.computeBitLength c /\
  Z.rem (bitmapper.computeBitLength c) 64 = 0 /\
  c <= bitmapper.computeBitLength c /\
  (0 < c -> bitmapper.computeBitLength c < c + 64) /\
  bitmapper.computeBitLength (bitmapper.computeBitLength c)
  = bitmapper.computeBitLength c /\
  (c <= c' -> bitmapper.computeBitLength c <= bitmapper.computeBitLength c') /\
  bitmapper.computeBitLength c <= max_int /\
  (Z.quot (bitmapper.computeBitLength c) 64 * 8 <= maxAlloc ->
   exists b, NewBitSet (bitmapper.computeBitLength c) = Ok b /\
             NumBits b = bitmapper.computeBitLength c).
Proof.
  intros Hmax Hmax'. unfold max_int in Hmax, Hmax'.
  pose proof (computeBitLength_min c) as Hmin.
  assert (Hrem : Z.rem (bitmapper.computeBitLength c) 64 = 0).
  { unfold bitmapper.computeBitLength.
    destruct (Z.leb_spec c 0) as [Hc|Hc]; [reflexivity|].
    destruct (Z.eqb_spec (Z.rem c 64) 0) as [H0|H0]; [assumption|].
    apply Z.rem_mul. lia. }
  assert (Hge : c <= bitmapper.computeBitLength c).
  { unfold bitmapper.computeBitLength.
    destruct (Z.leb_spec c 0) as [Hc|Hc]; [lia|].
    destruct (quot_rem_64_pos c Hc) as (E & Hr & Hq).
    destruct (Z.eqb_spec (Z.rem c 64) 0) as [H0|H0]; lia. }
  split.
  { intros Hc. unfold bitmapper.computeBitLength.
    destruct (Z.leb_spec c 0); [reflexivity | lia]. }
  split; [exact Hmin|]. split; [exact Hrem|]. split; [exact Hge|].
  split.
  { intros Hc. unfold bitmapper.computeBitLength.
    destruct (Z.leb_spec c 0) as [Hc'|_]; [lia|].
    destruct (quot_rem_64_pos c Hc) as (E & Hr & Hq).
    destruct (Z.eqb_spec (Z.rem c 64) 0) as [H0|H0]; lia. }
  split.
  { unfold bitmapper.computeBitLength at 1.
    destruct (Z.leb_spec (bitmapper.computeBitLength c) 0) as [H|_]; [lia|].
    now rewrite Hrem. }
  split.
  { intros Hle. destruct (Z.leb_spec c 0) as [Hc|Hc].
    - pose proof (computeBitLength_min c') as Hmin'.
      unfold bitmapper.computeBitLength at 1.
      destruct (Z.leb_spec c 0); [assumption | lia].
    - destruct (computeBitLength_spec c) as (_ & _ & _ & Hleast); [lia|].
      destruct (computeBitLength_valid c') as (Hp' & Hr' & Hc'); [lia|].
      apply Hleast; [|lia|lia].
      apply Z.rem_divide; [lia | assumption]. }
  split.
  { unfold max_int, bitmapper.computeBitLength.
    destruct (Z.leb_spec c 0) as [Hc|Hc]; [lia|].
    destruct (quot_rem_64_pos c Hc) as (E & Hr & Hq).
    destruct (Z.eqb_spec (Z.rem c 64) 0) as [H0|H0]; lia. }
  intros _.
  eexists. split; [apply NewBitSet_valid; [lia | exact Hrem]|]. reflexivity.
Qed.

Lemma computeBitLength_laws_witness :
  bitmapper.computeBitLength (-3) = 64 /\
  bitmapper.computeBitLength 65 < 65 + 64 /\
  bitmapper.computeBitLength 65 <= bitmapper.computeBitLength 129 /\
  exists b, NewBitSet (bitmapper.computeBitLength 65) = Ok b /\
            NumBits b = bitmapper.computeBitLength 65.
Proof.
  assert (H0 : 0 <= max_int - 64) by (unfold max_int; lia).
  assert (H1 : -3 <= max_int - 64) by (unfold max_int; lia).
  assert (H2 : 65 <= max_int - 64) by (unfold max_int; lia).
  assert (H3 : 129 <= max_int - 64) by (unfold max_int; lia).
  split; [|split; [|split]].
  - apply (proj1 (computeBitLength_laws (-3) 0 H1 H0)). lia.
  - apply (proj1 (proj2 (proj2 (proj2 (proj2
             (computeBitLength_laws 65 0 H2 H0)))))).
    lia.
  - apply (proj1 (proj2 (proj2 (proj2 (proj2 (proj2 (proj2
             (computeBitLength_laws 65 129 H2 H3)))))))).
    lia.
  - apply (proj2 (proj2 (proj2 (proj2 (proj2 (proj2 (proj2 (proj2
             (computeBitLength_laws 65 0 H2 H0))))))))).
    vm_compute. discriminate.
Defined.

(** *** The vectors of GenerateBitMaps *)

Lemma GenerateBitMaps_maps D G N V md mg mn mv :
  bitmapper.GenerateBitMaps D G N V = Ok (md, mg, mn, mv) <->
  bitmapper.assign (bitmapper.dedup D) = Ok md /\
  bitmapper.assign (bitmapper.dedup G) = Ok mg /\
  bitmapper.assign (bitmapper.dedup N) = Ok mn /\
  bitmapper.assign (bitmapper.dedup V) = Ok mv.
Proof.
  unfold bitmapper.GenerateBitMaps.
  destruct (assign_spec D) as (d & -> & _). destruct (assign_spec G) as (g & -> & _).
  destruct (assign_spec N) as (n & -> & _). destruct (assign_spec V) as (v & -> & _).
  cbn [mbind result_bind]. split.
  - intros E. injection E as -> -> -> ->. repeat split; reflexivity.
  - intros (E1 & E2 & E3 & E4).
    injection E1 as ->. injection E2 as ->. injection E3 as ->. injection E4 as ->.
    reflexivity.
Qed.

(** What a map of [assign] holds under a key. *)
Lemma assign_lookup input m x b :
  bitmapper.assign (bitmapper.dedup input) = Ok m ->
  m !! x = Some b ->
  exists (r : nat) bs,
    b = Some bs /\ bitmapper.dedup input !! r = Some x /\
    NumBits bs = bitmapper.computeBitLength (len (bitmapper.dedup input)) /\
    one_hot bs (Z.of_nat r) /\ Z.of_nat r < NumBits bs.
Proof.
  intros Hm Hx. destruct (assign_spec input) as (m' & Hm' & Hspec).
  rewrite Hm in Hm'. injection Hm' as <-.
  destruct Hspec as (_ & _ & Hel & _ & _ & Hdom & Hrank).
  assert (Hin : x ∈ bitmapper.dedup input).
  { apply Hel, Hdom. now exists b. }
  apply list_elem_of_lookup_1 in Hin as (r & Hr).
  destruct (Hrank r x Hr) as (bs & Hbs & Hn & Hone).
  exists r, bs. rewrite Hbs in Hx. injection Hx as <-.
  split; [reflexivity|]. split; [assumption|]. split; [assumption|].
  split; [assumption|]. rewrite Hn.
  apply lookup_lt_Some in Hr.
  destruct (computeBitLength_valid (len (bitmapper.dedup input)))
    as (_ & _ & Hle); [apply len_nonneg|]. unfold len in *. lia.
Qed.

Lemma IsZero_of_bits a :
  wf a -> (forall i, 0 <= i < NumBits a -> TestBit a i = Ok false) ->
  a = mkBitSet (replicate (length (Words a)) 0) (NumBits a) (numWords a).
Proof.
  intros Ha Hbits. pose proof (NewBitSet_like a Ha) as Hz.
  pose proof (NewBitSet_wf _ _ Hz) as Hzwf.
  apply BitSet_ext; [assumption | assumption | reflexivity |].
  intros i Hi. rewrite Hbits by assumption. symmetry.
  apply TestBit_zeros; [assumption | exact Hi].
Qed.

Lemma CountOnes_land_lor (wa wb : list Z) n k :
  length wa = length wb ->
  CountOnes (mkBitSet (zip_with Z.land wa wb) n k)
  + CountOnes (mkBitSet (zip_with Z.lor wa wb) n k)
  = CountOnes (mkBitSet wa n k) + CountOnes (mkBitSet wb n k).
Proof.
  revert wb. induction wa as [|x wa IH]; intros [|y wb] Hlen; try discriminate.
  - reflexivity.
  - cbn [zip_with]. rewrite !CountOnes_cons.
    pose proof (IH wb ltac:(cbn in Hlen; lia)).
    pose proof (OnesCount64_incl_excl x y). lia.
Qed.

Lemma CountOnes_record b n k :
  CountOnes (mkBitSet (Words b) n k) = CountOnes b.
Proof. reflexivity. Qed.

(** Two one-hot vectors of one bit length, on different bits. *)
Lemma one_hot_disjoint bx by_ (r r' : Z) :
  one_hot bx r -> one_hot by_ r' -> NumBits bx = NumBits by_ -> r <> r' ->
  0 <= r < NumBits bx ->
  bx <> by_ /\
  exists a o, And bx by_ = Ok a /\ IsZero a = true /\ CountOnes a = 0 /\
              Or bx by_ = Ok o /\ CountOnes o = 2.
Proof.
  intros (Hx & Cx & Tx) (Hy & Cy & Ty) Hn Hne Hr.
  split.
  { intros ->. specialize (Tx r Hr). specialize (Ty r Hr).
    rewrite Tx in Ty. rewrite Z.eqb_refl in Ty.
    destruct (Z.eqb_spec r r'); [contradiction | discriminate]. }
  destruct (same_length_words bx by_ Hx Hy Hn) as (_ & Hlen & _ & _).
  pose proof (wordwise_wf Z.land bx by_ land_ok Hx Hy Hn) as Hawf.
  set (a := mkBitSet (zip_with Z.land (Words bx) (Words by_)) (NumBits bx)
              (numWords bx)) in *.
  assert (Ha0 : a = mkBitSet (replicate (length (Words a)) 0) (NumBits a)
                      (numWords a)).
  { apply IsZero_of_bits; [exact Hawf|]. intros i Hi'.
    assert (Hi : 0 <= i < NumBits bx) by exact Hi'.
    destruct (TestBit_wordwise Z.land andb bx by_ i land_ok Z.land_spec
                eq_refl Hx Hy Hn Hi)
      as (x & ba & bb & Hand & _ & _ & Ta & Tb & Tr).
    rewrite wordwise_wf_Ok in Hand by assumption. injection Hand as <-.
    change (TestBit a i = Ok (ba && bb)) in Tr.
    rewrite Tr. rewrite Tx in Ta by exact Hi. rewrite Ty in Tb by lia.
    injection Ta as <-. injection Tb as <-.
    destruct (Z.eqb_spec i r), (Z.eqb_spec i r'); try reflexivity; lia. }
  assert (Ca : CountOnes a = 0).
  { rewrite Ha0. apply CountOnes_replicate_0. }
  exists a, (mkBitSet (zip_with Z.lor (Words bx) (Words by_)) (NumBits bx)
               (numWords bx)).
  split; [now apply wordwise_wf_Ok|].
  split; [rewrite Ha0; apply all_zero_replicate|].
  split; [exact Ca|].
  split; [now apply wordwise_wf_Ok|].
  pose proof (CountOnes_land_lor (Words bx) (Words by_) (NumBits bx)
                (numWords bx) (eq_sym Hlen)) as Hie.
  fold a in Hie. rewrite !CountOnes_record in Hie. lia.
Qed.

(** X20. The vectors of one map of [GenerateBitMaps]: every key of the map
    is a label of the input and is mapped to a BitSet, never to nil; two
    vectors of the map have the same bit length, and [Equals] holds of them
    exactly when their labels are the same; the vectors of two different
    labels have no bit in common, so their AND is zero and their OR has two
    bits set. *)
Theorem generated_vectors_disjoint D G N V md mg mn mv input m :
  bitmapper.GenerateBitMaps D G N V = Ok (md, mg, mn, mv) ->
  (input, m) ∈ [(D, md); (G, mg); (N, mn); (V, mv)] ->
  (forall x, x ∈ input <-> exists b, m !! x = Some (Some b)) /\
  forall x y bx by_,
    m !! x = Some (Some bx) -> m !! y = Some (Some by_) ->
    wf bx /\ CountOnes bx = 1 /\ NumBits bx = NumBits by_ /\
    Equals bx by_ = Ok (bool_decide (x = y)) /\
    (x <> y ->
       exists a o, And bx by_ = Ok a /\ IsZero a = true /\ CountOnes a = 0 /\
                   Or bx by_ = Ok o /\ CountOnes o = 2).
Proof.
  intros Hgen Hin. apply GenerateBitMaps_maps in Hgen.
  assert (Hm : bitmapper.assign (bitmapper.dedup input) = Ok m).
  { destruct Hgen as (H1 & H2 & H3 & H4).
    rewrite !elem_of_cons, elem_of_nil in Hin.
    destruct Hin as [E|[E|[E|[E|[]]]]]; injection E as -> ->; assumption. }
  clear Hgen Hin. split.
  - intros x. destruct (assign_spec input) as (m' & Hm' & Hspec).
    rewrite Hm in Hm'. injection Hm' as <-.
    destruct Hspec as (_ & _ & _ & _ & _ & Hdom & _). rewrite <- Hdom. split.
    + intros [b Hb]. destruct (assign_lookup _ _ _ _ Hm Hb) as (_ & bs & -> & _).
      now exists bs.
    + intros [b Hb]. now exists (Some b).
  - intros x y bx by_ Hbx Hby.
    destruct (assign_lookup _ _ _ _ Hm Hbx) as (r & bx' & E & Hr & Hn & Hone & Hlt).
    injection E as <-.
    destruct (assign_lookup _ _ _ _ Hm Hby) as (r' & by' & E & Hr' & Hn' & Hone' & Hlt').
    injection E as <-.
    split; [apply Hone|]. split; [apply Hone|]. split; [congruence|].
    destruct (decide (x = y)) as [->|Hxy].
    + rewrite Hbx in Hby. injection Hby as <-.
      rewrite bool_decide_eq_true_2 by reflexivity.
      split; [|contradiction]. apply Equals_refl, Hone.
    + assert (Hrr : Z.of_nat r <> Z.of_nat r').
      { intros E. apply Nat2Z.inj in E. subst r'. congruence. }
      destruct (one_hot_disjoint bx by_ _ _ Hone Hone' ltac:(congruence) Hrr
                  ltac:(lia)) as (Hne & Hops).
      split; [|intros _; exact Hops].
      rewrite Equals_decides by (apply Hone || apply Hone').
      now rewrite !bool_decide_eq_false_2.
Qed.

Lemma generated_vectors_disjoint_witness :
  (forall x, x ∈ ["n1"; "n2"; "n3"]
             <-> exists b, sample_nameMap !! x = Some (Some b)) /\
  forall x y bx by_,
    sample_nameMap !! x = Some (Some bx) -> sample_nameMap !! y = Some (Some by_) ->
    wf bx /\ CountOnes bx = 1 /\ NumBits bx = NumBits by_ /\
    Equals bx by_ = Ok (bool_decide (x = y)) /\
    (x <> y ->
       exists a o, And bx by_ = Ok a /\ IsZero a = true /\ CountOnes a = 0 /\
                   Or bx by_ = Ok o /\ CountOnes o = 2).
Proof.
  apply (generated_vectors_disjoint ["d1"; "d2"] ["g1"] ["n1"; "n2"; "n3"]
           ["v1"; "v2"] sample_domainMap sample_groupMap sample_nameMap
           sample_valueMap).
  - vm_compute. reflexivity.
  - rewrite !elem_of_cons. right. right. left. reflexivity.
Defined.

(** *** Entries looked up in the maps of GenerateBitMaps *)

Lemma assign_keys input m x :
  bitmapper.assign (bitmapper.dedup input) = Ok m ->
  (x ∈ input <-> is_Some (m !! x)).
Proof.
  intros Hm. destruct (assign_spec input) as (m' & Hm' & Hspec).
  rewrite Hm in Hm'. injection Hm' as <-.
  destruct Hspec as (_ & _ & _ & _ & _ & Hdom & _). now rewrite Hdom.
Qed.

(** [Equals] on two values of one map of [assign] compares the keys. *)
Lemma assign_Equals input m x y bx by_ :
  bitmapper.assign (bitmapper.dedup input) = Ok m ->
  m !! x = Some bx -> m !! y = Some by_ ->
  field_Equals bx by_ = Ok (bool_decide (x = y)).
Proof.
  intros Hm Hbx Hby.
  destruct (assign_lookup _ _ _ _ Hm Hbx) as (r & bx' & -> & Hr & Hn & Hone & Hlt).
  destruct (assign_lookup _ _ _ _ Hm Hby) as (r' & by' & -> & Hr' & Hn' & Hone' & Hlt').
  unfold field_Equals. cbn [deref mbind result_bind].
  destruct (decide (x = y)) as [->|Hxy].
  - rewrite Hbx in Hby. injection Hby as <-.
    rewrite bool_decide_eq_true_2 by reflexivity. apply Equals_refl, Hone.
  - assert (Hrr : Z.of_nat r <> Z.of_nat r').
    { intros E. apply Nat2Z.inj in E. subst r'. congruence. }
    destruct (one_hot_disjoint bx' by' _ _ Hone Hone' ltac:(congruence) Hrr
                ltac:(lia)) as (Hne & _).
    rewrite Equals_decides by (apply Hone || apply Hone').
    now rewrite !bool_decide_eq_false_2.
Qed.

(** X21. [NewEntry] of package bitmapper on the maps of [GenerateBitMaps]:
    it returns an Entry exactly when each of the four keys is a label of the
    sequence its map was generated from. The Entry then has four non-nil
    fields, each a BitSet with one bit set, and [Entry.Equals] on two
    Entries looked up in the same maps is true exactly when they were
    looked up under the same four keys. *)
Theorem generated_entries D G N V md mg mn mv :
  bitmapper.GenerateBitMaps D G N V = Ok (md, mg, mn, mv) ->
  forall dk gk nk vk,
    ((exists e, bitmapper.NewEntry dk gk nk vk md mg mn mv = Ok e)
     <-> dk ∈ D /\ gk ∈ G /\ nk ∈ N /\ vk ∈ V) /\
    forall e, bitmapper.NewEntry dk gk nk vk md mg mn mv = Ok e ->
      (exists d g n v,
         e = bitmapper.mkEntry (Some d) (Some g) (Some n) (Some v) /\
         wf d /\ wf g /\ wf n /\ wf v /\
         CountOnes d = 1 /\ CountOnes g = 1 /\
         CountOnes n = 1 /\ CountOnes v = 1) /\
      forall dk' gk' nk' vk' e',
        bitmapper.NewEntry dk' gk' nk' vk' md mg mn mv = Ok e' ->
        bitmapper.Entry_Equals (Some e) (Some e')
        = Ok (bool_decide ((dk, gk, nk, vk) = (dk', gk', nk', vk'))).
Proof.
  intros Hgen. apply GenerateBitMaps_maps in Hgen as (Hd & Hg & Hn & Hv).
  intros dk gk nk vk. split.
  - rewrite (assign_keys D md dk Hd), (assign_keys G mg gk Hg),
      (assign_keys N mn nk Hn), (assign_keys V mv vk Hv).
    unfold bitmapper.NewEntry. split.
    + intros [e He].
      destruct (md !! dk); [|discriminate]. destruct (mg !! gk); [|discriminate].
      destruct (mn !! nk); [|discriminate]. destruct (mv !! vk); [|discriminate].
      repeat split; eauto.
    + intros ([d ->] & [g ->] & [n ->] & [v ->]). eauto.
  - intros e He. unfold bitmapper.NewEntry in He.
    destruct (md !! dk) as [d|] eqn:Ed; [|discriminate].
    destruct (mg !! gk) as [g|] eqn:Eg; [|discriminate].
    destruct (mn !! nk) as [n|] eqn:En; [|discriminate].
    destruct (mv !! vk) as [v|] eqn:Ev; [|discriminate].
    injection He as <-. split.
    + destruct (assign_lookup _ _ _ _ Hd Ed) as (? & d' & -> & _ & _ & Od & _).
      destruct (assign_lookup _ _ _ _ Hg Eg) as (? & g' & -> & _ & _ & Og & _).
      destruct (assign_lookup _ _ _ _ Hn En) as (? & n' & -> & _ & _ & On & _).
      destruct (assign_lookup _ _ _ _ Hv Ev) as (? & v' & -> & _ & _ & Ov & _).
      exists d', g', n', v'. split; [reflexivity|].
      destruct Od as (Wd & Cd & _), Og as (Wg & Cg & _), On as (Wn & Cn & _),
        Ov as (Wv & Cv & _).
      exact (conj Wd (conj Wg (conj Wn (conj Wv
               (conj Cd (conj Cg (conj Cn Cv))))))).
    + intros dk' gk' nk' vk' e' He'. unfold bitmapper.NewEntry in He'.
      destruct (md !! dk') as [d'|] eqn:Ed'; [|discriminate].
      destruct (mg !! gk') as [g'|] eqn:Eg'; [|discriminate].
      destruct (mn !! nk') as [n'|] eqn:En'; [|discriminate].
      destruct (mv !! vk') as [v'|] eqn:Ev'; [|discriminate].
      injection He' as <-.
      unfold bitmapper.Entry_Equals.
      cbn [bitmapper.Domain bitmapper.Group bitmapper.Name bitmapper.Value].
      rewrite (assign_Equals _ _ _ _ _ _ Hd Ed Ed'),
        (assign_Equals _ _ _ _ _ _ Hg Eg Eg'),
        (assign_Equals _ _ _ _ _ _ Hn En En'),
        (assign_Equals _ _ _ _ _ _ Hv Ev Ev').
      cbn [mbind result_bind].
      repeat case_bool_decide; cbn [negb]; try reflexivity; congruence.
Qed.

Lemma generated_entries_witness :
  ((exists e, bitmapper.NewEntry "d1" "g1" "n2" "v2"
                sample_domainMap sample_groupMap sample_nameMap sample_valueMap
              = Ok e)
   <-> "d1" ∈ ["d1"; "d2"] /\ "g1" ∈ ["g1"] /\ "n2" ∈ ["n1"; "n2"; "n3"] /\
       "v2" ∈ ["v1"; "v2"]) /\
  forall e, bitmapper.NewEntry "d1" "g1" "n2" "v2"
              sample_domainMap sample_groupMap sample_nameMap sample_valueMap
            = Ok e ->
    (exists d g n v,
       e = bitmapper.mkEntry (Some d) (Some g) (Some n) (Some v) /\
       wf d /\ wf g /\ wf n /\ wf v /\
       CountOnes d = 1 /\ CountOnes g = 1 /\
       CountOnes n = 1 /\ CountOnes v = 1) /\
    forall dk' gk' nk' vk' e',
      bitmapper.NewEntry dk' gk' nk' vk'
        sample_domainMap sample_groupMap sample_nameMap sample_valueMap = Ok e' ->
      bitmapper.Entry_Equals (Some e) (Some e')
      = Ok (bool_decide (("d1", "g1", "n2", "v2") = (dk', gk', nk', vk'))).
Proof.
  apply (generated_entries ["d1"; "d2"] ["g1"] ["n1"; "n2"; "n3"] ["v1"; "v2"]).
  vm_compute. reflexivity.
Defined.

(** *** BitSets outside the invariant *)

(** X22. A BitSet whose unexported word count is zero, as a struct literal
    written outside the package has it whatever [Words] and [NumBits] it
    gives: the methods that loop over the word count see no word, so [ToHex]
    is the empty string, [Not] and the binary operations return a BitSet
    without words, and [Equals] is true of every BitSet of the same bit
    length; with the operands exchanged, and no words in the literal,
    [Equals] panics on the first word, as the bit methods do on every valid
    index. *)
Theorem zero_word_count_bitset ws n o :
  let b := mkBitSet ws n 0 in
  ToHex b = Ok EmptyString /\
  BitSet_String b = Ok (String "0" (String "x" EmptyString)) /\
  Not b = Ok (mkBitSet [] n 0) /\
  (NumBits o = n ->
     Equals b o = Ok true /\
     And b o = Ok (mkBitSet [] n 0) /\ Or b o = Ok (mkBitSet [] n 0) /\
     Xor b o = Ok (mkBitSet [] n 0)) /\
  (wf o -> NumBits o = n -> ws = [] -> Equals o b = Panic (PanicIndex 0 0)) /\
  (forall i, 0 <= i < n -> ws = [] ->
     TestBit b i = Panic (PanicIndex (Z.quot i 64) 0) /\
     SetBit b i = (b, Panic (PanicIndex (Z.quot i 64) 0)) /\
     ClearBit b i = (b, Panic (PanicIndex (Z.quot i 64) 0))).
Proof.
  intros b. split; [reflexivity|]. split; [reflexivity|]. split; [reflexivity|].
  split.
  { intros Hn. unfold Equals, And, Or, Xor, wordwise, ensureSameSize.
    cbn [NumBits numWords b]. rewrite Hn, Z.eqb_refl. cbn [negb].
    repeat split; reflexivity. }
  split.
  { intros Ho Hn ->. unfold Equals. cbn [NumBits b]. rewrite Hn, Z.eqb_refl.
    cbn [negb]. pose proof Ho as [Hp Hal Hw Hl _].
    destruct (aligned_words _ Hp Hal) as (k & Hk & _ & Hq & _).
    rewrite Hw, Hq, Nat2Z.id. destruct k as [|k]; [lia|].
    cbn [Equals_loop]. unfold len in Hl.
    destruct (Words o) as [|w wo] eqn:E; [cbn in Hl; lia|]. reflexivity. }
  intros i Hi ->.
  assert (Hq : 0 <= Z.quot i 64) by (apply Z.quot_pos; lia).
  assert (Hbad : bad_index b i = false).
  { apply bad_index_false. cbn [NumBits b]. lia. }
  assert (Hidx : index (@nil Z) (Z.quot i 64) = Panic (PanicIndex (Z.quot i 64) 0)).
  { unfold index. destruct (0 <=? Z.quot i 64); reflexivity. }
  unfold TestBit, SetBit, ClearBit, update_word. rewrite Hbad.
  cbn [Words b]. rewrite Hidx. repeat split; reflexivity.
Qed.

Lemma zero_word_count_bitset_witness :
  (Equals (mkBitSet [7] 128 0) sample_a = Ok true /\
   And (mkBitSet [7] 128 0) sample_a = Ok (mkBitSet [] 128 0) /\
   Or (mkBitSet [7] 128 0) sample_a = Ok (mkBitSet [] 128 0) /\
   Xor (mkBitSet [7] 128 0) sample_a = Ok (mkBitSet [] 128 0)) /\
  Equals sample_a (mkBitSet [] 128 0) = Panic (PanicIndex 0 0) /\
  TestBit (mkBitSet [] 128 0) 70 = Panic (PanicIndex (Z.quot 70 64) 0).
Proof.
  split; [|split].
  - apply (proj1 (proj2 (proj2 (proj2 (zero_word_count_bitset [7] 128 sample_a))))).
    reflexivity.
  - apply (proj1 (proj2 (proj2 (proj2 (proj2
             (zero_word_count_bitset [] 128 sample_a)))))).
    + apply sample_a_wf.
    + reflexivity.
    + reflexivity.
  - apply (proj2 (proj2 (proj2 (proj2 (proj2
             (zero_word_count_bitset [] 128 sample_a))))) 70); [lia | reflexivity].
Defined.

(** *** Where a bit is in the hex string *)

Lemma hex_encode_get (data : list Z) (j : nat) d :
  data !! j = Some d ->
  String.get (2 * j) (hex_EncodeToString data) = Some (hexdigit (Z.shiftr d 4)) /\
  String.get (2 * j + 1) (hex_EncodeToString data) = Some (hexdigit (Z.land d 15)).
Proof.
  revert j. induction data as [|x data IH]; intros [|j] Hd; try discriminate.
  - injection Hd as ->. split; reflexivity.
  - replace (2 * S j)%nat with (S (S (2 * j))) by lia.
    cbn [hex_EncodeToString String.get Nat.add]. now apply IH.
Qed.

Lemma flat_map_bytes_lookup (ws : list Z) (k t : nat) w :
  ws !! k = Some w -> (t < 8)%nat ->
  flat_map bytes_of_word ws !! (8 * k + t)%nat = bytes_of_word w !! t.
Proof.
  revert k. induction ws as [|x ws IH]; intros [|k] Hw Ht; try discriminate.
  - injection Hw as ->. cbn [flat_map]. rewrite lookup_app_l; [reflexivity|].
    cbn. lia.
  - cbn [flat_map]. rewrite lookup_app_r by (cbn; lia).
    replace (8 * S k + t - length (bytes_of_word x))%nat with (8 * k + t)%nat
      by (cbn; lia).
    now apply IH.
Qed.

Lemma bytes_of_word_lookup w (t : nat) :
  (t < 8)%nat ->
  bytes_of_word w !! t = Some (byte_of (Z.shiftr w (8 * (7 - Z.of_nat t)))).
Proof.
  intros Ht. do 8 (destruct t as [|t]; [reflexivity|]). lia.
Qed.

(** The hex digit that holds bit [8 * q8 + 4 * h + m] of word [k]. *)
Lemma hex_digit_of_word_bit (ws : list Z) (k q8 : nat) (h m : Z) w :
  ws !! k = Some w -> (q8 < 8)%nat -> 0 <= h < 2 -> 0 <= m < 4 ->
  exists c v,
    String.get (2 * (8 * k + (7 - q8)) + Z.to_nat (1 - h))
      (hex_EncodeToString (flat_map bytes_of_word ws)) = Some c /\
    fromHexChar c = Some v /\ 0 <= v < 16 /\
    Z.testbit v m = Z.testbit w (8 * Z.of_nat q8 + 4 * h + m).
Proof.
  intros Hw Hq Hh Hm.
  pose proof (flat_map_bytes_lookup ws k (7 - q8) w Hw ltac:(lia)) as Hd.
  rewrite bytes_of_word_lookup in Hd by lia.
  replace (8 * (7 - Z.of_nat (7 - q8))) with (8 * Z.of_nat q8) in Hd by lia.
  set (d := byte_of (Z.shiftr w (8 * Z.of_nat q8))) in *.
  destruct (hex_encode_get _ _ _ Hd) as [Hhi Hlo].
  destruct (byte_nibbles d (byte_of_ok _)) as [Bhi Blo].
  assert (Hh' : h = 1 \/ h = 0) by lia. destruct Hh' as [-> | ->].
  - exists (hexdigit (Z.shiftr d 4)), (Z.shiftr d 4).
    change (Z.to_nat (1 - 1)) with 0%nat. rewrite Nat.add_0_r.
    split; [exact Hhi|]. split; [now apply hexdigit_value|].
    split; [exact Bhi|].
    rewrite Z.shiftr_spec by lia. unfold d.
    rewrite testbit_byte_shiftr by lia.
    destruct (Z.leb_spec 0 (m + 4)); [|lia].
    destruct (Z.ltb_spec (m + 4) 8); [|lia].
    cbn [andb]. f_equal. lia.
  - exists (hexdigit (Z.land d 15)), (Z.land d 15).
    change (Z.to_nat (1 - 0)) with 1%nat.
    split; [exact Hlo|]. split; [now apply hexdigit_value|].
    split; [exact Blo|].
    rewrite Z.land_spec. change 15 with (Z.ones 4).
    rewrite Z.ones_spec_low by lia. rewrite andb_true_r. unfold d.
    rewrite testbit_byte_shiftr by lia.
    destruct (Z.leb_spec 0 m); [|lia].
    destruct (Z.ltb_spec m 8); [|lia].
    cbn [andb]. f_equal. lia.
Qed.

(** X23. Where a bit is in the hex string: for a BitSet that satisfies the
    invariant and a valid index [i], [ToHex] returns a string whose
    character at position [16 * (i / 64) + 15 - (i mod 64) / 4] is a hex
    digit, and [TestBit] at [i] is bit [i mod 4] of the value of that digit.
    Each word takes sixteen digits, words in order, and within a word the
    digits run from the most significant to the least. *)
Theorem hex_digit_of_bit b i :
  wf b -> 0 <= i < NumBits b ->
  exists s c v,
    ToHex b = Ok s /\
    String.get (Z.to_nat (16 * (i / 64) + 15 - (i mod 64) / 4)) s = Some c /\
    fromHexChar c = Some v /\ 0 <= v < 16 /\
    TestBit b i = Ok (Z.testbit v (i mod 4)).
Proof.
  intros Hb Hi. pose proof Hb as [Hp Hal Hw Hl Hws].
  destruct (aligned_words _ Hp Hal) as (nw & _ & Hn & Hq & _).
  rewrite TestBit_valid by assumption. unfold word_bit.
  rewrite Z.quot_div_nonneg, Z.rem_mod_nonneg by lia.
  rewrite ToHex_Ok by assumption.
  set (k := i / 64). set (p := i mod 64).
  set (q8 := p / 8). set (h := (p mod 8) / 4). set (m := i mod 4).
  assert (Hk : 0 <= k < Z.of_nat nw) by (unfold k; Z.div_mod_to_equations; lia).
  assert (Hpr : 0 <= p < 64) by (unfold p; Z.div_mod_to_equations; lia).
  assert (Hq8 : 0 <= q8 < 8) by (unfold q8; Z.div_mod_to_equations; lia).
  assert (Hh : 0 <= h < 2) by (unfold h; Z.div_mod_to_equations; lia).
  assert (Hm : 0 <= m < 4) by (unfold m; Z.div_mod_to_equations; lia).
  assert (Hp4 : p / 4 = 2 * q8 + h)
    by (unfold q8, h; Z.div_mod_to_equations; lia).
  assert (Hpm : p = 8 * q8 + 4 * h + m)
    by (unfold q8, h, m, p; Z.div_mod_to_equations; lia).
  assert (Hlk : Words b !! Z.to_nat k = Some (nth (Z.to_nat k) (Words b) 0)).
  { destruct (lookup_lt_is_Some_2 (Words b) (Z.to_nat k)) as [w Hw'].
    - unfold len in Hl. lia.
    - now rewrite (nth_lookup_Some _ _ 0 _ Hw'). }
  destruct (hex_digit_of_word_bit (Words b) (Z.to_nat k) (Z.to_nat q8) h m _
              Hlk ltac:(lia) Hh Hm) as (c & v & Hget & Hval & Hv & Hbit).
  exists (hex_EncodeToString (flat_map bytes_of_word (Words b))), c, v.
  split; [reflexivity|]. split.
  { rewrite <- Hget. f_equal. rewrite Hp4. lia. }
  split; [exact Hval|]. split; [exact Hv|].
  rewrite Hbit. do 2 f_equal. rewrite Z2Nat.id by lia. exact Hpm.
Qed.

Lemma hex_digit_of_bit_witness :
  exists s c v,
    ToHex sample_a = Ok s /\
    String.get (Z.to_nat (16 * (127 / 64) + 15 - (127 mod 64) / 4)) s = Some c /\
    fromHexChar c = Some v /\ 0 <= v < 16 /\
    TestBit sample_a 127 = Ok (Z.testbit v (127 mod 4)).
Proof. apply hex_digit_of_bit; [apply sample_a_wf | cbn; lia]. Defined.
